(** * CVRP route construction by tabular Q-learning: a shallow embedding

    The development follows [CVRP_algoritmos_Murilo.py].  Python numbers are
    read as exact rationals ([Q]); the two sentinels [float('-inf')] and
    [float('inf')] are the only infinite values the program ever creates
    and are kept apart from the finite numbers in the type [val].
    Exceptions are results of type [res]; the [while] loop of an episode is
    run with fuel; the pseudo-random draws come from an oracle. *)

From Stdlib Require Import QArith Qminmax Lqa.
From stdpp Require Import base list.

Local Open Scope Z_scope.

(** ** Results and errors *)

Inductive erro : Type :=
| ZeroDivisionError
| IndexError
| ValueError
| UnboundLocalError.

Inductive res (A : Type) : Type :=
| Ok (a : A)
| Err (e : erro)
| Timeout.

Arguments Ok {A} a.
Arguments Err {A} e.
Arguments Timeout {A}.

Definition bind {A B : Type} (m : res A) (k : A -> res B) : res B :=
  match m with
  | Ok a => k a
  | Err e => Err e
  | Timeout => Timeout
  end.

Notation "'let*' x ':=' m 'in' k" := (bind m (fun x => k))
  (at level 10, x pattern, m at level 200, k at level 200).

(** ** Values: finite numbers and the two infinities *)

Inductive val : Type :=
| NInf
| Fin (q : Q)
| PInf.

Definition Qlt_bool (x y : Q) : bool := negb (Qle_bool y x).

(** [x == y] on Python floats. *)
Definition val_eqb (x y : val) : bool :=
  match x, y with
  | NInf, NInf => true
  | PInf, PInf => true
  | Fin a, Fin b => Qeq_bool a b
  | _, _ => false
  end.

(** [x < y] on Python floats. *)
Definition val_ltb (x y : val) : bool :=
  match x, y with
  | NInf, NInf => false
  | NInf, _ => true
  | Fin _, NInf => false
  | Fin a, Fin b => Qlt_bool a b
  | Fin _, PInf => true
  | PInf, _ => false
  end.

(** [total + custo] where [custo] is finite. *)
Definition val_mais (x : val) (c : Q) : val :=
  match x with
  | Fin a => Fin (a + c)
  | NInf => NInf
  | PInf => PInf
  end.

(** ** Lists as Python lists *)

(** [l[i]] *)
Definition get {A : Type} (l : list A) (i : nat) : res A :=
  match l !! i with
  | Some x => Ok x
  | None => Err IndexError
  end.

(** [l[i] = x] *)
Definition set {A : Type} (l : list A) (i : nat) (x : A) : res (list A) :=
  if decide (i < length l)%nat then Ok (<[i := x]> l) else Err IndexError.

(** [l[-1]] *)
Definition ultimo {A : Type} (l : list A) : res A :=
  match last l with
  | Some x => Ok x
  | None => Err IndexError
  end.

(** [l.index(x)]: position of the first element equal to [x]. *)
Fixpoint index (x : val) (l : list val) : res nat :=
  match l with
  | [] => Err ValueError
  | y :: l' => if val_eqb y x then Ok O else let* i := index x l' in Ok (S i)
  end.

(** [max(l)]: the first of the greatest elements. *)
Definition max_val (l : list val) : res val :=
  match l with
  | [] => Err ValueError
  | y :: l' => Ok (fold_left (fun m x => if val_ltb m x then x else m) l' y)
  end.

(** [l.count(x)] *)
Definition count_val (x : val) (l : list val) : nat :=
  length (filter (fun y => val_eqb y x = true) l).

(** [l.count(False)] *)
Definition count_False (l : list bool) : nat :=
  length (filter (fun b => b = false) l).

(** [sum(l)] on integers. *)
Definition soma (l : list Z) : Z := fold_left Z.add l 0.

(** A square table [Q(s, a)], as a list of rows. *)
Abbreviation matriz := (list (list Q)).

(** [M[i][j]] *)
Definition get2 (M : matriz) (i j : nat) : res Q :=
  let* row := get M i in get row j.

(** [M[i][j] = x] *)
Definition set2 (M : matriz) (i j : nat) (x : Q) : res matriz :=
  let* row := get M i in
  let* row' := set row j x in
  set M i row'.

(** ** Environment and routes *)

Module Estado.
Record t : Type := Build { CoordX : Z; CoordY : Z; Demanda : Z }.
End Estado.

Record Ambiente : Type := {
  Estados : list Estado.t;
  Capacidade : Z;
  Veiculos : Z
}.

Module Rota.
Record t : Type := Build { Demanda : Z; Custo : Q; Consumidores : list nat }.
End Rota.

(** [{"Demanda": 0, "Custo": 0, "Consumidores": [0]}] *)
Definition rota_nova : Rota.t := Rota.Build 0 0%Q [O].

(** ** The helper functions of the source *)

(** [Recompensa]: [- distancia/(capacidadeVeiculo - demanda)]. *)
Definition Recompensa (distancia : Q) (demanda capacidadeVeiculo : Z) : res Q :=
  if (capacidadeVeiculo - demanda =? 0)
  then Err ZeroDivisionError
  else Ok (- distancia / inject_Z (capacidadeVeiculo - demanda))%Q.

(** [ValidaAcoes], the loop body at index [i] and the rest of the range. *)
Fixpoint ValidaAcoes_de (i : nat) (acoesPossiveis : list val)
    (listEstadosVisitados : list bool) (demandaRotaAcumulada : Z)
    (ambiente : Ambiente) (VeiculosDinamicos : bool) : res (list val * list Z) :=
  match acoesPossiveis with
  | [] => Ok ([], [])
  | x :: resto =>
      let* visitado := get listEstadosVisitados i in
      let* invalida :=
        (if visitado then Ok true
         else let* e := get (Estados ambiente) i in
              Ok ((Capacidade ambiente <? demandaRotaAcumulada + Estado.Demanda e)
                  && VeiculosDinamicos)) in
      let* (acoes, permissao) :=
        ValidaAcoes_de (S i) resto listEstadosVisitados demandaRotaAcumulada
          ambiente VeiculosDinamicos in
      Ok (if invalida : bool then (NInf :: acoes, 0 :: permissao)
          else (x :: acoes, 1 :: permissao))
  end.

Definition ValidaAcoes := ValidaAcoes_de O.

(** [numpy.random.choice(a, 1, p=p)]: the draw [r] of [random_sample] is
    looked up in the cumulative sums of [p]. *)
Fixpoint cumsum (acc : Q) (p : list Q) : list Q :=
  match p with
  | [] => []
  | x :: p' => (acc + x)%Q :: cumsum (acc + x)%Q p'
  end.

Fixpoint searchsorted (cdf : list Q) (r : Q) : nat :=
  match cdf with
  | [] => O
  | c :: cdf' => if Qle_bool c r then S (searchsorted cdf' r) else O
  end.

Definition random_choice (r : Q) (a : list val) (p : list Q) : res val :=
  if decide (length a = O) then Err ValueError
  else if decide (length p = length a) then
    if existsb (fun x => Qlt_bool x 0) p then Err ValueError
    else if Qeq_bool (fold_left Qplus p 0%Q) 1 then
      get a (searchsorted (cumsum 0 p) r)
    else Err ValueError
  else Err ValueError.

(** [permissao[i]/somatoria] for every [i]. *)
Fixpoint probabilidades (permissao : list Z) (somatoria : Z) : res (list Q) :=
  match permissao with
  | [] => Ok []
  | x :: resto =>
      if somatoria =? 0 then Err ZeroDivisionError
      else let* ps := probabilidades resto somatoria in
           Ok ((inject_Z x / inject_Z somatoria)%Q :: ps)
  end.

(** [Politica]; [u] is the draw of [uniform(0, 1)] and [r] the draw used by
    [numpy.random.choice]. *)
Definition Politica (u r : Q) (epsilon : Q) (acoes : list val)
    (permissao : list Z) : res nat :=
  if Qlt_bool epsilon u then
    let somatoria := soma permissao in
    let* probabilidade := probabilidades permissao somatoria in
    let* acao := random_choice r acoes probabilidade in
    index acao acoes
  else
    let* m := max_val acoes in index m acoes.

(** [MaxQ] *)
Definition MaxQ (acoes : list val) : res nat :=
  let* m := max_val acoes in index m acoes.

(** [TaxaAprendizagem]: [1/(1 + visitas)]. *)
Definition TaxaAprendizagem (visitas : Q) : res Q :=
  if Qeq_bool (1 + visitas) 0 then Err ZeroDivisionError
  else Ok (1 / (1 + visitas))%Q.

(** [CriaMatriz] *)
Definition CriaMatriz (quantidadeEstados : nat) : matriz :=
  replicate quantidadeEstados (replicate quantidadeEstados 0%Q).

(** [min(l)] on integers: the first of the least elements. *)
Definition min_Z (l : list Z) : res Z :=
  match l with
  | [] => Err ValueError
  | y :: l' => Ok (fold_left (fun m x => if x <? m then x else m) l' y)
  end.

Fixpoint index_Z (x : Z) (l : list Z) : res nat :=
  match l with
  | [] => Err ValueError
  | y :: l' => if y =? x then Ok O else let* i := index_Z x l' in Ok (S i)
  end.

(** [EscolheRota] *)
Definition EscolheRota (rotas : list Rota.t) : res nat :=
  let veiculos := map Rota.Demanda rotas in
  let* m := min_Z veiculos in index_Z m veiculos.

(** [CriaRotas] *)
Definition CriaRotas (quantidadeVeiculos : Z) : list Rota.t :=
  replicate (Z.to_nat quantidadeVeiculos) rota_nova.

(** ** The learner's memory and the random source *)

(** The draws of one credit-assignment step: [uniforme t] is the draw of
    [uniform(0, 1)], [amostra t] the one [numpy.random.choice] uses, and
    [moeda t] tells whether [choice(["1","2"])] is ["1"]. *)
Record Acaso : Type := {
  uniforme : nat -> Q;
  amostra : nat -> Q;
  moeda : nat -> bool
}.

(** The variables of a run, and [relogio], the number of credit-assignment
    steps that have drawn from the random source.  The single-table variants
    keep their table [Q] in [Q1] and never touch [Q2]. *)
Record Memoria : Type := {
  Q1 : matriz;
  Q2 : matriz;
  QVisitas : matriz;
  QElegibilidade : matriz;
  listEstadosVisitados : list bool;
  rotas : list Rota.t;
  veiculo : nat;
  estado : nat;
  acao : nat;
  relogio : nat
}.

(** The hyper-parameters of a run. *)
Record Parametros : Type := {
  lambd : Q;
  taxaDesconto : Q;
  epsilon : Q
}.

(** Consecutive pairs [(l[j-1], l[j])] for [j] from [len(l) - 1] down to 1. *)
Definition pares (l : list nat) : list (nat * nat) :=
  reverse (zip l (tail l)).

(** [M[i][j] = M[i][j] + 1] *)
Definition incrementa (M : matriz) (i j : nat) : res matriz :=
  let* x := get2 M i j in set2 M i j (x + 1)%Q.

(** The row of values offered to [ValidaAcoes]: [Q[estado]], or
    [[a + b for a, b in zip(Q1[estado], Q2[estado])]]. *)
Definition valores (duplo : bool) (m : Memoria) (s : nat) : res (list val) :=
  if duplo then
    let* l1 := get (Q1 m) s in
    let* l2 := get (Q2 m) s in
    Ok (Fin <$> zip_with Qplus l1 l2)
  else
    let* l := get (Q1 m) s in Ok (Fin <$> l).

(** [valorAcaoFutura], read in the table [outra]. *)
Definition ValorAcaoFutura (fixo : bool) (outra : matriz) (acoes : list val)
    (acao : nat) : res Q :=
  if decide (count_val NInf acoes = length acoes) then
    if fixo then get2 outra acao O else Ok 0%Q
  else
    let* j := MaxQ acoes in get2 outra acao j.

Section Episodio.

(** [math.sqrt], which exact rationals do not have. *)
Variable sqrt : Q -> Q.

Variable ambiente : Ambiente.
Variable par : Parametros.
Variable acaso : Acaso.

(** [AtualizaRota] *)
Definition AtualizaRota (rotaAtual : Rota.t) (s acao : nat)
    : res (Rota.t * Q) :=
  let* e := get (Estados ambiente) s in
  let* e' := get (Estados ambiente) acao in
  let x := inject_Z ((Estado.CoordX e - Estado.CoordX e') ^ 2) in
  let y := inject_Z ((Estado.CoordY e - Estado.CoordY e') ^ 2) in
  let distancia := sqrt (x + y)%Q in
  Ok (Rota.Build (Rota.Demanda rotaAtual + Estado.Demanda e')
                 (Rota.Custo rotaAtual + distancia)%Q
                 (Rota.Consumidores rotaAtual ++ [acao]),
      distancia).

(** The temporal-difference error times the learning rate, as every update
    evaluates it: [TaxaAprendizagem(QVisitas[s][a]) * (Recompensa(...) +
    futuro - Q[s][a])]. *)
Definition passo_td (alvo visitas : matriz) (s acao : nat)
    (distancia futuro : Q) : res Q :=
  let* n := get2 visitas s acao in
  let* taxa := TaxaAprendizagem n in
  let* a := get (Estados ambiente) acao in
  let* recompensa :=
    Recompensa distancia (Estado.Demanda a) (Capacidade ambiente) in
  let* q := get2 alvo s acao in
  Ok (taxa * (recompensa + futuro - q))%Q.

(** The backward walk over the route when [lambd] is not 0. *)
Fixpoint percorre (ps : list (nat * nat)) (alvo visitas eleg : matriz)
    (s acao : nat) (distancia futuro : Q) : res (matriz * matriz) :=
  match ps with
  | [] => Ok (alvo, eleg)
  | (u, v) :: resto =>
      let* quv := get2 alvo u v in
      let* d := passo_td alvo visitas s acao distancia futuro in
      let* e := get2 eleg u v in
      let* alvo' := set2 alvo u v (quv + d * e)%Q in
      let* eleg' := set2 eleg u v (lambd par * taxaDesconto par * e)%Q in
      percorre resto alvo' visitas eleg' s acao distancia futuro
  end.

(** The update of the table [alvo]; [futuro] is
    [taxaDesconto*valorAcaoFutura], or 0 on the way back to the depot. *)
Definition AtualizaQ (alvo visitas eleg : matriz) (rota : Rota.t)
    (s acao : nat) (distancia futuro : Q) : res (matriz * matriz) :=
  if Qeq_bool (lambd par) 0 then
    let* q := get2 alvo s acao in
    let* d := passo_td alvo visitas s acao distancia futuro in
    let* alvo' := set2 alvo s acao (q + d)%Q in
    Ok (alvo', eleg)
  else
    percorre (pares (Rota.Consumidores rota)) alvo visitas eleg s acao
      distancia futuro.

(** The credit assignment of one transition [(s, acao)] on the route
    [rota]; [fv] computes [taxaDesconto*valorAcaoFutura] from the
    bootstrap table, which is [Q] itself with one table and, with two,
    the table the coin did not pick. *)
Definition credito (duplo : bool) (m : Memoria) (rota : Rota.t)
    (s acao : nat) (distancia : Q) (fv : matriz -> res Q)
    : res (matriz * matriz * matriz) :=
  if negb duplo then
    let* futuro := fv (Q1 m) in
    let* (q, eleg) :=
      AtualizaQ (Q1 m) (QVisitas m) (QElegibilidade m) rota s acao
        distancia futuro in
    Ok (q, Q2 m, eleg)
  else if moeda acaso (relogio m) then
    let* futuro := fv (Q2 m) in
    let* (q, eleg) :=
      AtualizaQ (Q1 m) (QVisitas m) (QElegibilidade m) rota s acao
        distancia futuro in
    Ok (q, Q2 m, eleg)
  else
    let* futuro := fv (Q1 m) in
    let* (q, eleg) :=
      AtualizaQ (Q2 m) (QVisitas m) (QElegibilidade m) rota s acao
        distancia futuro in
    Ok (Q1 m, q, eleg).

(** One turn of the [while] loop.  [fixo] tells the fixed-fleet variants
    from the dynamic-fleet ones, [duplo] the two-table variants from the
    one-table ones. *)
Definition passo (duplo fixo : bool) (m : Memoria) : res Memoria :=
  let* v := (if fixo then EscolheRota (rotas m) else Ok (veiculo m)) in
  let* s :=
    (if fixo then let* r := get (rotas m) v in ultimo (Rota.Consumidores r)
     else Ok (estado m)) in
  let* linha := valores duplo m s in
  let* rota := get (rotas m) v in
  let* (acoes, permissao) :=
    ValidaAcoes linha (listEstadosVisitados m) (Rota.Demanda rota) ambiente
      (negb fixo) in
  let* a :=
    Politica (uniforme acaso (relogio m)) (amostra acaso (relogio m))
      (epsilon par) acoes permissao in
  let* (rota', distancia) := AtualizaRota rota s a in
  let* rotas' := set (rotas m) v rota' in
  let* visitados := set (listEstadosVisitados m) a true in
  let* acoes' := set acoes a NInf in
  let* eleg := incrementa (QElegibilidade m) s a in
  let* visitas := incrementa (QVisitas m) s a in
  let m1 :=
    Build_Memoria (Q1 m) (Q2 m) visitas eleg visitados rotas' v s a
      (relogio m) in
  let* (q1, q2, eleg') :=
    credito duplo m1 rota' s a distancia
      (fun outra =>
         let* x := ValorAcaoFutura fixo outra acoes' a in
         Ok (taxaDesconto par * x)%Q) in
  let t := S (relogio m) in
  if fixo then
    Ok (Build_Memoria q1 q2 visitas eleg' visitados rotas' v s a t)
  else if decide (a <> O) then
    let* visitados' := set visitados O false in
    Ok (Build_Memoria q1 q2 visitas eleg' visitados' rotas' v a a t)
  else if decide (count_False visitados <> O) then
    Ok (Build_Memoria q1 q2 visitas eleg' visitados (rotas' ++ [rota_nova])
          (S v) a a t)
  else
    Ok (Build_Memoria q1 q2 visitas eleg' visitados rotas' v a a t).

(** [while (listEstadosVisitados.count(False) != 0)] *)
Fixpoint laco (duplo fixo : bool) (fuel : nat) (m : Memoria) : res Memoria :=
  if decide (count_False (listEstadosVisitados m) = O) then Ok m
  else
    match fuel with
    | O => Timeout
    | S fuel' => let* m' := passo duplo fixo m in laco duplo fixo fuel' m'
    end.

(** The memories an episode goes through while it builds its routes,
    from the memory [m0] it starts with. *)
Inductive alcancavel (duplo fixo : bool) (m0 : Memoria) : Memoria -> Prop :=
| alcancavel_inicio : alcancavel duplo fixo m0 m0
| alcancavel_passo (m m' : Memoria) :
    alcancavel duplo fixo m0 m ->
    count_False (listEstadosVisitados m) <> O ->
    passo duplo fixo m = Ok m' ->
    alcancavel duplo fixo m0 m'.

(** The way back to the depot of the route [v] in the fixed-fleet
    variants, and its share of [distanciaTotal]. *)
Definition fecha (duplo : bool) (v : nat) (m : Memoria)
    (distanciaTotal : val) : res (Memoria * val) :=
  let* rota := get (rotas m) v in
  let* s := ultimo (Rota.Consumidores rota) in
  let a := O in
  let* (rota', distancia) := AtualizaRota rota s a in
  let* rotas' := set (rotas m) v rota' in
  let* eleg := incrementa (QElegibilidade m) s a in
  let* visitas := incrementa (QVisitas m) s a in
  let m1 :=
    Build_Memoria (Q1 m) (Q2 m) visitas eleg (listEstadosVisitados m)
      rotas' v s a (relogio m) in
  let* (q1, q2, eleg') :=
    credito duplo m1 rota' s a distancia (fun _ => Ok 0%Q) in
  let total :=
    if Capacidade ambiente <? Rota.Demanda rota' then PInf
    else distanciaTotal in
  Ok (Build_Memoria q1 q2 visitas eleg' (listEstadosVisitados m) rotas'
        v s a (if duplo then S (relogio m) else relogio m),
      val_mais total (Rota.Custo rota')).

(** [for veiculo in range(len(rotas))], from the route [v] on. *)
Fixpoint retorno (duplo : bool) (n v : nat) (m : Memoria)
    (distanciaTotal : val) : res (Memoria * val) :=
  match n with
  | O => Ok (m, distanciaTotal)
  | S n' =>
      let* (m', total) := fecha duplo v m distanciaTotal in
      retorno duplo n' (S v) m' total
  end.

(** The sum of the dynamic-fleet variants over the routes still to add;
    [todas] is the whole list. *)
Fixpoint soma_dinamica (todas resto : list Rota.t) (distanciaTotal : val)
    : val :=
  match resto with
  | [] => distanciaTotal
  | r :: resto' =>
      let total :=
        if Veiculos ambiente <? Z.of_nat (length todas) then PInf
        else distanciaTotal in
      soma_dinamica todas resto' (val_mais total (Rota.Custo r))
  end.

(** The variables at the start of an episode, from the tables left by the
    episodes before it. *)
Definition inicio (fixo : bool) (m : Memoria) : res Memoria :=
  let quantidadeEstados := length (Estados ambiente) in
  let* visitados := set (replicate quantidadeEstados false) O true in
  let rotas0 :=
    if fixo then CriaRotas (Veiculos ambiente) else [rota_nova] in
  Ok (Build_Memoria (Q1 m) (Q2 m) (QVisitas m)
        (CriaMatriz quantidadeEstados) visitados rotas0 O O (acao m)
        (relogio m)).

(** One episode and its [distanciaTotal]. *)
Definition episodio (duplo fixo : bool) (fuel : nat) (m : Memoria)
    : res (Memoria * val) :=
  let* m0 := inicio fixo m in
  let* m1 := laco duplo fixo fuel m0 in
  if fixo then retorno duplo (length (rotas m1)) O m1 (Fin 0)
  else Ok (m1, soma_dinamica (rotas m1) (rotas m1) (Fin 0)).

(** The best result so far: [None] before the first episode. *)
Definition melhor (anterior : option (val * list Rota.t)) (i : nat)
    (distanciaTotal : val) (rs : list Rota.t) : option (val * list Rota.t) :=
  let primeiro :=
    if decide (i = O) then Some (distanciaTotal, rs) else anterior in
  match primeiro with
  | Some (menorDistancia, menorRotas) =>
      if val_ltb distanciaTotal menorDistancia
      then Some (distanciaTotal, rs) else primeiro
  | None => None
  end.

(** [for i in range(epocas)], from episode [i] on. *)
Fixpoint execucao (duplo fixo : bool) (fuel : nat) (epocas i : nat)
    (m : Memoria) (anterior : option (val * list Rota.t))
    (resultados : list val)
    : res (option (val * list Rota.t) * list val * Memoria) :=
  match epocas with
  | O => Ok (anterior, resultados, m)
  | S epocas' =>
      let* (m', distanciaTotal) := episodio duplo fixo fuel m in
      match melhor anterior i distanciaTotal (rotas m') with
      | Some b =>
          execucao duplo fixo fuel epocas' (S i) m' (Some b)
            (resultados ++ [distanciaTotal])
      | None => Err UnboundLocalError
      end
  end.

(** The four algorithms: [(menorDistancia, menorRotas, resultados)]. *)
Definition algoritmo (duplo fixo : bool) (fuel : nat) (epocas : nat)
    : res (val * list Rota.t * list val) :=
  let n := length (Estados ambiente) in
  let m :=
    Build_Memoria (CriaMatriz n) (if duplo then CriaMatriz n else [])
      (CriaMatriz n) [] [] [] O O O O in
  let* (b, resultados, _) := execucao duplo fixo fuel epocas O m None [] in
  match b with
  | Some (menorDistancia, menorRotas) =>
      Ok (menorDistancia, menorRotas, resultados)
  | None => Err UnboundLocalError
  end.

Definition Q_Learning_VeiculosDinamicos := algoritmo false false.
Definition DoubleQ_Learning_VeiculosDinamicos := algoritmo true false.
Definition Q_Learning_VeiculosFixos := algoritmo false true.
Definition DoubleQ_Learning_VeiculosFixos := algoritmo true true.

End Episodio.

(** ** Vocabulary of the properties *)

(** The draws handed to [numpy.random.choice] lie in [[0, 1)]. *)
Definition acaso_valido (a : Acaso) : Prop :=
  forall t, (0 <= amostra a t)%Q /\ (amostra a t < 1)%Q.

(** [M[i][j]], when there is such an entry. *)
Definition entrada (M : matriz) (i j : nat) : option Q :=
  match M !! i with
  | Some linha => linha !! j
  | None => None
  end.

(** [n] rows of [n] entries. *)
Definition quadrada (n : nat) (M : matriz) : Prop :=
  length M = n /\ Forall (fun linha => length linha = n) M.

(** The customers served by a set of routes, depot marks left out. *)
Definition clientes (rs : list Rota.t) : list nat :=
  filter (fun c => c <> O) (concat (Rota.Consumidores <$> rs)).

(** [j] is the position [MaxQ] gives: the first of the greatest entries. *)
Definition primeiro_maximo (l : list val) (j : nat) : Prop :=
  exists x, l !! j = Some x /\
    (forall k y, l !! k = Some y -> val_ltb x y = false) /\
    (forall k y, (k < j)%nat -> l !! k = Some y -> val_ltb y x = true).


(** The rule of [ValidaAcoes] at the node [k]: visited, or too heavy for the
    route when the fleet is dynamic. *)
Definition acao_invalida (visitados : list bool) (demanda : Z)
    (ambiente : Ambiente) (dinamicos : bool) (k : nat) : option bool :=
  match visitados !! k with
  | Some true => Some true
  | Some false =>
      match Estados ambiente !! k with
      | Some e =>
          Some ((Capacidade ambiente <? demanda + Estado.Demanda e) && dinamicos)
      | None => None
      end
  | None => None
  end.

(** What [ValidaAcoes] makes of a row of finite values: a legal entry keeps
    a finite value, an illegal one is [-inf]. *)
Definition mascarada (acoes : list val) (permissao : list Z) : Prop :=
  Forall2
    (fun a p => (p = 1 /\ exists q, a = Fin q) \/ (p = 0 /\ a = NInf))
    acoes permissao.

(** The customers on the routes are those marked visited, each one once. *)
Definition cobertura (visitados : list bool) (rs : list Rota.t) : Prop :=
  NoDup (clientes rs) /\
  forall c, c ∈ clientes rs <-> c <> O /\ visitados !! c = Some true.

(** One-step Q-learning on the entry [(s, a)] of a table, for a leg of
    length [distancia] and a discounted bootstrap value [futuro]: the entry
    gains the learning rate, taken at the count of visits of [(s, a)], times
    the temporal-difference error, which is the reward of the leg plus
    [futuro] less the entry; no other entry changes. *)
Definition atualiza_um (ambiente : Ambiente) (alvo alvo' visitas : matriz)
    (s a : nat) (distancia futuro : Q) : Prop :=
  exists q n taxa e recompensa,
    entrada alvo s a = Some q /\
    entrada visitas s a = Some n /\
    TaxaAprendizagem n = Ok taxa /\
    Estados ambiente !! a = Some e /\
    Recompensa distancia (Estado.Demanda e) (Capacidade ambiente)
      = Ok recompensa /\
    entrada alvo' s a = Some (q + taxa * (recompensa + futuro - q))%Q /\
    forall i j, (i, j) <> (s, a) -> entrada alvo' i j = entrada alvo i j.

(** Counters that never went below 0. *)
Definition nao_negativa (M : matriz) : Prop :=
  Forall (Forall (fun x => (0 <= x)%Q)) M.

(** The tables an episode of the run starts from. *)
Definition tabelas_formadas (n : nat) (duplo : bool) (m : Memoria) : Prop :=
  quadrada n (Q1 m) /\ (duplo = true -> quadrada n (Q2 m)) /\
  quadrada n (QVisitas m) /\ nao_negativa (QVisitas m).

(** Routes over the nodes [0 .. n-1]. *)
Definition rotas_formadas (n : nat) (rs : list Rota.t) : Prop :=
  Forall
    (fun r => Rota.Consumidores r <> [] /\
              Forall (fun c => (c < n)%nat) (Rota.Consumidores r) /\
              0 <= Rota.Demanda r)
    rs.

(** An environment of the data model (a depot that asks for nothing, at
    least one customer and one vehicle, a positive capacity) in which the
    capacity is below the demand of every customer. *)
Definition ambiente_apertado (ambiente : Ambiente) : Prop :=
  (2 <= length (Estados ambiente))%nat /\
  (exists e, Estados ambiente !! O = Some e /\ Estado.Demanda e = 0) /\
  0 < Capacidade ambiente /\
  1 <= Veiculos ambiente /\
  forall k e, k <> O -> Estados ambiente !! k = Some e ->
    Capacidade ambiente < Estado.Demanda e.

(** What holds of the memory while a fixed-fleet episode builds its routes
    in an environment with [n] nodes: the depot stays marked, and once a
    customer is on a route some route is over the capacity. *)
Definition construindo (n : nat) (ambiente : Ambiente) (duplo : bool)
    (m : Memoria) : Prop :=
  tabelas_formadas n duplo m /\
  quadrada n (QElegibilidade m) /\
  length (listEstadosVisitados m) = n /\
  listEstadosVisitados m !! O = Some true /\
  rotas m <> [] /\
  rotas_formadas n (rotas m) /\
  (count_False (listEstadosVisitados m) = (n - 1)%nat \/
   Exists (fun r => Capacidade ambiente < Rota.Demanda r) (rotas m)).

(** ** Vocabulary of the route ledger *)

(** The demand of the node [c]; 0 when there is no such node. *)
Definition demanda_no (ambiente : Ambiente) (c : nat) : Z :=
  match Estados ambiente !! c with
  | Some e => Estado.Demanda e
  | None => 0
  end.

(** The demands of the nodes of [l], added up. *)
Definition demanda_servida (ambiente : Ambiente) (l : list nat) : Z :=
  foldr (fun c acc => demanda_no ambiente c + acc) 0 l.

(** The length of the leg from [s] to [a], as [AtualizaRota] measures it. *)
Definition distancia (sqrt : Q -> Q) (ambiente : Ambiente) (s a : nat) : Q :=
  match Estados ambiente !! s, Estados ambiente !! a with
  | Some e, Some e' =>
      sqrt (inject_Z ((Estado.CoordX e - Estado.CoordX e') ^ 2)
            + inject_Z ((Estado.CoordY e - Estado.CoordY e') ^ 2))%Q
  | _, _ => 0%Q
  end.

(** The legs of the node sequence [l], added up in the order of travel. *)
Definition custo_percurso (sqrt : Q -> Q) (ambiente : Ambiente)
    (l : list nat) : Q :=
  fold_left (fun acc p => (acc + distancia sqrt ambiente p.1 p.2)%Q)
    (zip l (tail l)) 0%Q.

(** A route whose ledger agrees with its node sequence: it leaves from the
    depot, its demand is that of the nodes after the first, its cost that
    of its legs. *)
Definition rota_coerente (sqrt : Q -> Q) (ambiente : Ambiente)
    (r : Rota.t) : Prop :=
  head (Rota.Consumidores r) = Some O /\
  Rota.Demanda r = demanda_servida ambiente (tail (Rota.Consumidores r)) /\
  Rota.Custo r = custo_percurso sqrt ambiente (Rota.Consumidores r).

(** While a dynamic-fleet episode builds its routes: the vehicle is the
    last route, which ends at the current state; the routes before it are
    back at the depot; and the depot is marked only while the state is the
    depot. *)
Definition em_curso (fixo : bool) (m : Memoria) : Prop :=
  fixo = false ->
  S (veiculo m) = length (rotas m) /\
  (forall k r, rotas m !! k = Some r ->
     ((k < veiculo m)%nat -> last (Rota.Consumidores r) = Some O) /\
     (k = veiculo m -> last (Rota.Consumidores r) = Some (estado m))) /\
  (listEstadosVisitados m !! O = Some true -> estado m = O).

(** The costs of the routes [rs], added up from 0 in the order of the
    list, as the end of an episode adds them. *)
Definition custo_total (rs : list Rota.t) : Q :=
  fold_left (fun acc r => (acc + Rota.Custo r)%Q) rs 0%Q.

(** A dynamic-fleet episode that can only go from the depot to the depot:
    the vehicle is the last route and carries nothing, the depot is marked
    and some customer is not. *)
Definition bloqueada (m : Memoria) : Prop :=
  S (veiculo m) = length (rotas m) /\
  (exists rota, rotas m !! veiculo m = Some rota /\ Rota.Demanda rota = 0) /\
  listEstadosVisitados m !! O = Some true /\
  count_False (listEstadosVisitados m) <> O.

(** ** Instances *)

(** A square root that is exact on the squares of integers. *)
Definition raiz (q : Q) : Q := inject_Z (Z.sqrt (Qnum q / Zpos (Qden q))).

(** Depot and two customers on a 3-4-5 triangle, one vehicle of capacity 5. *)
Definition triangulo : Ambiente :=
  {| Estados := [Estado.Build 0 0 0; Estado.Build 3 0 1; Estado.Build 3 4 1];
     Capacidade := 5;
     Veiculos := 1 |}.

(** The same triangle with demands 2 and 3 and a capacity of 1. *)
Definition triangulo_apertado : Ambiente :=
  {| Estados := [Estado.Build 0 0 0; Estado.Build 3 0 2; Estado.Build 3 4 3];
     Capacidade := 1;
     Veiculos := 1 |}.

(** Depot and three customers, for the fixed-fleet bootstrap value. *)
Definition quadrilatero : Ambiente :=
  {| Estados := [Estado.Build 0 0 0; Estado.Build 3 0 1; Estado.Build 3 4 1;
                 Estado.Build 0 4 1];
     Capacidade := 5;
     Veiculos := 1 |}.

(** The triangle with a capacity of 1: one customer to a route. *)
Definition triangulo_justo : Ambiente :=
  {| Estados := [Estado.Build 0 0 0; Estado.Build 3 0 1; Estado.Build 3 4 1];
     Capacidade := 1;
     Veiculos := 2 |}.

(** An environment with no node at all. *)
Definition ambiente_vazio : Ambiente :=
  {| Estados := []; Capacidade := 5; Veiculos := 1 |}.

(** The triangle with no vehicle. *)
Definition triangulo_sem_frota : Ambiente :=
  {| Estados := [Estado.Build 0 0 0; Estado.Build 3 0 1; Estado.Build 3 4 1];
     Capacidade := 5;
     Veiculos := 0 |}.

(** Always exploit, with one-step updates. *)
Definition guloso : Parametros :=
  {| lambd := 0; taxaDesconto := 1 # 10; epsilon := 1 |}.

(** Always explore, with traces. *)
Definition explorador : Parametros :=
  {| lambd := 1 # 2; taxaDesconto := 1 # 10; epsilon := 0 |}.

(** Every draw is 1/2; the coin alternates. *)
Definition meio : Acaso :=
  {| uniforme := fun _ => 1 # 2;
     amostra := fun _ => 1 # 2;
     moeda := Nat.even |}.

(** The memory of a one-table run on four nodes before its first
    episode. *)
Definition memoria4 : Memoria :=
  Build_Memoria (CriaMatriz 4) [] (CriaMatriz 4) [] [] [] O O O O.

(** The memory at the start of the second episode of [Q_Learning_VeiculosFixos]
    on the quadrilateral, always exploiting: the first episode took the
    route 0, 1, 2, 3, 0 and left its values in the table. *)
Definition memoria4_segundo : res Memoria :=
  let* (m1, _) :=
    episodio raiz quadrilatero guloso meio false true 10 memoria4 in
  inicio quadrilatero true m1.

(** The memory of a run on three nodes before its first episode. *)
Definition memoria3 : Memoria :=
  Build_Memoria (CriaMatriz 3) (CriaMatriz 3) (CriaMatriz 3) [] [] [] O O O O.

(** The memory at the start of the first dynamic-fleet episode on three
    nodes. *)
Definition memoria3_inicio : Memoria :=
  Build_Memoria (CriaMatriz 3) (CriaMatriz 3) (CriaMatriz 3) (CriaMatriz 3)
    [true; false; false] [rota_nova] O O O O.

(** * Properties *)

(** ** Results *)

Lemma bind_Ok {A B : Type} (m : res A) (k : A -> res B) (b : B) :
  bind m k = Ok b -> exists a, m = Ok a /\ k a = Ok b.
Proof. destruct m; simpl; intros H; try discriminate. eauto. Qed.

(** Splits a successful [let*] into its two halves, as often as it applies. *)
Ltac desfaz H :=
  let a := fresh "x" in
  let E := fresh "E" in
  apply bind_Ok in H; destruct H as (a & E & H).

Ltac abre H :=
  repeat
    (match type of H with
     | bind _ _ = Ok _ => desfaz H
     | match ?p with (_, _) => _ end = Ok _ => destruct p
     end; cbn beta iota in H).

Lemma get_Ok {A : Type} (l : list A) (i : nat) (x : A) :
  get l i = Ok x <-> l !! i = Some x.
Proof.
  unfold get. destruct (l !! i); split; intros H; inversion H; reflexivity.
Qed.

Lemma get_menor {A : Type} (l : list A) (i : nat) :
  (i < length l)%nat -> exists x, get l i = Ok x /\ l !! i = Some x.
Proof.
  intros H. destruct (lookup_lt_is_Some_2 l i H) as [x Hx].
  exists x. split; [apply get_Ok|]; exact Hx.
Qed.

Lemma set_Ok {A : Type} (l l' : list A) (i : nat) (x : A) :
  set l i x = Ok l' <-> (i < length l)%nat /\ l' = <[i := x]> l.
Proof.
  unfold set. destruct (decide (i < length l)%nat); split.
  - intros H. inversion H. auto.
  - intros [_ ->]. reflexivity.
  - discriminate.
  - intros [H _]. contradiction.
Qed.

Lemma set_menor {A : Type} (l : list A) (i : nat) (x : A) :
  (i < length l)%nat -> set l i x = Ok (<[i := x]> l).
Proof. intros H. apply set_Ok. auto. Qed.

(** ** The order of the values *)

Lemma Qlt_bool_iff (x y : Q) : Qlt_bool x y = true <-> (x < y)%Q.
Proof.
  unfold Qlt_bool. rewrite negb_true_iff. split.
  - intros H. apply Qnot_le_lt. intros Hle.
    apply Qle_bool_iff in Hle. congruence.
  - intros H. destruct (Qle_bool y x) eqn:E; [|reflexivity].
    apply Qle_bool_iff in E. apply Qlt_not_le in H. contradiction.
Qed.

Lemma Qle_bool_false (x y : Q) : Qle_bool x y = false <-> (y < x)%Q.
Proof.
  rewrite <- Qlt_bool_iff. unfold Qlt_bool. symmetry. apply negb_true_iff.
Qed.

Lemma Qlt_bool_false (x y : Q) : Qlt_bool x y = false <-> (y <= x)%Q.
Proof.
  unfold Qlt_bool. rewrite negb_false_iff. apply Qle_bool_iff.
Qed.

Lemma val_eqb_refl (x : val) : val_eqb x x = true.
Proof. destruct x; simpl; auto. apply Qeq_bool_refl. Qed.

Lemma val_eqb_sym (x y : val) : val_eqb x y = val_eqb y x.
Proof. destruct x, y; simpl; auto. apply Qeq_bool_comm. Qed.

Lemma val_ltb_irrefl (x : val) : val_ltb x x = false.
Proof. destruct x; simpl; auto. apply Qlt_bool_false. apply Qle_refl. Qed.

(** Two values are equal, or one is below the other. *)
Lemma val_tricotomia (x y : val) :
  val_ltb x y = false -> val_eqb x y = false -> val_ltb y x = true.
Proof.
  destruct x as [|a|], y as [|b|]; simpl; try congruence.
  intros H1 H2. apply Qlt_bool_false in H1. apply Qlt_bool_iff.
  apply Qeq_bool_neq in H2. apply Qle_lt_or_eq in H1.
  destruct H1 as [H1|H1]; [exact H1|]. symmetry in H1. contradiction.
Qed.

Lemma val_eqb_ltb (x y z : val) :
  val_eqb x y = true -> val_ltb x z = val_ltb y z.
Proof.
  destruct x as [|a|], y as [|b|], z as [|c|]; simpl; try congruence.
  intros H. apply Qeq_bool_iff in H. unfold Qlt_bool. now rewrite H.
Qed.

Lemma val_eqb_ltb_r (x y z : val) :
  val_eqb x y = true -> val_ltb z x = val_ltb z y.
Proof.
  destruct x as [|a|], y as [|b|], z as [|c|]; simpl; try congruence.
  intros H. apply Qeq_bool_iff in H. unfold Qlt_bool. now rewrite H.
Qed.

(** [x <= y <= z] in the form the running maximum needs. *)
Lemma val_nao_menor_trans (x y z : val) :
  val_ltb y x = false -> val_ltb z y = false -> val_ltb z x = false.
Proof.
  destruct x as [|a|], y as [|b|], z as [|c|]; simpl; try congruence.
  rewrite !Qlt_bool_false. intros H1 H2. eapply Qle_trans; eassumption.
Qed.

Lemma val_ltb_nao_menor (x y : val) :
  val_ltb x y = true -> val_ltb y x = false.
Proof.
  destruct x as [|a|], y as [|b|]; simpl; try congruence.
  rewrite Qlt_bool_iff, Qlt_bool_false. apply Qlt_le_weak.
Qed.

(** ** [index] and [max] *)

Lemma index_Ok (x : val) (l : list val) (i : nat) :
  index x l = Ok i ->
  (exists y, l !! i = Some y /\ val_eqb y x = true) /\
  (forall k y, (k < i)%nat -> l !! k = Some y -> val_eqb y x = false).
Proof.
  revert i. induction l as [|z l IH]; intros i H; simpl in H.
  - discriminate.
  - destruct (val_eqb z x) eqn:E.
    + inversion H; subst. split; [exists z; auto|]. intros k y Hk. lia.
    + desfaz H. inversion H; subst. destruct (IH _ E0) as [(y & Hy & Hyx) Hmin].
      split; [exists y; auto|].
      intros [|k] w Hk Hw; simpl in Hw.
      * inversion Hw; subst. exact E.
      * apply (Hmin k); [lia|exact Hw].
Qed.

Lemma index_existe (x : val) (l : list val) (k : nat) (y : val) :
  l !! k = Some y -> val_eqb y x = true -> exists i, index x l = Ok i.
Proof.
  revert k. induction l as [|z l IH]; intros k Hk Hy; [discriminate|].
  simpl. destruct (val_eqb z x) eqn:E; [eauto|].
  destruct k as [|k]; simpl in Hk.
  - inversion Hk; subst. congruence.
  - destruct (IH _ Hk Hy) as [i Hi]. rewrite Hi. simpl. eauto.
Qed.

Lemma maximo_corrente (l : list val) (m : val) :
  let r := fold_left (fun m x => if val_ltb m x then x else m) l m in
  (r = m \/ r ∈ l) /\ val_ltb r m = false /\
  (forall y, y ∈ l -> val_ltb r y = false).
Proof.
  revert m. induction l as [|x l IH]; intros m; simpl.
  - split; [auto|]. split; [apply val_ltb_irrefl|].
    intros y Hy. inversion Hy.
  - destruct (val_ltb m x) eqn:E.
    + destruct (IH x) as (Hin & Hx & Hall). split; [|split].
      * right. destruct Hin as [->|Hin]; [left|right; exact Hin].
      * eapply val_nao_menor_trans; [|exact Hx].
        apply val_ltb_nao_menor. exact E.
      * intros y Hy. inversion Hy; subst; auto.
    + destruct (IH m) as (Hin & Hm & Hall). split; [|split].
      * destruct Hin as [->|Hin]; [auto|]. right. right. exact Hin.
      * exact Hm.
      * intros y Hy. inversion Hy; subst; auto.
        eapply val_nao_menor_trans; [exact E|exact Hm].
Qed.

Lemma max_val_Ok (l : list val) (m : val) :
  max_val l = Ok m -> m ∈ l /\ forall y, y ∈ l -> val_ltb m y = false.
Proof.
  destruct l as [|x l]; simpl; intros H; [discriminate|].
  inversion H; subst. destruct (maximo_corrente l x) as (Hin & Hx & Hall).
  split.
  - destruct Hin as [->|Hin]; [left|right; exact Hin].
  - intros y Hy. inversion Hy; subst; auto.
Qed.

Lemma max_val_existe (l : list val) :
  l <> [] -> exists m, max_val l = Ok m.
Proof. destruct l; [congruence|]. simpl. eauto. Qed.

(** [MaxQ] gives the first of the greatest entries. *)
Lemma MaxQ_Ok (l : list val) (j : nat) :
  MaxQ l = Ok j -> primeiro_maximo l j.
Proof.
  unfold MaxQ. intros H. desfaz H. apply max_val_Ok in E as [Hin Hmax].
  apply index_Ok in H as [(y & Hy & Hyx) Hmin].
  exists y. split; [exact Hy|]. split.
  - intros k z Hz. rewrite (val_eqb_ltb _ _ _ Hyx). apply Hmax.
    eapply list_elem_of_lookup_2. exact Hz.
  - intros k z Hk Hz. rewrite (val_eqb_ltb_r _ _ _ Hyx).
    apply val_tricotomia.
    + apply Hmax. eapply list_elem_of_lookup_2. exact Hz.
    + rewrite val_eqb_sym. exact (Hmin k z Hk Hz).
Qed.

Lemma MaxQ_existe (l : list val) : l <> [] -> exists j, MaxQ l = Ok j.
Proof.
  intros H. destruct (max_val_existe l H) as [m Hm].
  unfold MaxQ. rewrite Hm. simpl.
  apply max_val_Ok in Hm as [Hin _].
  apply list_elem_of_lookup_1 in Hin as [k Hk].
  eapply index_existe; [exact Hk|apply val_eqb_refl].
Qed.

(** ** [ValidaAcoes] *)

Lemma ValidaAcoes_de_Ok (i : nat) (ap : list val) (vis : list bool) (dem : Z)
    (amb : Ambiente) (dyn : bool) (acoes : list val) (perm : list Z) :
  ValidaAcoes_de i ap vis dem amb dyn = Ok (acoes, perm) ->
  length acoes = length ap /\ length perm = length ap /\
  forall k x, ap !! k = Some x ->
    exists b, acao_invalida vis dem amb dyn (i + k) = Some b /\
      acoes !! k = Some (if b then NInf else x) /\
      perm !! k = Some (if b then 0 else 1).
Proof.
  revert i acoes perm. induction ap as [|y ap IH]; intros i acoes perm H.
  - simpl in H. inversion H; subst. repeat split; auto.
    intros k x Hk. discriminate.
  - simpl in H. abre H. apply get_Ok in E.
    destruct (IH _ _ _ E1) as (Hl1 & Hl2 & Hk).
    assert (Hb : acao_invalida vis dem amb dyn i = Some x0).
    { unfold acao_invalida. rewrite E. destruct x.
      - inversion E0; reflexivity.
      - desfaz E0. apply get_Ok in E2. rewrite E2. inversion E0; reflexivity. }
    assert (Hres : acoes = (if x0 then NInf else y) :: l /\
                   perm = (if x0 then 0 else 1) :: l0).
    { destruct x0; inversion H; auto. }
    destruct Hres as [-> ->]. simpl. rewrite Hl1, Hl2.
    repeat split; auto.
    intros [|k] z Hz; simpl in Hz.
    + inversion Hz; subst. exists x0. rewrite Nat.add_0_r. auto.
    + destruct (Hk k z Hz) as (b & Hb1 & Hb2 & Hb3).
      exists b. replace (i + S k)%nat with (S i + k)%nat by lia. auto.
Qed.

Lemma ValidaAcoes_de_existe (i : nat) (ap : list val) (vis : list bool)
    (dem : Z) (amb : Ambiente) (dyn : bool) :
  (i + length ap <= length vis)%nat ->
  (i + length ap <= length (Estados amb))%nat ->
  exists acoes perm, ValidaAcoes_de i ap vis dem amb dyn = Ok (acoes, perm).
Proof.
  revert i. induction ap as [|y ap IH]; intros i H1 H2; simpl in *.
  - eauto.
  - destruct (get_menor vis i) as (b & Hb & _); [lia|].
    destruct (get_menor (Estados amb) i) as (e & He & _); [lia|].
    destruct (IH (S i)) as (acoes & perm & Hr); [lia|lia|].
    rewrite Hb. simpl. destruct b; simpl; [|rewrite He; simpl];
      rewrite Hr; simpl; [eauto|].
    destruct (_ && _); eauto.
Qed.

(** C5. On vectors as long as the row of values, [ValidaAcoes] returns two
    vectors of that length; at a node that is visited, or whose demand would
    take a dynamic-fleet route over the capacity, the value is [-inf] and the
    mark 0; elsewhere the value is the one given and the mark 1.  With a
    fixed fleet the demand is not looked at. *)
Theorem ValidaAcoes_correta (acoesPossiveis : list val)
    (listEstadosVisitados : list bool) (demandaRotaAcumulada : Z)
    (ambiente : Ambiente) (VeiculosDinamicos : bool) :
  (length acoesPossiveis <= length listEstadosVisitados)%nat ->
  (length acoesPossiveis <= length (Estados ambiente))%nat ->
  exists acoes permissao,
    ValidaAcoes acoesPossiveis listEstadosVisitados demandaRotaAcumulada
      ambiente VeiculosDinamicos = Ok (acoes, permissao) /\
    length acoes = length acoesPossiveis /\
    length permissao = length acoesPossiveis /\
    forall i x visitado e,
      acoesPossiveis !! i = Some x ->
      listEstadosVisitados !! i = Some visitado ->
      Estados ambiente !! i = Some e ->
      if visitado
         || (VeiculosDinamicos
             && (Capacidade ambiente
                 <? demandaRotaAcumulada + Estado.Demanda e))
      then acoes !! i = Some NInf /\ permissao !! i = Some 0
      else acoes !! i = Some x /\ permissao !! i = Some 1.
Proof.
  intros H1 H2.
  destruct (ValidaAcoes_de_existe O acoesPossiveis listEstadosVisitados
              demandaRotaAcumulada ambiente VeiculosDinamicos)
    as (acoes & permissao & Hr); [simpl; lia|simpl; lia|].
  exists acoes, permissao. split; [exact Hr|].
  apply ValidaAcoes_de_Ok in Hr as (Hl1 & Hl2 & Hk).
  repeat split; auto.
  intros i x visitado e Hx Hv He.
  destruct (Hk i x Hx) as (b & Hb & Ha & Hp). simpl in Hb.
  unfold acao_invalida in Hb. rewrite Hv, He in Hb.
  destruct visitado; simpl.
  - inversion Hb; subst. auto.
  - inversion Hb; subst. rewrite andb_comm.
    destruct (_ && _); auto.
Qed.

Lemma ValidaAcoes_mascarada (linha : list Q) (vis : list bool) (dem : Z)
    (amb : Ambiente) (dyn : bool) (acoes : list val) (perm : list Z) :
  ValidaAcoes (Fin <$> linha) vis dem amb dyn = Ok (acoes, perm) ->
  mascarada acoes perm.
Proof.
  intros H. apply ValidaAcoes_de_Ok in H as (Hl1 & Hl2 & Hk).
  apply Forall2_same_length_lookup_2; [congruence|].
  intros i a p Ha Hp.
  destruct (lookup_lt_is_Some_2 (Fin <$> linha) i) as [x Hx].
  { rewrite <- Hl1. eapply lookup_lt_Some. exact Ha. }
  destruct (Hk i x Hx) as (b & _ & Ha' & Hp').
  rewrite Ha in Ha'. rewrite Hp in Hp'. inversion Ha'. inversion Hp'.
  destruct b; [right; auto|left]. split; [reflexivity|].
  rewrite list_lookup_fmap in Hx. destruct (linha !! i) as [q|]; [|discriminate].
  inversion Hx. eauto.
Qed.

(** ** [Politica] *)

Lemma probabilidades_Ok (perm : list Z) (s : Z) (ps : list Q) :
  probabilidades perm s = Ok ps ->
  ps = (fun x => (inject_Z x / inject_Z s)%Q) <$> perm.
Proof.
  revert ps. induction perm as [|x perm IH]; intros ps H; simpl in H.
  - inversion H. reflexivity.
  - destruct (s =? 0); [discriminate|]. desfaz H. inversion H; subst.
    simpl. f_equal. apply IH. exact E.
Qed.

(** The position found among the cumulative sums holds a positive weight. *)
Lemma searchsorted_positivo (ps : list Q) (acc r : Q) :
  (acc <= r)%Q ->
  (searchsorted (cumsum acc ps) r < length ps)%nat ->
  exists p, ps !! searchsorted (cumsum acc ps) r = Some p /\ (0 < p)%Q.
Proof.
  revert acc. induction ps as [|x ps IH]; intros acc Hacc Hk; simpl in *.
  - lia.
  - destruct (Qle_bool (acc + x) r) eqn:E.
    + apply Qle_bool_iff in E. simpl. apply IH; [exact E|lia].
    + exists x. split; [reflexivity|].
      assert (Hn : ~ (acc + x <= r)%Q).
      { intros Hle. apply Qle_bool_iff in Hle. congruence. }
      apply Qnot_le_lt in Hn. lra.
Qed.

Lemma random_choice_Ok (r : Q) (a : list val) (p : list Q) (v : val) :
  random_choice r a p = Ok v ->
  length p = length a /\ a !! searchsorted (cumsum 0 p) r = Some v.
Proof.
  unfold random_choice. intros H.
  destruct (decide (length a = O)); [discriminate|].
  destruct (decide (length p = length a)); [|discriminate].
  destruct (existsb _ p); [discriminate|].
  destruct (Qeq_bool _ 1); [|discriminate].
  apply get_Ok in H. auto.
Qed.

Lemma mascarada_finito (acoes : list val) (perm : list Z) (k : nat) (q : Q) :
  mascarada acoes perm -> acoes !! k = Some (Fin q) -> perm !! k = Some 1.
Proof.
  intros Hm Hk. destruct (Forall2_lookup_l _ _ _ _ _ Hm Hk) as (p & Hp & HR).
  destruct HR as [[-> _]|[_ HR]]; [exact Hp|discriminate].
Qed.

Lemma mascarada_um (acoes : list val) (perm : list Z) (k : nat) (x : Z) :
  mascarada acoes perm -> perm !! k = Some x -> x <> 0 ->
  x = 1 /\ exists q, acoes !! k = Some (Fin q).
Proof.
  intros Hm Hk Hx. destruct (Forall2_lookup_r _ _ _ _ _ Hm Hk) as (a & Ha & HR).
  destruct HR as [[-> (q & ->)]|[-> _]]; [eauto|congruence].
Qed.

Lemma mascarada_valores (acoes : list val) (perm : list Z) (k : nat) (x : val) :
  mascarada acoes perm -> acoes !! k = Some x ->
  (x = NInf /\ perm !! k = Some 0) \/ (exists q, x = Fin q /\ perm !! k = Some 1).
Proof.
  intros Hm Hk. destruct (Forall2_lookup_l _ _ _ _ _ Hm Hk) as (p & Hp & HR).
  destruct HR as [[-> (q & ->)]|[-> ->]]; eauto.
Qed.

(** What [Politica] can return on the output of [ValidaAcoes]: a legal
    action, or the position 0 when it exploits and nothing is legal. *)
Lemma Politica_escolha (u r eps : Q) (acoes : list val) (perm : list Z)
    (a : nat) :
  mascarada acoes perm -> (0 <= r)%Q ->
  Politica u r eps acoes perm = Ok a ->
  (perm !! a = Some 1 /\ exists q, acoes !! a = Some (Fin q)) \/
  (a = O /\ Forall (fun x => x = NInf) acoes /\ acoes <> [] /\
   Qlt_bool eps u = false).
Proof.
  intros Hm Hr H. unfold Politica in H.
  destruct (Qlt_bool eps u) eqn:Hu.
  - left. abre H. apply probabilidades_Ok in E. subst x.
    apply random_choice_Ok in E0 as [Hlen Hk].
    match type of Hlen with length ?l = _ =>
      destruct (searchsorted_positivo l 0 r Hr) as (p & Hp & Hpos)
    end.
    { rewrite Hlen. eapply lookup_lt_Some. exact Hk. }
    rewrite list_lookup_fmap in Hp.
    destruct (perm !! _) as [z|] eqn:Hz; [|discriminate].
    inversion Hp; subst p. clear Hp.
    destruct (mascarada_um _ _ _ _ Hm Hz) as [_ (q & Hq)].
    { intros ->. unfold Qdiv in Hpos. rewrite Qmult_0_l in Hpos.
      apply Qlt_irrefl in Hpos. exact Hpos. }
    rewrite Hk in Hq. inversion Hq; subst x0.
    apply index_Ok in H as [(y & Hy & Hyq) _].
    destruct y as [|q'|]; try discriminate.
    split; [|eauto]. eapply mascarada_finito; eassumption.
  - apply MaxQ_Ok in H as (x & Hx & Hmax & Hmin).
    destruct (mascarada_valores _ _ _ _ Hm Hx) as [[-> Hp]|(q & -> & Hp)].
    + right. assert (Hall : Forall (fun y => y = NInf) acoes).
      { apply Forall_lookup. intros k y Hy. specialize (Hmax k y Hy).
        destruct y; simpl in Hmax; congruence. }
      repeat split; auto.
      * destruct a as [|a]; [reflexivity|].
        destruct (lookup_lt_is_Some_2 acoes O) as [y Hy].
        { apply lookup_lt_Some in Hx. lia. }
        assert (y = NInf) by (eapply Forall_lookup_1 in Hall; eauto).
        subst y. specialize (Hmin O NInf ltac:(lia) Hy). discriminate.
      * intros ->. discriminate.
    + left. eauto.
Qed.

Lemma soma_zeros (perm : list Z) :
  Forall (fun p => p = 0) perm -> soma perm = 0.
Proof.
  unfold soma. induction 1 as [|p perm Hp _ IH]; [reflexivity|].
  subst p. simpl. exact IH.
Qed.

Lemma MaxQ_todas_NInf (acoes : list val) :
  acoes <> [] -> Forall (fun x => x = NInf) acoes -> MaxQ acoes = Ok O.
Proof.
  intros Hne Hall. destruct (MaxQ_existe acoes Hne) as [j Hj].
  rewrite Hj. f_equal. apply MaxQ_Ok in Hj as (x & Hx & _ & Hmin).
  destruct j as [|j]; [reflexivity|].
  destruct (lookup_lt_is_Some_2 acoes O) as [y Hy].
  { apply lookup_lt_Some in Hx. lia. }
  assert (y = NInf) by (eapply Forall_lookup_1 in Hall; eauto).
  assert (x = NInf) by (eapply Forall_lookup_1 in Hall; eauto).
  subst. specialize (Hmin O NInf ltac:(lia) Hy). discriminate.
Qed.

(** C10, as the code has it.  With no legal action the exploring branch
    fails: on the division by the sum of the marks, or, when the vectors are
    empty, inside [numpy.random.choice].  The exploiting branch does not
    look at the marks: it returns the position of the first greatest value,
    which is 0 when every value is [-inf], and fails on an empty vector
    only. *)
Theorem Politica_sem_acao_valida (u r epsilon : Q) (acoes : list val)
    (permissao : list Z) :
  Forall (fun p => p = 0) permissao ->
  ((epsilon < u)%Q ->
   Politica u r epsilon acoes permissao =
   Err (match permissao with [] => ValueError | _ => ZeroDivisionError end)) /\
  ((u <= epsilon)%Q ->
   Politica u r epsilon acoes permissao = MaxQ acoes /\
   (acoes = [] -> Politica u r epsilon acoes permissao = Err ValueError) /\
   (acoes <> [] ->
    exists j, Politica u r epsilon acoes permissao = Ok j /\
              primeiro_maximo acoes j) /\
   (acoes <> [] -> Forall (fun x => x = NInf) acoes ->
    Politica u r epsilon acoes permissao = Ok O)).
Proof.
  intros Hz. split; intros Hu; unfold Politica.
  - apply Qlt_bool_iff in Hu. rewrite Hu. rewrite (soma_zeros _ Hz).
    destruct permissao as [|p permissao]; [|reflexivity].
    simpl. unfold random_choice.
    destruct (decide (length acoes = O)); [reflexivity|].
    destruct (decide (length (@nil Q) = length acoes)) as [E|E];
      [simpl in E; congruence|reflexivity].
  - apply Qlt_bool_false in Hu. rewrite Hu. fold (MaxQ acoes).
    split; [reflexivity|]. split; [|split].
    + intros ->. reflexivity.
    + intros Hne. destruct (MaxQ_existe acoes Hne) as [j Hj].
      exists j. split; [exact Hj|]. apply MaxQ_Ok. exact Hj.
    + apply MaxQ_todas_NInf.
Qed.

(** C2 at work.  At the first step of a run every table entry is 0; with
    two customers legal, whatever [numpy.random.choice] draws, the value it
    returns is 0 and [acoes.index] maps it to the customer 1: the legal
    customer 2 is never explored. *)
Theorem Politica_empate_explora_o_primeiro (r : Q) :
  (0 <= r)%Q -> (r < 1)%Q ->
  Politica (1 # 2) r 0 [NInf; Fin 0; Fin 0] [0; 1; 1] = Ok 1%nat.
Proof.
  intros H0 H1. unfold Politica. simpl. unfold random_choice. simpl.
  repeat match goal with
  | |- context [Qle_bool ?c r] =>
      let E := fresh "E" in
      first
        [ assert (E : Qle_bool c r = true)
            by (apply Qle_bool_iff; eapply Qle_trans; [|exact H0];
                vm_compute; discriminate)
        | assert (E : Qle_bool c r = false)
            by (apply Qle_bool_false; eapply Qlt_le_trans; [exact H1|];
                vm_compute; discriminate)
        | destruct (Qle_bool c r) eqn:E ];
      try rewrite E; clear E
  end; reflexivity.
Qed.

(** ** [Recompensa] *)

(** C9. When the demand of the next node is not the capacity the reward is
    [- distancia/(capacidadeVeiculo - demanda)], the number that times
    [capacidadeVeiculo - demanda] gives [- distancia]; when it is the
    capacity, the division by zero is raised. *)
Theorem Recompensa_correta (distancia : Q) (demanda capacidadeVeiculo : Z) :
  (demanda <> capacidadeVeiculo ->
   Recompensa distancia demanda capacidadeVeiculo =
     Ok (- distancia / inject_Z (capacidadeVeiculo - demanda))%Q /\
   (- distancia / inject_Z (capacidadeVeiculo - demanda)
    * inject_Z (capacidadeVeiculo - demanda) == - distancia)%Q) /\
  (demanda = capacidadeVeiculo ->
   Recompensa distancia demanda capacidadeVeiculo = Err ZeroDivisionError).
Proof.
  unfold Recompensa. split; intros H.
  - destruct (capacidadeVeiculo - demanda =? 0) eqn:E.
    + apply Z.eqb_eq in E. lia.
    + split; [reflexivity|]. apply Z.eqb_neq in E.
      field. intros Hq. unfold Qeq in Hq. simpl in Hq. lia.
  - subst. rewrite Z.sub_diag. reflexivity.
Qed.

(** ** Tables *)

Lemma get2_Ok (M : matriz) (i j : nat) (x : Q) :
  get2 M i j = Ok x <-> entrada M i j = Some x.
Proof.
  unfold get2, entrada, get. destruct (M !! i) as [linha|]; simpl.
  - destruct (linha !! j); split; intros H; inversion H; reflexivity.
  - split; discriminate.
Qed.

Lemma set2_Ok (M M' : matriz) (i j : nat) (x : Q) :
  set2 M i j x = Ok M' ->
  exists linha, M !! i = Some linha /\ (j < length linha)%nat /\
    M' = <[i := <[j := x]> linha]> M.
Proof.
  unfold set2. intros H. abre H.
  match goal with
  | E1 : get M i = Ok ?l, E2 : set ?l j x = Ok _ |- _ =>
      apply get_Ok in E1; apply set_Ok in E2 as [Hj ->];
      apply set_Ok in H as [_ ->]; exists l; auto
  end.
Qed.

Lemma entrada_insert_eq (M : matriz) (linha : list Q) (i j : nat) (x : Q) :
  M !! i = Some linha -> (j < length linha)%nat ->
  entrada (<[i := <[j := x]> linha]> M) i j = Some x.
Proof.
  intros Hi Hj. unfold entrada.
  rewrite list_lookup_insert_eq by (eapply lookup_lt_Some; exact Hi).
  apply list_lookup_insert_eq. exact Hj.
Qed.

Lemma entrada_insert_ne (M : matriz) (linha : list Q) (i j i' j' : nat)
    (x : Q) :
  M !! i = Some linha -> (i', j') <> (i, j) ->
  entrada (<[i := <[j := x]> linha]> M) i' j' = entrada M i' j'.
Proof.
  intros Hi Hne. unfold entrada. destruct (decide (i' = i)) as [->|Hii].
  - rewrite list_lookup_insert_eq by (eapply lookup_lt_Some; exact Hi).
    rewrite Hi. apply list_lookup_insert_ne. congruence.
  - rewrite list_lookup_insert_ne by congruence. reflexivity.
Qed.

(** ** The bootstrap value *)






(** ** Totality of the helpers *)

Lemma quadrada_set2 (n : nat) (M : matriz) (i j : nat) (x : Q) :
  quadrada n M -> (i < n)%nat -> (j < n)%nat ->
  exists M', set2 M i j x = Ok M' /\ quadrada n M' /\
    entrada M' i j = Some x /\
    (forall i' j', (i', j') <> (i, j) -> entrada M' i' j' = entrada M i' j').
Proof.
  intros [Hlen Hrows] Hi Hj.
  destruct (lookup_lt_is_Some_2 M i) as [linha Hl]; [lia|].
  assert (Hll : length linha = n)
    by (eapply Forall_lookup_1 in Hrows; [exact Hrows|exact Hl]).
  exists (<[i := <[j := x]> linha]> M).
  unfold set2. apply get_Ok in Hl as Hg. rewrite Hg. simpl.
  rewrite set_menor by lia. simpl. rewrite set_menor by lia.
  split; [reflexivity|]. split; [|split].
  - split; [rewrite length_insert; exact Hlen|].
    apply Forall_insert; [exact Hrows|]. rewrite length_insert. exact Hll.
  - apply entrada_insert_eq; [exact Hl|lia].
  - intros i' j' Hne. apply entrada_insert_ne; assumption.
Qed.

Lemma quadrada_entrada (n : nat) (M : matriz) (i j : nat) :
  quadrada n M -> (i < n)%nat -> (j < n)%nat ->
  exists x, entrada M i j = Some x.
Proof.
  intros [Hlen Hrows] Hi Hj. unfold entrada.
  destruct (lookup_lt_is_Some_2 M i) as [linha Hl]; [lia|].
  rewrite Hl. apply lookup_lt_is_Some_2.
  eapply Forall_lookup_1 in Hrows; [|exact Hl]. simpl in Hrows. lia.
Qed.

Lemma nao_negativa_entrada (M : matriz) (i j : nat) (x : Q) :
  nao_negativa M -> entrada M i j = Some x -> (0 <= x)%Q.
Proof.
  unfold entrada. intros HM H.
  destruct (M !! i) as [linha|] eqn:Hl; [|discriminate].
  eapply Forall_lookup_1 in HM; [|exact Hl].
  eapply Forall_lookup_1 in HM; [exact HM|exact H].
Qed.

Lemma incrementa_existe (n : nat) (M : matriz) (i j : nat) :
  quadrada n M -> (i < n)%nat -> (j < n)%nat ->
  exists M' x, incrementa M i j = Ok M' /\ quadrada n M' /\
    entrada M i j = Some x /\ entrada M' i j = Some (x + 1)%Q /\
    (nao_negativa M -> nao_negativa M').
Proof.
  intros HM Hi Hj.
  destruct (quadrada_entrada _ _ _ _ HM Hi Hj) as [x Hx].
  unfold incrementa. apply get2_Ok in Hx as Hg. rewrite Hg. simpl.
  pose proof HM as [Hlen Hrows].
  destruct (lookup_lt_is_Some_2 M i) as [linha Hl]; [lia|].
  destruct (quadrada_set2 n M i j (x + 1)%Q HM Hi Hj) as (M' & HM' & Hq & He & _).
  exists M', x. split; [exact HM'|]. split; [exact Hq|].
  split; [exact Hx|]. split; [exact He|].
  intros Hnn. apply set2_Ok in HM' as (linha' & Hl' & _ & ->).
  apply Forall_insert; [exact Hnn|].
  pose proof (nao_negativa_entrada _ _ _ _ Hnn Hx) as Hx0.
  eapply Forall_lookup_1 in Hnn; [|exact Hl'].
  apply Forall_insert; [exact Hnn|]. lra.
Qed.

Lemma minimo_corrente (l : list Z) (y : Z) :
  let r := fold_left (fun m x => if x <? m then x else m) l y in
  r = y \/ r ∈ l.
Proof.
  revert y. induction l as [|x l IH]; intros y; simpl; [auto|].
  destruct (x <? y).
  - right. destruct (IH x) as [->|Hin]; [left|right; exact Hin].
  - destruct (IH y) as [->|Hin]; [auto|]. right. right. exact Hin.
Qed.

Lemma min_Z_elem (l : list Z) (m : Z) : min_Z l = Ok m -> m ∈ l.
Proof.
  destruct l as [|y l]; simpl; intros H; [discriminate|].
  inversion H; subst.
  destruct (minimo_corrente l y) as [->|Hin]; [left|right; exact Hin].
Qed.

Lemma index_Z_existe (x : Z) (l : list Z) :
  x ∈ l -> exists i, index_Z x l = Ok i /\ (i < length l)%nat.
Proof.
  induction l as [|y l IH]; intros H; [inversion H|].
  simpl. destruct (y =? x) eqn:E.
  - exists O. split; [reflexivity|lia].
  - inversion H; subst; [rewrite Z.eqb_refl in E; discriminate|].
    destruct IH as (i & Hi & Hlt); [assumption|].
    rewrite Hi. simpl. exists (S i). split; [reflexivity|lia].
Qed.

Lemma EscolheRota_existe (rs : list Rota.t) :
  rs <> [] -> exists v, EscolheRota rs = Ok v /\ (v < length rs)%nat.
Proof.
  intros Hne. unfold EscolheRota.
  destruct rs as [|r rs]; [congruence|].
  destruct (min_Z (map Rota.Demanda (r :: rs))) as [m| |] eqn:E;
    try (simpl in E; discriminate).
  simpl bind. apply min_Z_elem in E.
  destruct (index_Z_existe _ _ E) as (i & Hi & Hlt).
  exists i. split; [exact Hi|]. rewrite length_map in Hlt. exact Hlt.
Qed.

Lemma ultimo_existe {A : Type} (l : list A) :
  l <> [] -> exists x, ultimo l = Ok x /\ x ∈ l.
Proof.
  intros Hne. unfold ultimo.
  destruct (last l) as [x|] eqn:E.
  - exists x. split; [reflexivity|].
    apply last_Some in E as [l' ->]. apply elem_of_app. right. left.
  - apply last_None in E. contradiction.
Qed.

Lemma soma_acumulada (l : list Z) (acc : Z) :
  fold_left Z.add l acc = acc + soma l.
Proof.
  unfold soma. revert acc. induction l as [|x l IH]; intros acc; simpl.
  - lia.
  - rewrite (IH (acc + x)), (IH (0 + x)). lia.
Qed.

Lemma soma_cons (x : Z) (l : list Z) : soma (x :: l) = x + soma l.
Proof. unfold soma at 1. simpl. apply soma_acumulada. Qed.

Lemma mascarada_soma (acoes : list val) (perm : list Z) :
  mascarada acoes perm ->
  0 <= soma perm /\ (forall k, perm !! k = Some 1 -> 1 <= soma perm).
Proof.
  induction 1 as [|a p acoes perm Hp _ IH].
  - split; [reflexivity|]. intros k Hk. discriminate.
  - rewrite soma_cons. destruct IH as [IH0 IH1]. split.
    + destruct Hp as [[-> _]|[-> _]]; lia.
    + intros [|k] Hk; simpl in Hk.
      * inversion Hk; subst. lia.
      * specialize (IH1 k Hk). destruct Hp as [[-> _]|[-> _]]; lia.
Qed.

Lemma probabilidades_existe (perm : list Z) (s : Z) :
  s <> 0 ->
  probabilidades perm s = Ok ((fun x => (inject_Z x / inject_Z s)%Q) <$> perm).
Proof.
  intros Hs. induction perm as [|x perm IH]; simpl; [reflexivity|].
  apply Z.eqb_neq in Hs. rewrite Hs, IH. reflexivity.
Qed.

Lemma probabilidades_soma (perm : list Z) (s : Z) (acc : Q) :
  (fold_left Qplus ((fun x => (inject_Z x / inject_Z s)%Q) <$> perm) acc
   == acc + inject_Z (soma perm) / inject_Z s)%Q.
Proof.
  revert acc. induction perm as [|x perm IH]; intros acc; simpl.
  - unfold soma. simpl. unfold Qdiv. rewrite Qmult_0_l. ring.
  - rewrite IH, soma_cons, inject_Z_plus. unfold Qdiv. ring.
Qed.

Lemma searchsorted_menor (ps : list Q) (acc r : Q) :
  (acc <= r)%Q -> (r < fold_left Qplus ps acc)%Q ->
  (searchsorted (cumsum acc ps) r < length ps)%nat.
Proof.
  revert acc. induction ps as [|x ps IH]; intros acc Hacc Hr; simpl in *.
  - lra.
  - destruct (Qle_bool (acc + x) r) eqn:E; [|lia].
    apply Qle_bool_iff in E. specialize (IH _ E Hr). lia.
Qed.

(** On the output of [ValidaAcoes], with a legal action and a draw in
    [[0, 1)], [Politica] returns an action. *)
Lemma Politica_existe (u r eps : Q) (acoes : list val) (perm : list Z)
    (k : nat) :
  mascarada acoes perm -> perm !! k = Some 1 ->
  (0 <= r)%Q -> (r < 1)%Q ->
  exists a, Politica u r eps acoes perm = Ok a.
Proof.
  intros Hm Hk Hr0 Hr1.
  assert (Hne : acoes <> []).
  { intros ->. inversion Hm; subst. discriminate. }
  unfold Politica. destruct (Qlt_bool eps u); [|apply MaxQ_existe; exact Hne].
  destruct (mascarada_soma _ _ Hm) as [_ Hs]. specialize (Hs k Hk).
  rewrite probabilidades_existe by lia. simpl.
  set (ps := (fun x => (inject_Z x / inject_Z (soma perm))%Q) <$> perm).
  assert (Hsum : (fold_left Qplus ps 0 == 1)%Q).
  { unfold ps. rewrite probabilidades_soma. field.
    intros Hq. unfold Qeq in Hq. simpl in Hq. lia. }
  assert (Hlen : length ps = length acoes).
  { unfold ps. rewrite length_fmap. symmetry. eapply Forall2_length. exact Hm. }
  assert (Hpos : existsb (fun x => Qlt_bool x 0) ps = false).
  { apply not_true_is_false. intros Hex.
    apply existsb_exists in Hex as (x & Hx & Hneg).
    apply list_elem_of_In in Hx. unfold ps in Hx.
    apply list_elem_of_fmap in Hx as (z & -> & Hz).
    apply Qlt_bool_iff in Hneg.
    apply list_elem_of_lookup_1 in Hz as [i Hi].
    assert (0 <= z).
    { destruct (Forall2_lookup_r _ _ _ _ _ Hm Hi) as (a & _ & [[-> _]|[-> _]]);
        lia. }
    assert (Hq : (0 <= inject_Z z / inject_Z (soma perm))%Q).
    { apply Qle_shift_div_l.
      - unfold Qlt. simpl. lia.
      - rewrite Qmult_0_l. unfold Qle. simpl. lia. }
    lra. }
  unfold random_choice.
  destruct (decide (length acoes = O)) as [Hz|_].
  { destruct acoes; [congruence|discriminate]. }
  destruct (decide (length ps = length acoes)); [|contradiction].
  rewrite Hpos. apply Qeq_bool_iff in Hsum as Hb. rewrite Hb.
  assert (Hidx : (searchsorted (cumsum 0 ps) r < length acoes)%nat).
  { rewrite <- Hlen. apply searchsorted_menor; [exact Hr0|]. rewrite Hsum.
    exact Hr1. }
  destruct (get_menor _ _ Hidx) as (v & Hv & Hv').
  rewrite Hv. simpl. eapply index_existe; [exact Hv'|apply val_eqb_refl].
Qed.

(** ** One turn of the loop *)

Section Propriedades.

Variable sqrt : Q -> Q.
Variable ambiente : Ambiente.
Variable par : Parametros.
Variable acaso : Acaso.

Local Abbreviation passo' := (passo sqrt ambiente par acaso).
Local Abbreviation laco' := (laco sqrt ambiente par acaso).
Local Abbreviation alcancavel' := (alcancavel sqrt ambiente par acaso).
Local Abbreviation inicio' := (inicio ambiente).
Local Abbreviation fecha' := (fecha sqrt ambiente par acaso).
Local Abbreviation retorno' := (retorno sqrt ambiente par acaso).
Local Abbreviation episodio' := (episodio sqrt ambiente par acaso).
Local Abbreviation execucao' := (execucao sqrt ambiente par acaso).
Local Abbreviation credito' := (credito ambiente par acaso).
Local Abbreviation AtualizaRota' := (AtualizaRota sqrt ambiente).

Lemma AtualizaRota_Ok (rota rota' : Rota.t) (s a : nat) (d : Q) :
  AtualizaRota' rota s a = Ok (rota', d) ->
  exists e, Estados ambiente !! a = Some e /\
    (s < length (Estados ambiente))%nat /\
    Rota.Demanda rota' = Rota.Demanda rota + Estado.Demanda e /\
    Rota.Custo rota' = (Rota.Custo rota + d)%Q /\
    Rota.Consumidores rota' = Rota.Consumidores rota ++ [a].
Proof.
  unfold AtualizaRota. intros H. abre H.
  apply get_Ok in E, E0. inversion H; subst. simpl.
  exists x0. repeat split; auto. eapply lookup_lt_Some. exact E.
Qed.

(** Names for what a successful turn of the loop has computed. *)
Ltac nomes_passo :=
  match goal with
  | Ev : (if _ then EscolheRota _ else _) = Ok ?v,
    Es : (if _ then bind _ _ else Ok (estado _)) = Ok ?s,
    El : valores _ _ _ = Ok ?linha,
    Er : get (rotas _) _ = Ok ?rota,
    Ea : ValidaAcoes _ _ _ _ _ = Ok (?acoes, ?perm),
    Ep : Politica _ _ _ _ _ = Ok ?a,
    Eu : AtualizaRota _ _ _ _ _ = Ok (?rota', ?dist),
    Esr : set (rotas _) _ _ = Ok ?rotas',
    Esv : set (listEstadosVisitados _) _ true = Ok ?vis',
    Esa : set _ _ NInf = Ok ?acoes',
    Eie : incrementa (QElegibilidade _) _ _ = Ok ?eleg,
    Eiv : incrementa (QVisitas _) _ _ = Ok ?visitas,
    Ec : credito _ _ _ _ _ _ _ _ _ _ = Ok (?q1, ?q2, ?eleg') |- _ =>
      rename v into v_, s into s_, linha into linha_, rota into rota_,
        acoes into acoes_, perm into perm_, a into a_, rota' into rota'_,
        dist into dist_, rotas' into rotas'_, vis' into vis'_,
        acoes' into acoes'_, eleg into eleg_, visitas into visitas_,
        q1 into q1_, q2 into q2_, eleg' into eleg'_;
      rename Ev into Hv_, Es into Hs_, El into Hlinha_, Er into Hrota_,
        Ea into Hvalida_, Ep into Hpol_, Eu into Hatu_, Esr into Hsr_,
        Esv into Hsv_, Esa into Hsa_, Eie into Hie_, Eiv into Hiv_,
        Ec into Hcred_
  end.

(** What a turn of the loop does to the routes and to the visited marks:
    the action [a] it takes was legal, or is the depot; it ends the
    route [v]. *)
Lemma passo_forma (duplo fixo : bool) (m m' : Memoria) :
  passo' duplo fixo m = Ok m' ->
  exists v rota rota' a e,
    rotas m !! v = Some rota /\
    Estados ambiente !! a = Some e /\
    (fixo = false -> v = veiculo m) /\
    (a < length (listEstadosVisitados m))%nat /\
    ((0 <= amostra acaso (relogio m))%Q ->
     (listEstadosVisitados m !! a = Some false /\
      (fixo = false ->
       Rota.Demanda rota + Estado.Demanda e <= Capacidade ambiente)) \/
     a = O) /\
    Rota.Demanda rota' = Rota.Demanda rota + Estado.Demanda e /\
    Rota.Consumidores rota' = Rota.Consumidores rota ++ [a] /\
    acao m' = a /\
    rotas m' =
      (if negb fixo && bool_decide (a = O)
          && negb (bool_decide
                     (count_False (<[a := true]> (listEstadosVisitados m))
                      = O))
       then <[v := rota']> (rotas m) ++ [rota_nova]
       else <[v := rota']> (rotas m)) /\
    listEstadosVisitados m' =
      (if negb fixo && negb (bool_decide (a = O))
       then <[O := false]> (<[a := true]> (listEstadosVisitados m))
       else <[a := true]> (listEstadosVisitados m)).
Proof.
  intros H. unfold passo in H. abre H. nomes_passo.
  apply get_Ok in Hrota_.
  assert (Hlinha : exists l, linha_ = Fin <$> l).
  { unfold valores in Hlinha_.
    destruct duplo; abre Hlinha_; inversion Hlinha_; eauto. }
  destruct Hlinha as [l ->].
  pose proof (ValidaAcoes_mascarada _ _ _ _ _ _ _ Hvalida_) as Hm.
  destruct (AtualizaRota_Ok _ _ _ _ _ Hatu_) as (e & He & Hs & Hd & _ & Hc).
  apply set_Ok in Hsr_ as [Hv ->]. apply set_Ok in Hsv_ as [Ha ->].
  exists v_, rota_, rota'_, a_, e.
  split; [exact Hrota_|]. split; [exact He|].
  split; [intros ->; inversion Hv_; reflexivity|].
  split; [exact Ha|]. split.
  { intros Hr0.
    pose proof (Politica_escolha _ _ _ _ _ _ Hm Hr0 Hpol_) as Hesc.
    destruct Hesc as [[Hp (q & Hq)]|[-> _]]; [left|right; reflexivity].
    apply ValidaAcoes_de_Ok in Hvalida_ as (Hl1 & Hl2 & Hk).
    destruct (lookup_lt_is_Some_2 (Fin <$> l) a_) as [y Hy].
    { rewrite <- Hl1. eapply lookup_lt_Some. exact Hq. }
    destruct (Hk a_ y Hy) as (b & Hb & _ & Hpb). simpl in Hb.
    rewrite Hp in Hpb. destruct b; [discriminate|].
    unfold acao_invalida in Hb.
    destruct (listEstadosVisitados m !! a_) as [[|]|]; try discriminate.
    split; [reflexivity|]. intros ->. rewrite He in Hb. simpl in Hb.
    inversion Hb as [Hb']. rewrite andb_true_r in Hb'.
    apply Z.ltb_ge in Hb'. exact Hb'. }
  split; [exact Hd|]. split; [exact Hc|].
  destruct fixo; simpl.
  - inversion H; subst; simpl. auto.
  - destruct (decide (a_ <> O)) as [Hne|Heq].
    + abre H.
      match goal with E : set _ O false = Ok _ |- _ =>
        apply set_Ok in E as [_ ->] end.
      inversion H; subst; simpl.
      rewrite bool_decide_eq_false_2 by exact Hne. simpl. auto.
    + assert (a_ = O) by (destruct a_; [reflexivity|exfalso; apply Heq; lia]).
      subst a_. rewrite bool_decide_eq_true_2 by reflexivity. simpl.
      destruct (decide (count_False _ <> O)) as [Hc0|Hc0].
      * inversion H; subst; simpl.
        rewrite bool_decide_eq_false_2 by exact Hc0. simpl. auto.
      * inversion H; subst; simpl.
        rewrite bool_decide_eq_true_2; [simpl; auto|].
        destruct (count_False _); [reflexivity|exfalso; apply Hc0; lia].
Qed.

Lemma passo_rotas (duplo fixo : bool) (m m' : Memoria) :
  acaso_valido acaso ->
  passo' duplo fixo m = Ok m' ->
  exists v rota rota' a e,
    rotas m !! v = Some rota /\
    Estados ambiente !! a = Some e /\
    (fixo = false -> v = veiculo m) /\
    (a < length (listEstadosVisitados m))%nat /\
    ((listEstadosVisitados m !! a = Some false /\
      (fixo = false ->
       Rota.Demanda rota + Estado.Demanda e <= Capacidade ambiente)) \/
     a = O) /\
    Rota.Demanda rota' = Rota.Demanda rota + Estado.Demanda e /\
    Rota.Consumidores rota' = Rota.Consumidores rota ++ [a] /\
    acao m' = a /\
    rotas m' =
      (if negb fixo && bool_decide (a = O)
          && negb (bool_decide
                     (count_False (<[a := true]> (listEstadosVisitados m))
                      = O))
       then <[v := rota']> (rotas m) ++ [rota_nova]
       else <[v := rota']> (rotas m)) /\
    listEstadosVisitados m' =
      (if negb fixo && negb (bool_decide (a = O))
       then <[O := false]> (<[a := true]> (listEstadosVisitados m))
       else <[a := true]> (listEstadosVisitados m)).
Proof.
  intros Hac H.
  destruct (passo_forma _ _ _ _ H)
    as (v & rota & rota' & a & e & H1 & H2 & H3 & H4 & H5 & H6).
  exists v, rota, rota', a, e. repeat (split; [assumption|]).
  split; [|exact H6]. apply H5. apply Hac.
Qed.

(** ** The bootstrap value of a step *)

Lemma ultimo_Ok {A : Type} (l : list A) (x : A) :
  ultimo l = Ok x <-> last l = Some x.
Proof.
  unfold ultimo. destruct (last l); split; intros H; inversion H; reflexivity.
Qed.

Lemma AtualizaRota_distancia (rota rota' : Rota.t) (s a : nat) (d : Q) :
  AtualizaRota' rota s a = Ok (rota', d) -> d = distancia sqrt ambiente s a.
Proof.
  unfold AtualizaRota, distancia. intros H. abre H.
  match goal with
  | E1 : get _ s = Ok _, E2 : get _ a = Ok _ |- _ =>
      apply get_Ok in E1; apply get_Ok in E2; rewrite E1, E2
  end.
  inversion H. reflexivity.
Qed.

(** The credit assignment is [AtualizaQ] on the table the coin picks, with
    the bootstrap value read in the other one. *)
Lemma credito_AtualizaQ (duplo : bool) (m : Memoria) (rota : Rota.t)
    (s a : nat) (dist : Q) (fv : matriz -> res Q) (q1 q2 eleg' : matriz) :
  credito' duplo m rota s a dist fv = Ok (q1, q2, eleg') ->
  exists futuro,
    fv (if duplo && moeda acaso (relogio m) then Q2 m else Q1 m)
      = Ok futuro /\
    if negb duplo || moeda acaso (relogio m)
    then q2 = Q2 m /\
         AtualizaQ ambiente par (Q1 m) (QVisitas m) (QElegibilidade m) rota
           s a dist futuro = Ok (q1, eleg')
    else q1 = Q1 m /\
         AtualizaQ ambiente par (Q2 m) (QVisitas m) (QElegibilidade m) rota
           s a dist futuro = Ok (q2, eleg').
Proof.
  unfold credito. intros H.
  destruct duplo; simpl in *; [destruct (moeda acaso (relogio m))|];
    abre H; inversion H; subst; eauto.
Qed.

(** What a turn of the loop learns from: the route and the state it starts
    from, the legal actions found there, the bootstrap value read from
    them, and the update that takes it. *)
Lemma passo_aprendizagem (duplo fixo : bool) (m m' : Memoria) :
  passo' duplo fixo m = Ok m' ->
  exists v s rota rota' linha acoes permissao eleg x,
    rotas m !! v = Some rota /\
    (if fixo
     then EscolheRota (rotas m) = Ok v /\
          last (Rota.Consumidores rota) = Some s
     else v = veiculo m /\ s = estado m) /\
    rotas m' !! v = Some rota' /\
    valores duplo m s = Ok (Fin <$> linha) /\
    ValidaAcoes (Fin <$> linha) (listEstadosVisitados m) (Rota.Demanda rota)
      ambiente (negb fixo) = Ok (acoes, permissao) /\
    set acoes (acao m') NInf = Ok (<[acao m' := NInf]> acoes) /\
    ValorAcaoFutura fixo
      (if duplo && moeda acaso (relogio m) then Q2 m else Q1 m)
      (<[acao m' := NInf]> acoes) (acao m') = Ok x /\
    incrementa (QElegibilidade m) s (acao m') = Ok eleg /\
    if negb duplo || moeda acaso (relogio m)
    then Q2 m' = Q2 m /\
         AtualizaQ ambiente par (Q1 m) (QVisitas m') eleg rota' s (acao m')
           (distancia sqrt ambiente s (acao m')) (taxaDesconto par * x)
           = Ok (Q1 m', QElegibilidade m')
    else Q1 m' = Q1 m /\
         AtualizaQ ambiente par (Q2 m) (QVisitas m') eleg rota' s (acao m')
           (distancia sqrt ambiente s (acao m')) (taxaDesconto par * x)
           = Ok (Q2 m', QElegibilidade m').
Proof.
  intros H. unfold passo in H. abre H. nomes_passo.
  apply get_Ok in Hrota_.
  pose proof (AtualizaRota_distancia _ _ _ _ _ Hatu_) as Hdist.
  apply set_Ok in Hsr_ as [Hv ->].
  pose proof Hsa_ as Hsa'. apply set_Ok in Hsa' as [_ Hsa'].
  assert (Hlinha : exists l, linha_ = Fin <$> l).
  { unfold valores in Hlinha_.
    destruct duplo; abre Hlinha_; inversion Hlinha_; eauto. }
  destruct Hlinha as [l ->].
  assert (Hpart : if fixo
                  then EscolheRota (rotas m) = Ok v_ /\
                       last (Rota.Consumidores rota_) = Some s_
                  else v_ = veiculo m /\ s_ = estado m).
  { destruct fixo.
    - split; [exact Hv_|]. abre Hs_. apply ultimo_Ok in Hs_.
      match goal with E : get (rotas m) v_ = Ok ?r |- _ =>
        apply get_Ok in E; rewrite Hrota_ in E; inversion E; subst r end.
      exact Hs_.
    - inversion Hv_. inversion Hs_. auto. }
  destruct (credito_AtualizaQ _ _ _ _ _ _ _ _ _ _ Hcred_)
    as (futuro & Hfut & Hq).
  cbn [Q1 Q2 QVisitas QElegibilidade relogio] in Hfut, Hq.
  desfaz Hfut.
  match goal with E : ValorAcaoFutura _ _ _ _ = Ok ?y |- _ =>
    rename y into x_, E into Hvalor end.
  inversion Hfut; subst futuro. clear Hfut.
  assert (Hm' : Q1 m' = q1_ /\ Q2 m' = q2_ /\ QVisitas m' = visitas_ /\
                QElegibilidade m' = eleg'_ /\ acao m' = a_ /\
                rotas m' !! v_ = Some rota'_).
  { assert (Hlook : <[v_ := rota'_]> (rotas m) !! v_ = Some rota'_)
      by (apply list_lookup_insert_eq; exact Hv).
    destruct fixo.
    - inversion H; subst; simpl. auto 10.
    - destruct (decide (a_ <> O)); [abre H|destruct (decide (_ <> O))];
        inversion H; subst; simpl;
        repeat (split; [reflexivity|]); try exact Hlook.
      rewrite lookup_app_l by (rewrite length_insert; exact Hv).
      exact Hlook. }
  destruct Hm' as (-> & -> & -> & -> & -> & Hr').
  exists v_, s_, rota_, rota'_, l, acoes_, perm_, eleg_, x_.
  split; [exact Hrota_|]. split; [exact Hpart|]. split; [exact Hr'|].
  split; [exact Hlinha_|]. split; [exact Hvalida_|].
  split; [rewrite <- Hsa'; exact Hsa_|].
  split; [rewrite <- Hsa'; exact Hvalor|]. split; [exact Hie_|].
  rewrite <- Hdist. exact Hq.
Qed.


(** ** Coverage *)

Lemma clientes_app (rs1 rs2 : list Rota.t) :
  clientes (rs1 ++ rs2) = clientes rs1 ++ clientes rs2.
Proof.
  unfold clientes. rewrite fmap_app, concat_app. apply filter_app.
Qed.

Lemma clientes_cons (r : Rota.t) (rs : list Rota.t) :
  clientes (r :: rs) =
  filter (fun c => c <> O) (Rota.Consumidores r) ++ clientes rs.
Proof. unfold clientes. simpl. apply filter_app. Qed.

Lemma clientes_insert (rs : list Rota.t) (v : nat) (rota rota' : Rota.t)
    (a : nat) :
  rs !! v = Some rota ->
  Rota.Consumidores rota' = Rota.Consumidores rota ++ [a] ->
  clientes (<[v := rota']> rs) ≡ₚ
  (if decide (a = O) then [] else [a]) ++ clientes rs.
Proof.
  intros Hv Hc.
  rewrite <- (take_drop_middle rs v rota Hv) at 2.
  rewrite insert_take_drop by (eapply lookup_lt_Some; exact Hv).
  rewrite !clientes_app, !clientes_cons, Hc, filter_app.
  assert (Hf : filter (fun c => c <> O) [a]
               = if decide (a = O) then [] else [a]).
  { destruct (decide (a = O)) as [->|Hne]; [reflexivity|].
    rewrite filter_cons_True by exact Hne. reflexivity. }
  rewrite Hf.
  set (x := if decide (a = O) then [] else [a]).
  rewrite (Permutation_app_comm (filter _ (Rota.Consumidores rota)) x).
  rewrite <- !app_assoc. apply Permutation_app_swap_app.
Qed.

Lemma clientes_rota_nova (rs : list Rota.t) :
  clientes (rs ++ [rota_nova]) = clientes rs.
Proof. rewrite clientes_app. unfold clientes at 2. simpl. apply app_nil_r. Qed.

Lemma clientes_replicate (n : nat) : clientes (replicate n rota_nova) = [].
Proof.
  induction n as [|n IH]; [reflexivity|].
  simpl. rewrite clientes_cons, IH. reflexivity.
Qed.

Lemma passo_cobertura (duplo fixo : bool) (m m' : Memoria) :
  acaso_valido acaso ->
  passo' duplo fixo m = Ok m' ->
  cobertura (listEstadosVisitados m) (rotas m) ->
  cobertura (listEstadosVisitados m') (rotas m') /\
  length (listEstadosVisitados m') = length (listEstadosVisitados m).
Proof.
  intros Hac H [Hnd Hin].
  destruct (passo_rotas _ _ _ _ Hac H)
    as (v & rota & rota' & a & e & Hv & _ & _ & Ha & Hleg & _ & Hc & _
        & Hr & Hvis).
  pose proof (clientes_insert _ _ _ _ _ Hv Hc) as Hperm.
  assert (Hcl : clientes (rotas m') ≡ₚ
                (if decide (a = O) then [] else [a]) ++ clientes (rotas m)).
  { rewrite Hr.
    match goal with |- context [if ?b then _ else _] =>
      destruct b; [rewrite clientes_rota_nova|]; exact Hperm end. }
  assert (Hlook : forall c, c <> O ->
            listEstadosVisitados m' !! c =
            if decide (c = a) then Some true
            else listEstadosVisitados m !! c).
  { intros c Hc0. rewrite Hvis.
    assert (Hi : <[a := true]> (listEstadosVisitados m) !! c =
                 if decide (c = a) then Some true
                 else listEstadosVisitados m !! c).
    { destruct (decide (c = a)) as [->|Hne].
      - apply list_lookup_insert_eq. exact Ha.
      - apply list_lookup_insert_ne. congruence. }
    destruct (negb fixo && negb (bool_decide (a = O))); [|exact Hi].
    rewrite list_lookup_insert_ne by congruence. exact Hi. }
  split; [split|].
  - rewrite Hcl. destruct (decide (a = O)) as [->|Hne]; [exact Hnd|].
    simpl. apply NoDup_cons. split; [|exact Hnd].
    intros Hina. apply Hin in Hina as [_ Hina].
    destruct Hleg as [[Hf _]| ->]; congruence.
  - intros c. rewrite Hcl. split.
    + intros Hc'. apply elem_of_app in Hc' as [Hc'|Hc'].
      * destruct (decide (a = O)); [inversion Hc'|].
        apply list_elem_of_singleton in Hc'. subst c.
        split; [assumption|]. rewrite Hlook by assumption.
        rewrite decide_True by reflexivity. reflexivity.
      * apply Hin in Hc' as [Hc0 Hct]. split; [exact Hc0|].
        rewrite Hlook by exact Hc0. destruct (decide (c = a)); auto.
    + intros [Hc0 Hct]. rewrite Hlook in Hct by exact Hc0.
      apply elem_of_app. destruct (decide (c = a)) as [->|Hne].
      * left. rewrite decide_False by exact Hc0. apply list_elem_of_here.
      * right. apply Hin. auto.
  - rewrite Hvis. destruct (negb fixo && negb (bool_decide (a = O)));
      rewrite ?length_insert; reflexivity.
Qed.

Lemma laco_cobertura (duplo fixo : bool) (fuel : nat) (m m' : Memoria) :
  acaso_valido acaso ->
  laco' duplo fixo fuel m = Ok m' ->
  cobertura (listEstadosVisitados m) (rotas m) ->
  cobertura (listEstadosVisitados m') (rotas m') /\
  length (listEstadosVisitados m') = length (listEstadosVisitados m) /\
  count_False (listEstadosVisitados m') = O.
Proof.
  intros Hac. revert m. induction fuel as [|fuel IH]; intros m H Hcob;
    simpl in H; destruct (decide (count_False _ = O)) as [Hz|Hz];
    try discriminate; try (inversion H; subst; auto; fail).
  desfaz H.
  match goal with E : passo' _ _ _ = Ok ?x |- _ =>
    destruct (passo_cobertura _ _ _ _ Hac E Hcob) as [Hcob' Hlen];
    destruct (IH x H Hcob') as (Hc & Hl & Hf)
  end.
  split; [exact Hc|]. split; [congruence|exact Hf].
Qed.

Lemma count_False_zero (l : list bool) (c : nat) :
  count_False l = O -> (c < length l)%nat -> l !! c = Some true.
Proof.
  unfold count_False. revert c. induction l as [|b l IH]; intros c H Hc.
  - simpl in Hc. lia.
  - destruct b.
    + rewrite filter_cons_False in H by discriminate.
      destruct c as [|c]; [reflexivity|]. simpl in *. apply IH; [exact H|lia].
    + rewrite filter_cons_True in H by reflexivity. discriminate.
Qed.

Lemma fecha_rotas (duplo : bool) (v : nat) (m m' : Memoria) (T T' : val) :
  fecha' duplo v m T = Ok (m', T') ->
  exists rota rota' e,
    rotas m !! v = Some rota /\
    Estados ambiente !! O = Some e /\
    Rota.Demanda rota' = Rota.Demanda rota + Estado.Demanda e /\
    Rota.Consumidores rota' = Rota.Consumidores rota ++ [O] /\
    rotas m' = <[v := rota']> (rotas m) /\
    listEstadosVisitados m' = listEstadosVisitados m /\
    T' = val_mais
           (if Capacidade ambiente <? Rota.Demanda rota' then PInf else T)
           (Rota.Custo rota').
Proof.
  unfold fecha. intros H. abre H.
  match goal with
  | Er : get (rotas m) v = Ok ?rota,
    Eu : AtualizaRota _ _ _ _ _ = Ok (?rota', _),
    Es : set (rotas m) v _ = Ok _ |- _ =>
      apply get_Ok in Er;
      destruct (AtualizaRota_Ok _ _ _ _ _ Eu) as (e & He & _ & Hd & _ & Hc);
      apply set_Ok in Es as [_ ->];
      exists rota, rota', e
  end.
  inversion H; subst; simpl. repeat split; auto.
Qed.

Lemma retorno_clientes (duplo : bool) (n v : nat) (m m' : Memoria)
    (T T' : val) :
  retorno' duplo n v m T = Ok (m', T') ->
  clientes (rotas m') ≡ₚ clientes (rotas m).
Proof.
  revert v m T. induction n as [|n IH]; intros v m T H; simpl in H.
  - inversion H; subst. reflexivity.
  - abre H.
    match goal with E : fecha' _ _ _ _ = Ok (?m1, _) |- _ =>
      destruct (fecha_rotas _ _ _ _ _ _ E)
        as (rota & rota' & e & Hv & _ & _ & Hc & Hr & _);
      rewrite (IH _ _ _ H), Hr
    end.
    rewrite (clientes_insert _ _ _ _ _ Hv Hc). reflexivity.
Qed.

(** C6. When an episode of any of the four variants ends, the customers on
    its routes, depot marks left out, are the customers [1 .. N-1], each
    one once. *)
Theorem cobertura_dos_clientes (duplo fixo : bool) (fuel : nat)
    (m m' : Memoria) (distanciaTotal : val) :
  acaso_valido acaso ->
  episodio' duplo fixo fuel m = Ok (m', distanciaTotal) ->
  clientes (rotas m') ≡ₚ seq 1 (length (Estados ambiente) - 1).
Proof.
  intros Hac H. unfold episodio in H. abre H.
  match goal with
  | Ei : inicio _ _ _ = Ok ?m0, El : laco' _ _ _ _ = Ok ?m1 |- _ =>
      rename m0 into m0_, m1 into m1_, Ei into Hini, El into Hlaco
  end.
  unfold inicio in Hini. abre Hini.
  match goal with E : set _ O true = Ok _ |- _ =>
    apply set_Ok in E as [HN ->] end.
  inversion Hini; subst m0_; clear Hini.
  rewrite length_replicate in HN.
  destruct (laco_cobertura _ _ _ _ _ Hac Hlaco) as ((Hnd & Hin) & Hlen & Hcf).
  { simpl. split.
    - destruct fixo; [unfold CriaRotas; rewrite clientes_replicate|];
        apply NoDup_nil_2.
    - intros c. split.
      + intros Hc. exfalso.
        destruct fixo; [unfold CriaRotas in Hc;
                        rewrite clientes_replicate in Hc|]; inversion Hc.
      + intros [Hc0 Hc]. exfalso.
        rewrite list_lookup_insert_ne in Hc by congruence.
        apply lookup_replicate in Hc as [Hc _]. discriminate. }
  simpl in Hlen. rewrite length_insert, length_replicate in Hlen.
  assert (Hfim : clientes (rotas m1_)
                 ≡ₚ seq 1 (length (Estados ambiente) - 1)).
  { apply NoDup_Permutation; [exact Hnd|apply NoDup_seq|].
    intros c. rewrite Hin, elem_of_seq. split.
    - intros [Hc0 Hc]. apply lookup_lt_Some in Hc. lia.
    - intros Hc. split; [lia|]. apply count_False_zero; [exact Hcf|lia]. }
  destruct fixo.
  - rewrite (retorno_clientes _ _ _ _ _ _ _ H). exact Hfim.
  - inversion H; subst. exact Hfim.
Qed.

(** ** Capacity in the dynamic-fleet variants *)

Lemma laco_alcancavel (duplo fixo : bool) (fuel : nat) (m0 m m' : Memoria) :
  laco' duplo fixo fuel m = Ok m' ->
  alcancavel' duplo fixo m0 m -> alcancavel' duplo fixo m0 m'.
Proof.
  revert m. induction fuel as [|fuel IH]; intros m H Hm; simpl in H;
    destruct (decide (count_False _ = O)) as [Hz|Hz];
    try discriminate; try (inversion H; subst; exact Hm).
  desfaz H. eapply IH; [exact H|].
  eapply alcancavel_passo; eassumption.
Qed.

Lemma passo_capacidade (duplo : bool) (m m' : Memoria) :
  acaso_valido acaso ->
  (forall e, Estados ambiente !! O = Some e -> Estado.Demanda e = 0) ->
  0 <= Capacidade ambiente ->
  passo' duplo false m = Ok m' ->
  Forall (fun r => Rota.Demanda r <= Capacidade ambiente) (rotas m) ->
  Forall (fun r => Rota.Demanda r <= Capacidade ambiente) (rotas m').
Proof.
  intros Hac Hdep Hcap H Hinv.
  destruct (passo_rotas _ _ _ _ Hac H)
    as (v & rota & rota' & a & e & Hv & He & _ & _ & Hleg & Hd & _ & _
        & Hr & _).
  assert (Hrota' : Rota.Demanda rota' <= Capacidade ambiente).
  { rewrite Hd. destruct Hleg as [[_ Hle]| ->]; [auto|].
    rewrite (Hdep e He), Z.add_0_r.
    eapply Forall_lookup_1 in Hinv; [exact Hinv|exact Hv]. }
  assert (Hins : Forall (fun r => Rota.Demanda r <= Capacidade ambiente)
                   (<[v := rota']> (rotas m))).
  { apply Forall_insert; assumption. }
  rewrite Hr.
  match goal with |- context [if ?b then _ else _] => destruct b end;
    [|exact Hins].
  apply Forall_app. split; [exact Hins|].
  apply Forall_singleton. exact Hcap.
Qed.

(** C7. In the dynamic-fleet variants, when the depot asks for nothing (and
    the capacity is not negative), no route ever carries more than the
    capacity: not while the episode builds its routes, and not when it
    ends. *)
Theorem capacidade_respeitada (duplo : bool) (m m0 : Memoria) :
  acaso_valido acaso ->
  (forall e, Estados ambiente !! O = Some e -> Estado.Demanda e = 0) ->
  (forall e, e ∈ Estados ambiente -> 0 <= Estado.Demanda e) ->
  0 <= Capacidade ambiente ->
  inicio' false m = Ok m0 ->
  (forall m1, alcancavel' duplo false m0 m1 ->
     Forall (fun r => Rota.Demanda r <= Capacidade ambiente) (rotas m1)) /\
  (forall fuel m' distanciaTotal,
     episodio' duplo false fuel m = Ok (m', distanciaTotal) ->
     Forall (fun r => Rota.Demanda r <= Capacidade ambiente) (rotas m')).
Proof.
  intros Hac Hdep _ Hcap Hini.
  assert (Halc : forall m1, alcancavel' duplo false m0 m1 ->
            Forall (fun r => Rota.Demanda r <= Capacidade ambiente) (rotas m1)).
  { intros m1 Hm1. induction Hm1 as [|m1 m2 _ IH _ Hp].
    - unfold inicio in Hini. abre Hini. inversion Hini; subst; simpl.
      apply Forall_singleton. exact Hcap.
    - eapply passo_capacidade; eassumption. }
  split; [exact Halc|].
  intros fuel m' T H. unfold episodio in H. rewrite Hini in H. simpl in H.
  abre H. inversion H; subst. apply Halc.
  eapply laco_alcancavel; [eassumption|apply alcancavel_inicio].
Qed.

(** ** The penalty *)

Lemma passo_comprimento (duplo fixo : bool) (m m' : Memoria) :
  passo' duplo fixo m = Ok m' ->
  (length (rotas m) <= length (rotas m'))%nat.
Proof.
  intros H.
  destruct (passo_forma _ _ _ _ H)
    as (v & rota & rota' & a & e & _ & _ & _ & _ & _ & _ & _ & _ & Hr & _).
  rewrite Hr.
  match goal with |- context [if ?b then _ else _] => destruct b end;
    rewrite ?length_app, length_insert; lia.
Qed.

Lemma laco_comprimento (duplo fixo : bool) (fuel : nat) (m m' : Memoria) :
  laco' duplo fixo fuel m = Ok m' ->
  (length (rotas m) <= length (rotas m'))%nat.
Proof.
  revert m. induction fuel as [|fuel IH]; intros m H; simpl in H;
    destruct (decide (count_False _ = O)) as [Hz|Hz];
    try discriminate; try (inversion H; subst; lia).
  desfaz H.
  match goal with E : passo' _ _ _ = Ok _ |- _ =>
    apply passo_comprimento in E end.
  apply IH in H. lia.
Qed.

Lemma soma_dinamica_inf (todas resto : list Rota.t) (T : val) :
  Veiculos ambiente < Z.of_nat (length todas) ->
  resto <> [] \/ T = PInf ->
  soma_dinamica ambiente todas resto T = PInf.
Proof.
  intros HK. revert T. induction resto as [|r resto IH]; intros T H; simpl.
  - destruct H as [H|H]; [congruence|exact H].
  - apply Z.ltb_lt in HK. rewrite HK. simpl. apply IH. right. reflexivity.
Qed.

Lemma retorno_penalidade (duplo : bool) (n v : nat) (m m' : Memoria)
    (T T' : val) :
  retorno' duplo n v m T = Ok (m', T') ->
  length (rotas m') = length (rotas m) /\
  (forall k, (k < v)%nat -> rotas m' !! k = rotas m !! k) /\
  (T = PInf -> T' = PInf) /\
  (forall k r, (v <= k < v + n)%nat -> rotas m' !! k = Some r ->
     Capacidade ambiente < Rota.Demanda r -> T' = PInf).
Proof.
  revert v m T. induction n as [|n IH]; intros v m T H; simpl in H.
  - inversion H; subst. repeat split; auto. intros k r Hk. lia.
  - abre H.
    match goal with E : fecha' _ _ _ _ = Ok (?m1, ?T1) |- _ =>
      destruct (fecha_rotas _ _ _ _ _ _ E)
        as (rota & rota' & e & Hv & _ & _ & _ & Hr & _ & HT);
      destruct (IH _ _ _ H) as (Hlen & Hantes & Hinf & Hdepois)
    end.
    assert (Hvl : (v < length (rotas m))%nat)
      by (eapply lookup_lt_Some; exact Hv).
    split; [rewrite Hlen, Hr; apply length_insert|].
    split; [|split].
    + intros k Hk. rewrite Hantes by lia. rewrite Hr.
      apply list_lookup_insert_ne. lia.
    + intros ->. apply Hinf. rewrite HT.
      destruct (_ <? _); reflexivity.
    + intros k r Hk Hkr Hcap.
      destruct (decide (k = v)) as [->|Hne].
      * apply Hinf. rewrite Hantes in Hkr by lia.
        rewrite Hr, list_lookup_insert_eq in Hkr by exact Hvl.
        inversion Hkr; subst r. rewrite HT.
        apply Z.ltb_lt in Hcap. rewrite Hcap. reflexivity.
      * apply (Hdepois k r); [lia|exact Hkr|exact Hcap].
Qed.

(** C3. When an episode ends with routes that break a limit (with a fixed
    fleet, a route whose demand is over the capacity; with a dynamic fleet,
    more routes than vehicles) its [distanciaTotal] is [+inf], whatever
    costs were added to it. *)
Theorem penalidade_domina (duplo fixo : bool) (fuel : nat) (m m' : Memoria)
    (distanciaTotal : val) :
  episodio' duplo fixo fuel m = Ok (m', distanciaTotal) ->
  (if fixo
   then Exists (fun r => Capacidade ambiente < Rota.Demanda r) (rotas m')
   else Veiculos ambiente < Z.of_nat (length (rotas m'))) ->
  distanciaTotal = PInf.
Proof.
  intros H Hviola. unfold episodio in H. abre H.
  match goal with
  | Ei : inicio _ _ _ = Ok ?m0, El : laco' _ _ _ _ = Ok ?m1 |- _ =>
      rename m0 into m0_, m1 into m1_, Ei into Hini, El into Hlaco
  end.
  destruct fixo.
  - destruct (retorno_penalidade _ _ _ _ _ _ _ H) as (Hlen & _ & _ & Hpen).
    apply Exists_exists in Hviola as (r & Hr & Hcap).
    apply list_elem_of_lookup_1 in Hr as [k Hk].
    apply (Hpen k r); [|exact Hk|exact Hcap].
    apply lookup_lt_Some in Hk. lia.
  - inversion H; subst. apply soma_dinamica_inf; [exact Hviola|].
    left. apply laco_comprimento in Hlaco.
    unfold inicio in Hini. abre Hini. inversion Hini; subst m0_.
    simpl in Hlaco. intros Hnil. rewrite Hnil in Hlaco. simpl in Hlaco. lia.
Qed.

(** ** The update when [lambd] is 0 *)

Lemma passo_td_Ok (alvo visitas : matriz) (s a : nat) (dist fut d : Q) :
  passo_td ambiente alvo visitas s a dist fut = Ok d ->
  exists n taxa e recompensa q,
    entrada visitas s a = Some n /\ TaxaAprendizagem n = Ok taxa /\
    Estados ambiente !! a = Some e /\
    Recompensa dist (Estado.Demanda e) (Capacidade ambiente) = Ok recompensa /\
    entrada alvo s a = Some q /\
    d = (taxa * (recompensa + fut - q))%Q.
Proof.
  unfold passo_td. intros H. abre H.
  match goal with
  | E1 : get2 visitas s a = Ok ?n, E2 : TaxaAprendizagem _ = Ok ?t,
    E3 : get (Estados ambiente) a = Ok ?e, E4 : Recompensa _ _ _ = Ok ?r,
    E5 : get2 alvo s a = Ok ?q |- _ =>
      apply get2_Ok in E1, E5; apply get_Ok in E3;
      exists n, t, e, r, q
  end.
  inversion H. auto 10.
Qed.

Lemma AtualizaQ_lambda_zero (alvo visitas eleg alvo' eleg' : matriz)
    (rota : Rota.t) (s a : nat) (dist fut : Q) :
  (lambd par == 0)%Q ->
  AtualizaQ ambiente par alvo visitas eleg rota s a dist fut
    = Ok (alvo', eleg') ->
  eleg' = eleg /\ atualiza_um ambiente alvo alvo' visitas s a dist fut.
Proof.
  intros Hl H. unfold AtualizaQ in H.
  apply Qeq_bool_iff in Hl. rewrite Hl in H. abre H.
  match goal with
  | E1 : get2 alvo s a = Ok ?q, E2 : passo_td _ _ _ _ _ _ _ = Ok ?d,
    E3 : set2 alvo s a _ = Ok _ |- _ =>
      apply get2_Ok in E1;
      destruct (passo_td_Ok _ _ _ _ _ _ _ E2)
        as (n & taxa & e & r & q' & Hn & Ht & He & Hr & Hq & ->);
      destruct (set2_Ok _ _ _ _ _ E3) as (linha & Hlin & Hj & ->);
      rename q into q0, E1 into Hq0
  end.
  inversion H; subst. split; [reflexivity|].
  assert (q' = q0) by congruence. subst q'.
  exists q0, n, taxa, e, r. repeat split; auto.
  - apply entrada_insert_eq; assumption.
  - intros i j Hne. apply entrada_insert_ne; assumption.
Qed.

(** What the way back to the depot of a fixed-fleet route learns from. *)
Lemma fecha_aprendizagem (duplo : bool) (v : nat) (m m' : Memoria)
    (T T' : val) :
  fecha' duplo v m T = Ok (m', T') ->
  exists s rota rota' eleg,
    rotas m !! v = Some rota /\
    last (Rota.Consumidores rota) = Some s /\
    estado m' = s /\ acao m' = O /\
    rotas m' !! v = Some rota' /\
    incrementa (QElegibilidade m) s O = Ok eleg /\
    if negb duplo || moeda acaso (relogio m)
    then Q2 m' = Q2 m /\
         AtualizaQ ambiente par (Q1 m) (QVisitas m') eleg rota' s O
           (distancia sqrt ambiente s O) 0 = Ok (Q1 m', QElegibilidade m')
    else Q1 m' = Q1 m /\
         AtualizaQ ambiente par (Q2 m) (QVisitas m') eleg rota' s O
           (distancia sqrt ambiente s O) 0 = Ok (Q2 m', QElegibilidade m').
Proof.
  unfold fecha. intros H. abre H.
  match goal with
  | Er : get (rotas m) v = Ok ?rota, Eu : ultimo _ = Ok ?s,
    Ea : AtualizaRota' _ _ _ = Ok (?rota', ?d),
    Es : set (rotas m) v _ = Ok _,
    Ee : incrementa (QElegibilidade m) _ _ = Ok ?eleg,
    Ec : credito' _ _ _ _ _ _ _ = Ok _ |- _ =>
      apply get_Ok in Er; apply ultimo_Ok in Eu;
      pose proof (AtualizaRota_distancia _ _ _ _ _ Ea) as Hdist;
      apply set_Ok in Es as [Hv ->];
      destruct (credito_AtualizaQ _ _ _ _ _ _ _ _ _ _ Ec)
        as (futuro & Hfut & Hq);
      exists s, rota, rota', eleg
  end.
  cbn [Q1 Q2 QVisitas QElegibilidade relogio] in Hfut, Hq.
  inversion Hfut; subst futuro. clear Hfut.
  inversion H; subst; simpl.
  split; [assumption|]. split; [assumption|].
  split; [reflexivity|]. split; [reflexivity|].
  split; [apply list_lookup_insert_eq; exact Hv|].
  split; [assumption|]. exact Hq.
Qed.

(** C8. When [lambd] is 0, a credit-assignment step (a turn of the loop, or
    the way back to the depot of a fixed-fleet route) changes one entry of
    one table.  The entry is that of the state [s] the step leaves from and
    of the action [a] it takes.  It gains the learning rate, taken at the
    count of visits of [(s, a)], times the temporal-difference error: the
    reward of the leg from [s] to [a], plus the discount rate times the
    bootstrap value of the step (nothing on the way back to the depot),
    less the entry.  Every other entry of that table stays, and the other
    table stays whole. *)
Theorem atualizacao_de_uma_entrada :
  (lambd par == 0)%Q ->
  (forall duplo fixo m m',
     passo' duplo fixo m = Ok m' ->
     let a := acao m' in
     let outra := if duplo && moeda acaso (relogio m) then Q2 m else Q1 m in
     exists v s rota linha acoes permissao x,
       rotas m !! v = Some rota /\
       (if fixo
        then EscolheRota (rotas m) = Ok v /\
             last (Rota.Consumidores rota) = Some s
        else v = veiculo m /\ s = estado m) /\
       valores duplo m s = Ok (Fin <$> linha) /\
       ValidaAcoes (Fin <$> linha) (listEstadosVisitados m)
         (Rota.Demanda rota) ambiente (negb fixo) = Ok (acoes, permissao) /\
       ValorAcaoFutura fixo outra (<[a := NInf]> acoes) a = Ok x /\
       if negb duplo || moeda acaso (relogio m)
       then Q2 m' = Q2 m /\
            atualiza_um ambiente (Q1 m) (Q1 m') (QVisitas m') s a
              (distancia sqrt ambiente s a) (taxaDesconto par * x)
       else Q1 m' = Q1 m /\
            atualiza_um ambiente (Q2 m) (Q2 m') (QVisitas m') s a
              (distancia sqrt ambiente s a) (taxaDesconto par * x)) /\
  (forall duplo v m T m' T',
     fecha' duplo v m T = Ok (m', T') ->
     exists s rota,
       rotas m !! v = Some rota /\
       last (Rota.Consumidores rota) = Some s /\
       estado m' = s /\ acao m' = O /\
       if negb duplo || moeda acaso (relogio m)
       then Q2 m' = Q2 m /\
            atualiza_um ambiente (Q1 m) (Q1 m') (QVisitas m') s O
              (distancia sqrt ambiente s O) 0
       else Q1 m' = Q1 m /\
            atualiza_um ambiente (Q2 m) (Q2 m') (QVisitas m') s O
              (distancia sqrt ambiente s O) 0).
Proof.
  intros Hl. split.
  - intros duplo fixo m m' H a outra.
    destruct (passo_aprendizagem _ _ _ _ H)
      as (v & s & rota & rota' & linha & acoes & permissao & eleg & x & Hv
          & Hs & _ & Hlinha & Hval & _ & Hx & _ & Hq).
    fold a in Hx, Hq. fold outra in Hx.
    exists v, s, rota, linha, acoes, permissao, x.
    split; [exact Hv|]. split; [exact Hs|]. split; [exact Hlinha|].
    split; [exact Hval|]. split; [exact Hx|].
    destruct (negb duplo || moeda acaso (relogio m));
      destruct Hq as [Hq Hat]; (split; [exact Hq|]);
      apply (AtualizaQ_lambda_zero _ _ _ _ _ _ _ _ _ _ Hl) in Hat;
      apply Hat.
  - intros duplo v m T m' T' H.
    destruct (fecha_aprendizagem _ _ _ _ _ _ H)
      as (s & rota & rota' & eleg & Hv & Hs & He & Ha & _ & _ & Hq).
    exists s, rota.
    split; [exact Hv|]. split; [exact Hs|]. split; [exact He|].
    split; [exact Ha|].
    destruct (negb duplo || moeda acaso (relogio m));
      destruct Hq as [Hq Hat]; (split; [exact Hq|]);
      apply (AtualizaQ_lambda_zero _ _ _ _ _ _ _ _ _ _ Hl) in Hat;
      apply Hat.
Qed.

(** ** The fixed-fleet variants below the demand of every customer *)

Lemma valores_existe (n : nat) (duplo : bool) (m : Memoria) (s : nat) :
  quadrada n (Q1 m) -> (duplo = true -> quadrada n (Q2 m)) -> (s < n)%nat ->
  exists linha, valores duplo m s = Ok (Fin <$> linha) /\ length linha = n.
Proof.
  intros [H1 H1'] H2 Hs. unfold valores.
  destruct (get_menor (Q1 m) s) as (l1 & Hg1 & Hl1); [lia|].
  eapply Forall_lookup_1 in H1'; [|exact Hl1]. simpl in H1'.
  destruct duplo.
  - destruct (H2 eq_refl) as [H3 H3'].
    destruct (get_menor (Q2 m) s) as (l2 & Hg2 & Hl2); [lia|].
    eapply Forall_lookup_1 in H3'; [|exact Hl2]. simpl in H3'.
    rewrite Hg1, Hg2. simpl. eexists. split; [reflexivity|].
    rewrite length_zip_with. lia.
  - rewrite Hg1. simpl. eauto.
Qed.

Lemma AtualizaRota_existe (rota : Rota.t) (s a : nat) :
  (s < length (Estados ambiente))%nat ->
  (a < length (Estados ambiente))%nat ->
  exists rota' d, AtualizaRota' rota s a = Ok (rota', d).
Proof.
  intros Hs Ha. unfold AtualizaRota.
  destruct (get_menor _ _ Hs) as (e & He & _).
  destruct (get_menor _ _ Ha) as (e' & He' & _).
  rewrite He, He'. simpl. eauto.
Qed.

Lemma ValorAcaoFutura_existe (n : nat) (fixo : bool) (outra : matriz)
    (acoes : list val) (a : nat) :
  quadrada n outra -> (a < n)%nat -> length acoes = n ->
  exists x, ValorAcaoFutura fixo outra acoes a = Ok x.
Proof.
  intros Hq Ha Hlen. unfold ValorAcaoFutura.
  destruct (decide (count_val NInf acoes = length acoes)).
  - destruct fixo; [|eauto].
    destruct (quadrada_entrada _ _ _ O Hq Ha) as [x Hx]; [lia|].
    exists x. apply get2_Ok. exact Hx.
  - destruct (MaxQ_existe acoes) as [j Hj].
    { intros ->. simpl in Hlen. lia. }
    rewrite Hj. simpl. apply MaxQ_Ok in Hj as (y & Hy & _).
    apply lookup_lt_Some in Hy.
    destruct (quadrada_entrada _ _ _ j Hq Ha) as [x Hx]; [lia|].
    exists x. apply get2_Ok. exact Hx.
Qed.

Lemma passo_td_existe (n : nat) (alvo visitas : matriz) (s a : nat)
    (dist fut : Q) (e : Estado.t) :
  quadrada n alvo -> quadrada n visitas -> nao_negativa visitas ->
  (s < n)%nat -> (a < n)%nat ->
  Estados ambiente !! a = Some e ->
  Estado.Demanda e <> Capacidade ambiente ->
  exists d, passo_td ambiente alvo visitas s a dist fut = Ok d.
Proof.
  intros Ha Hv Hnn Hs Hlt He Hd. unfold passo_td.
  destruct (quadrada_entrada _ _ _ _ Hv Hs Hlt) as [x Hx].
  pose proof (nao_negativa_entrada _ _ _ _ Hnn Hx) as Hx0.
  apply get2_Ok in Hx. rewrite Hx. simpl.
  unfold TaxaAprendizagem.
  destruct (Qeq_bool (1 + x) 0) eqn:E.
  { apply Qeq_bool_iff in E. lra. }
  simpl. apply get_Ok in He. rewrite He. simpl.
  unfold Recompensa.
  destruct (Capacidade ambiente - Estado.Demanda e =? 0) eqn:E2.
  { apply Z.eqb_eq in E2. lia. }
  simpl. destruct (quadrada_entrada _ _ _ _ Ha Hs Hlt) as [q Hq].
  apply get2_Ok in Hq. rewrite Hq. simpl. eauto.
Qed.

Lemma percorre_existe (n : nat) (ps : list (nat * nat))
    (alvo visitas eleg : matriz) (s a : nat) (dist fut : Q) (e : Estado.t) :
  Forall (fun p => (p.1 < n)%nat /\ (p.2 < n)%nat) ps ->
  quadrada n alvo -> quadrada n visitas -> nao_negativa visitas ->
  quadrada n eleg ->
  (s < n)%nat -> (a < n)%nat ->
  Estados ambiente !! a = Some e ->
  Estado.Demanda e <> Capacidade ambiente ->
  exists alvo' eleg',
    percorre ambiente par ps alvo visitas eleg s a dist fut
      = Ok (alvo', eleg') /\
    quadrada n alvo' /\ quadrada n eleg'.
Proof.
  intros Hps. revert alvo eleg.
  induction Hps as [|[u v] ps [Hu Hv] _ IH];
    intros alvo eleg Ha Hvis Hnn Hel Hs Hlt He Hd; simpl in *.
  - eauto.
  - destruct (quadrada_entrada _ _ _ _ Ha Hu Hv) as [quv Hq].
    apply get2_Ok in Hq. rewrite Hq. simpl.
    destruct (passo_td_existe n alvo visitas s a dist fut e) as [d Hdd];
      auto.
    rewrite Hdd. simpl.
    destruct (quadrada_entrada _ _ _ _ Hel Hu Hv) as [x Hx].
    apply get2_Ok in Hx. rewrite Hx. simpl.
    destruct (quadrada_set2 n alvo u v (quv + d * x)%Q Ha Hu Hv)
      as (alvo1 & Hs1 & Hq1 & _).
    rewrite Hs1. simpl.
    destruct (quadrada_set2 n eleg u v
                (lambd par * taxaDesconto par * x)%Q Hel Hu Hv)
      as (eleg1 & Hs2 & Hq2 & _).
    rewrite Hs2. simpl. apply IH; auto.
Qed.

Lemma pares_menores (n : nat) (l : list nat) :
  Forall (fun c => (c < n)%nat) l ->
  Forall (fun p => (p.1 < n)%nat /\ (p.2 < n)%nat) (pares l).
Proof.
  intros H. unfold pares. apply Forall_reverse.
  apply Forall_forall. intros [u v] Huv.
  rewrite Forall_forall in H. simpl. split.
  - apply H. eapply elem_of_zip_l. exact Huv.
  - apply H. apply elem_of_zip_r in Huv.
    destruct l; [inversion Huv|]. right. exact Huv.
Qed.

Lemma AtualizaQ_existe (n : nat) (alvo visitas eleg : matriz)
    (rota : Rota.t) (s a : nat) (dist fut : Q) (e : Estado.t) :
  Forall (fun c => (c < n)%nat) (Rota.Consumidores rota) ->
  quadrada n alvo -> quadrada n visitas -> nao_negativa visitas ->
  quadrada n eleg ->
  (s < n)%nat -> (a < n)%nat ->
  Estados ambiente !! a = Some e ->
  Estado.Demanda e <> Capacidade ambiente ->
  exists alvo' eleg',
    AtualizaQ ambiente par alvo visitas eleg rota s a dist fut
      = Ok (alvo', eleg') /\
    quadrada n alvo' /\ quadrada n eleg'.
Proof.
  intros Hr Ha Hvis Hnn Hel Hs Hlt He Hd. unfold AtualizaQ.
  destruct (Qeq_bool (lambd par) 0).
  - destruct (quadrada_entrada _ _ _ _ Ha Hs Hlt) as [q Hq].
    apply get2_Ok in Hq. rewrite Hq. simpl.
    destruct (passo_td_existe n alvo visitas s a dist fut e) as [d Hdd];
      auto.
    rewrite Hdd. simpl.
    destruct (quadrada_set2 n alvo s a (q + d)%Q Ha Hs Hlt)
      as (alvo1 & Hs1 & Hq1 & _).
    rewrite Hs1. simpl. eauto.
  - eapply percorre_existe; eauto. apply pares_menores. exact Hr.
Qed.

Lemma credito_existe (n : nat) (duplo : bool) (m : Memoria) (rota : Rota.t)
    (s a : nat) (dist : Q) (fv : matriz -> res Q) (e : Estado.t) :
  Forall (fun c => (c < n)%nat) (Rota.Consumidores rota) ->
  tabelas_formadas n duplo m -> quadrada n (QElegibilidade m) ->
  (s < n)%nat -> (a < n)%nat ->
  Estados ambiente !! a = Some e ->
  Estado.Demanda e <> Capacidade ambiente ->
  (forall outra, quadrada n outra -> exists x, fv outra = Ok x) ->
  exists q1 q2 eleg',
    credito' duplo m rota s a dist fv = Ok (q1, q2, eleg') /\
    quadrada n q1 /\ (duplo = true -> quadrada n q2) /\ quadrada n eleg'.
Proof.
  intros Hr (H1 & H2 & Hvis & Hnn) Hel Hs Hlt He Hd Hfv. unfold credito.
  destruct duplo; simpl.
  - specialize (H2 eq_refl). destruct (moeda acaso (relogio m)).
    + destruct (Hfv _ H2) as [x Hx]. rewrite Hx. simpl.
      destruct (AtualizaQ_existe n (Q1 m) (QVisitas m) (QElegibilidade m)
                  rota s a dist x e)
        as (q & el & Hq & Hq1 & Hq2); auto.
      rewrite Hq. simpl. eauto 10.
    + destruct (Hfv _ H1) as [x Hx]. rewrite Hx. simpl.
      destruct (AtualizaQ_existe n (Q2 m) (QVisitas m) (QElegibilidade m)
                  rota s a dist x e)
        as (q & el & Hq & Hq1 & Hq2); auto.
      rewrite Hq. simpl. eauto 10.
  - destruct (Hfv _ H1) as [x Hx]. rewrite Hx. simpl.
    destruct (AtualizaQ_existe n (Q1 m) (QVisitas m) (QElegibilidade m)
                rota s a dist x e)
      as (q & el & Hq & Hq1 & Hq2); auto.
    rewrite Hq. simpl. exists q, (Q2 m), el.
    split; [reflexivity|]. split; [exact Hq1|]. split; [discriminate|exact Hq2].
Qed.

Lemma count_False_existe (l : list bool) :
  count_False l <> O -> exists k, l !! k = Some false.
Proof.
  unfold count_False. induction l as [|b l IH]; intros H.
  - exfalso. apply H. reflexivity.
  - destruct b; [|exists O; reflexivity].
    rewrite filter_cons_False in H by discriminate.
    destruct (IH H) as [k Hk]. exists (S k). exact Hk.
Qed.

Lemma count_False_insert (l : list bool) (a : nat) :
  l !! a = Some false ->
  S (count_False (<[a := true]> l)) = count_False l.
Proof.
  unfold count_False. revert a. induction l as [|b l IH]; intros a H.
  - discriminate.
  - destruct a as [|a].
    + inversion H; subst. change (<[O := true]> (false :: l)) with (true :: l).
      rewrite filter_cons_False by discriminate.
      rewrite filter_cons_True by reflexivity. reflexivity.
    + change (<[S a := true]> (b :: l)) with (b :: <[a := true]> l).
      change ((b :: l) !! S a) with (l !! a) in H.
      destruct b.
      * rewrite !filter_cons_False by discriminate. apply IH. exact H.
      * rewrite !filter_cons_True by reflexivity. simpl. f_equal.
        apply IH. exact H.
Qed.

Lemma count_False_replicate (n : nat) :
  count_False (replicate n false) = n.
Proof.
  unfold count_False. induction n as [|n IH]; [reflexivity|].
  change (replicate (S n) false) with (false :: replicate n false).
  rewrite filter_cons_True by reflexivity. simpl. f_equal. exact IH.
Qed.

Lemma passo_fixo_existe (duplo : bool) (m : Memoria) :
  ambiente_apertado ambiente -> acaso_valido acaso ->
  construindo (length (Estados ambiente)) ambiente duplo m ->
  count_False (listEstadosVisitados m) <> O ->
  exists m',
    passo' duplo true m = Ok m' /\
    construindo (length (Estados ambiente)) ambiente duplo m' /\
    S (count_False (listEstadosVisitados m'))
      = count_False (listEstadosVisitados m) /\
    Exists (fun r => Capacidade ambiente < Rota.Demanda r) (rotas m').
Proof.
  intros (HN & (e0 & He0 & Hd0) & Hcap & HK & Hap) Hac
    (Htab & Hel & Hlen & Hdep & Hne & Hrf & _) Hcf.
  set (n := length (Estados ambiente)) in *.
  pose proof Htab as (HQ1 & HQ2 & Hvis & Hnn).
  destruct (EscolheRota_existe _ Hne) as (v & Hv & Hvl).
  destruct (get_menor _ _ Hvl) as (rota & Hrota & Hrota').
  pose proof (Forall_lookup_1 _ _ _ _ Hrf Hrota') as (Hcne & Hcn & Hdem).
  destruct (ultimo_existe _ Hcne) as (s & Hs & Hsin).
  assert (Hsn : (s < n)%nat) by (rewrite Forall_forall in Hcn; auto).
  destruct (valores_existe n duplo m s HQ1 HQ2 Hsn) as (linha & Hlinha & Hll).
  destruct (ValidaAcoes_de_existe O (Fin <$> linha) (listEstadosVisitados m)
              (Rota.Demanda rota) ambiente (negb true))
    as (acoes & perm & Hval).
  { rewrite length_fmap. simpl. lia. }
  { rewrite length_fmap. simpl. fold n. lia. }
  fold (ValidaAcoes (Fin <$> linha) (listEstadosVisitados m)
          (Rota.Demanda rota) ambiente (negb true)) in Hval.
  pose proof (ValidaAcoes_mascarada _ _ _ _ _ _ _ Hval) as Hm.
  pose proof (ValidaAcoes_de_Ok _ _ _ _ _ _ _ _ Hval) as (Hla & Hlp & Hk).
  rewrite length_fmap in Hla, Hlp.
  assert (Hlegal : forall k, (k < n)%nat ->
            perm !! k = Some 1 <-> listEstadosVisitados m !! k = Some false).
  { intros k Hkn.
    destruct (lookup_lt_is_Some_2 (Fin <$> linha) k) as [y Hy];
      [rewrite length_fmap; lia|].
    destruct (Hk k y Hy) as (b & Hb & _ & Hp). simpl in Hb.
    unfold acao_invalida in Hb.
    destruct (lookup_lt_is_Some_2 (Estados ambiente) k) as [e He]; [exact Hkn|].
    rewrite He in Hb. rewrite Hp.
    destruct (listEstadosVisitados m !! k) as [[|]|]; try discriminate;
      inversion Hb; subst b; simpl; split; intros HH;
      first [reflexivity | discriminate HH
            | rewrite andb_false_r; reflexivity]. }
  destruct (count_False_existe _ Hcf) as [k0 Hk0].
  assert (Hk0n : (k0 < n)%nat) by (apply lookup_lt_Some in Hk0; lia).
  destruct (Hac (relogio m)) as [Hr0 Hr1].
  destruct (Politica_existe (uniforme acaso (relogio m))
              (amostra acaso (relogio m)) (epsilon par) acoes perm k0)
    as [a Hpol]; auto.
  { apply Hlegal; assumption. }
  assert (Hpa : perm !! a = Some 1).
  { destruct (Politica_escolha _ _ _ _ _ _ Hm Hr0 Hpol)
      as [[Hp _]|(_ & Hall & _)]; [exact Hp|].
    destruct (mascarada_um acoes perm k0 1 Hm) as [_ (q & Hq)];
      [apply Hlegal; assumption|lia|].
    eapply Forall_lookup_1 in Hall; [|exact Hq]. discriminate. }
  assert (Han : (a < n)%nat) by (apply lookup_lt_Some in Hpa; lia).
  assert (Hva : listEstadosVisitados m !! a = Some false)
    by (apply Hlegal; assumption).
  assert (Ha0 : a <> O) by (intros ->; congruence).
  destruct (AtualizaRota_existe rota s a Hsn Han) as (rota' & dist & Hatu).
  destruct (AtualizaRota_Ok _ _ _ _ _ Hatu) as (e & He & _ & Hd & _ & Hc).
  pose proof (Hap a e Ha0 He) as Hde.
  destruct (incrementa_existe n (QElegibilidade m) s a Hel Hsn Han)
    as (eleg & xe & Hie & Hqe & _).
  destruct (incrementa_existe n (QVisitas m) s a Hvis Hsn Han)
    as (visitas & xv & Hiv & Hqv & _ & _ & Hnnv).
  specialize (Hnnv Hnn).
  assert (Hcn' : Forall (fun c => (c < n)%nat) (Rota.Consumidores rota')).
  { rewrite Hc. apply Forall_app. split; [exact Hcn|].
    apply Forall_singleton. exact Han. }
  set (m1 := Build_Memoria (Q1 m) (Q2 m) visitas eleg
               (<[a := true]> (listEstadosVisitados m))
               (<[v := rota']> (rotas m)) v s a (relogio m)).
  assert (Htab1 : tabelas_formadas n duplo m1).
  { split; [exact HQ1|]. split; [exact HQ2|]. split; [exact Hqv|exact Hnnv]. }
  assert (Hde' : Estado.Demanda e <> Capacidade ambiente) by lia.
  assert (Hfv : forall outra, quadrada n outra ->
            exists x,
              (let* x := ValorAcaoFutura true outra (<[a := NInf]> acoes) a
               in Ok (taxaDesconto par * x)%Q) = Ok x).
  { intros outra Hout.
    destruct (ValorAcaoFutura_existe n true outra (<[a := NInf]> acoes) a
                Hout Han)
      as [x Hx].
    { rewrite length_insert. lia. }
    rewrite Hx. simpl. eauto. }
  destruct (credito_existe n duplo m1 rota' s a dist _ e Hcn' Htab1 Hqe Hsn
              Han He Hde' Hfv)
    as (q1 & q2 & eleg' & Hcred & Hq1 & Hq2 & Heleg').
  exists (Build_Memoria q1 q2 visitas eleg'
            (<[a := true]> (listEstadosVisitados m))
            (<[v := rota']> (rotas m)) v s a (S (relogio m))).
  assert (Hex : Exists (fun r => Capacidade ambiente < Rota.Demanda r)
                  (<[v := rota']> (rotas m))).
  { apply Exists_exists. exists rota'. split; [|lia].
    eapply list_elem_of_lookup_2. apply list_lookup_insert_eq. exact Hvl. }
  split; [|split; [|split]].
  - unfold passo. rewrite Hv. simpl. rewrite Hrota. simpl. rewrite Hs. simpl.
    rewrite Hlinha. simpl. change (negb true) with false in Hval.
    rewrite Hval. simpl. rewrite Hpol. simpl.
    rewrite Hatu. simpl. rewrite set_menor by exact Hvl. simpl.
    rewrite set_menor by lia. simpl. rewrite set_menor by lia. simpl.
    rewrite Hie. simpl. rewrite Hiv. simpl. fold m1. rewrite Hcred.
    reflexivity.
  - unfold construindo. simpl.
    split; [split; [exact Hq1|split; [exact Hq2|split; [exact Hqv|exact Hnnv]]]|].
    split; [exact Heleg'|].
    split; [rewrite length_insert; exact Hlen|].
    split; [rewrite list_lookup_insert_ne by congruence; exact Hdep|].
    split; [|split; [|right; exact Hex]].
    + intros Hnil. apply (f_equal length) in Hnil.
      rewrite length_insert in Hnil. simpl in Hnil. lia.
    + apply Forall_insert; [exact Hrf|].
      split; [|split; [exact Hcn'|lia]].
      rewrite Hc. intros Hnil. apply app_eq_nil in Hnil as [_ Hnil].
      discriminate.
  - simpl. apply count_False_insert. exact Hva.
  - exact Hex.
Qed.

Lemma laco_fixo_existe (duplo : bool) (fuel : nat) (m : Memoria) :
  ambiente_apertado ambiente -> acaso_valido acaso ->
  construindo (length (Estados ambiente)) ambiente duplo m ->
  (count_False (listEstadosVisitados m) <= fuel)%nat ->
  exists m',
    laco' duplo true fuel m = Ok m' /\
    construindo (length (Estados ambiente)) ambiente duplo m' /\
    count_False (listEstadosVisitados m') = O.
Proof.
  intros Hamb Hac. revert m. induction fuel as [|fuel IH]; intros m Hm Hf;
    simpl; destruct (decide (count_False _ = O)) as [Hz|Hz]; eauto; [lia|].
  destruct (passo_fixo_existe duplo m Hamb Hac Hm Hz)
    as (m1 & Hp & Hm1 & Hc & _).
  rewrite Hp. simpl. apply IH; [exact Hm1|lia].
Qed.

Lemma fecha_existe (duplo : bool) (v : nat) (m : Memoria) (T : val) :
  ambiente_apertado ambiente ->
  construindo (length (Estados ambiente)) ambiente duplo m ->
  (v < length (rotas m))%nat ->
  exists m' T',
    fecha' duplo v m T = Ok (m', T') /\
    construindo (length (Estados ambiente)) ambiente duplo m' /\
    length (rotas m') = length (rotas m) /\
    listEstadosVisitados m' = listEstadosVisitados m.
Proof.
  intros (HN & (e0 & He0 & Hd0) & Hcap & HK & Hap)
    (Htab & Hel & Hlen & Hdep & Hne & Hrf & Hou) Hvl.
  set (n := length (Estados ambiente)) in *.
  pose proof Htab as (HQ1 & HQ2 & Hvis & Hnn).
  destruct (get_menor _ _ Hvl) as (rota & Hrota & Hrota').
  pose proof (Forall_lookup_1 _ _ _ _ Hrf Hrota') as (Hcne & Hcn & Hdem).
  destruct (ultimo_existe _ Hcne) as (s & Hs & Hsin).
  assert (Hsn : (s < n)%nat) by (rewrite Forall_forall in Hcn; auto).
  assert (H0n : (O < n)%nat) by lia.
  destruct (AtualizaRota_existe rota s O Hsn H0n) as (rota' & dist & Hatu).
  destruct (AtualizaRota_Ok _ _ _ _ _ Hatu) as (e & He & _ & Hd & _ & Hc).
  assert (e = e0) by congruence. subst e.
  destruct (incrementa_existe n (QElegibilidade m) s O Hel Hsn H0n)
    as (eleg & xe & Hie & Hqe & _).
  destruct (incrementa_existe n (QVisitas m) s O Hvis Hsn H0n)
    as (visitas & xv & Hiv & Hqv & _ & _ & Hnnv).
  specialize (Hnnv Hnn).
  assert (Hcn' : Forall (fun c => (c < n)%nat) (Rota.Consumidores rota')).
  { rewrite Hc. apply Forall_app. split; [exact Hcn|].
    apply Forall_singleton. exact H0n. }
  set (m1 := Build_Memoria (Q1 m) (Q2 m) visitas eleg
               (listEstadosVisitados m) (<[v := rota']> (rotas m)) v s O
               (relogio m)).
  assert (Htab1 : tabelas_formadas n duplo m1).
  { split; [exact HQ1|]. split; [exact HQ2|]. split; [exact Hqv|exact Hnnv]. }
  assert (Hde' : Estado.Demanda e0 <> Capacidade ambiente) by lia.
  assert (Hfv : forall outra : matriz, quadrada n outra ->
            exists x, (fun _ : matriz => Ok 0%Q) outra = Ok x) by eauto.
  destruct (credito_existe n duplo m1 rota' s O dist _ e0 Hcn' Htab1 Hqe Hsn
              H0n He Hde' Hfv)
    as (q1 & q2 & eleg' & Hcred & Hq1 & Hq2 & Heleg').
  eexists. eexists. split; [|split; [|split]].
  - unfold fecha. rewrite Hrota. simpl. rewrite Hs. simpl.
    rewrite Hatu. simpl. rewrite set_menor by exact Hvl. simpl.
    rewrite Hie. simpl. rewrite Hiv. simpl. fold m1. rewrite Hcred.
    reflexivity.
  - unfold construindo. simpl.
    split; [split; [exact Hq1|split; [exact Hq2|split; [exact Hqv|exact Hnnv]]]|].
    split; [exact Heleg'|]. split; [exact Hlen|]. split; [exact Hdep|].
    split; [|split].
    + intros Hnil. apply (f_equal length) in Hnil.
      rewrite length_insert in Hnil. simpl in Hnil. lia.
    + apply Forall_insert; [exact Hrf|].
      split; [|split; [exact Hcn'|lia]].
      rewrite Hc. intros Hnil. apply app_eq_nil in Hnil as [_ Hnil].
      discriminate.
    + destruct Hou as [Hou|Hou]; [left; exact Hou|right].
      apply Exists_exists in Hou as (r & Hr & Hrc).
      apply list_elem_of_lookup_1 in Hr as [k Hk].
      apply Exists_exists. destruct (decide (k = v)) as [->|Hkv].
      * exists rota'. split.
        -- eapply list_elem_of_lookup_2. apply list_lookup_insert_eq.
           exact Hvl.
        -- assert (r = rota) by congruence. subst r. lia.
      * exists r. split; [|exact Hrc].
        apply (list_elem_of_lookup_2 _ k).
        rewrite list_lookup_insert_ne by lia. exact Hk.
  - simpl. apply length_insert.
  - reflexivity.
Qed.

Lemma retorno_existe (duplo : bool) (k v : nat) (m : Memoria) (T : val) :
  ambiente_apertado ambiente ->
  construindo (length (Estados ambiente)) ambiente duplo m ->
  (v + k = length (rotas m))%nat ->
  exists m' T',
    retorno' duplo k v m T = Ok (m', T') /\
    construindo (length (Estados ambiente)) ambiente duplo m' /\
    length (rotas m') = length (rotas m) /\
    listEstadosVisitados m' = listEstadosVisitados m.
Proof.
  intros Hamb. revert v m T. induction k as [|k IH]; intros v m T Hm Hvk;
    simpl.
  - eauto 10.
  - destruct (fecha_existe duplo v m T Hamb Hm) as (m1 & T1 & Hf & Hm1 & Hl & Hv);
      [lia|].
    rewrite Hf. simpl.
    destruct (IH (S v) m1 T1 Hm1) as (m' & T' & Hr & Hm' & Hl' & Hv');
      [lia|].
    exists m', T'. split; [exact Hr|]. split; [exact Hm'|].
    split; congruence.
Qed.

Lemma quadrada_CriaMatriz (n : nat) :
  quadrada n (CriaMatriz n) /\ nao_negativa (CriaMatriz n).
Proof.
  unfold CriaMatriz, quadrada, nao_negativa. split; [split|].
  - apply length_replicate.
  - apply Forall_replicate. apply length_replicate.
  - apply Forall_replicate. apply Forall_replicate. apply Qle_refl.
Qed.

(** An episode of a fixed-fleet variant, in an environment whose capacity
    is below every demand, ends with [+inf] and leaves tables the next
    episode can start from. *)
Lemma episodio_fixo_existe (duplo : bool) (fuel : nat) (m : Memoria) :
  ambiente_apertado ambiente -> acaso_valido acaso ->
  (length (Estados ambiente) - 1 <= fuel)%nat ->
  tabelas_formadas (length (Estados ambiente)) duplo m ->
  exists m',
    episodio' duplo true fuel m = Ok (m', PInf) /\
    tabelas_formadas (length (Estados ambiente)) duplo m'.
Proof.
  intros Hamb Hac Hfuel Htab.
  pose proof Hamb as (HN & _ & _ & HK & _).
  set (n := length (Estados ambiente)) in *.
  unfold episodio, inicio. fold n.
  rewrite set_menor by (rewrite length_replicate; lia). simpl.
  set (m0 := Build_Memoria _ _ _ _ _ _ _ _ _ _).
  assert (Hc0 : count_False (listEstadosVisitados m0) = (n - 1)%nat).
  { pose proof (count_False_insert (replicate n false) O) as Hi.
    rewrite count_False_replicate in Hi.
    assert (Hf : replicate n false !! O = Some false)
      by (apply lookup_replicate; split; [reflexivity|lia]).
    specialize (Hi Hf). unfold m0. cbn [listEstadosVisitados]. lia. }
  assert (Hm0 : construindo n ambiente duplo m0).
  { unfold construindo. simpl.
    split; [exact Htab|].
    split; [apply quadrada_CriaMatriz|].
    split; [rewrite length_insert; apply length_replicate|].
    split; [apply list_lookup_insert_eq; rewrite length_replicate; lia|].
    split; [|split; [|left; exact Hc0]].
    - unfold CriaRotas. destruct (Z.to_nat (Veiculos ambiente)) eqn:E; [lia|].
      discriminate.
    - unfold rotas_formadas, CriaRotas. apply Forall_replicate. simpl.
      split; [discriminate|]. split; [|lia].
      apply Forall_singleton. lia. }
  destruct (laco_fixo_existe duplo fuel m0 Hamb Hac Hm0)
    as (m1 & Hl & Hm1 & Hc1); [lia|].
  rewrite Hl. simpl.
  destruct (retorno_existe duplo (length (rotas m1)) O m1 (Fin 0) Hamb Hm1)
    as (m' & T' & Hr & Hm' & Hlen & Hvis); [lia|].
  assert (T' = PInf).
  { destruct (retorno_penalidade _ _ _ _ _ _ _ Hr) as (_ & _ & _ & Hpen).
    destruct Hm' as (_ & _ & _ & _ & _ & _ & [Hco|Hex]).
    - rewrite Hvis, Hc1 in Hco. lia.
    - apply Exists_exists in Hex as (r & Hin & Hrc).
      apply list_elem_of_lookup_1 in Hin as [k Hk].
      apply (Hpen k r); [|exact Hk|exact Hrc].
      apply lookup_lt_Some in Hk. lia. }
  subst T'. exists m'. split; [exact Hr|].
  destruct (retorno_existe duplo (length (rotas m1)) O m1 (Fin 0) Hamb Hm1)
    as (m2 & T2 & Hr2 & Hm2 & _); [lia|].
  rewrite Hr in Hr2. inversion Hr2; subst. apply Hm2.
Qed.

Lemma execucao_fixo_existe (duplo : bool) (fuel epocas i : nat)
    (m : Memoria) (anterior : option (val * list Rota.t))
    (resultados : list val) :
  ambiente_apertado ambiente -> acaso_valido acaso ->
  (length (Estados ambiente) - 1 <= fuel)%nat ->
  tabelas_formadas (length (Estados ambiente)) duplo m ->
  i = O \/ (exists rs, anterior = Some (PInf, rs)) ->
  exists b m',
    execucao' duplo true fuel epocas i m anterior resultados
      = Ok (b, resultados ++ replicate epocas PInf, m') /\
    (epocas <> O -> exists rs, b = Some (PInf, rs)).
Proof.
  intros Hamb Hac Hfuel. revert i m anterior resultados.
  induction epocas as [|epocas IH]; intros i m anterior resultados Htab Hant;
    simpl.
  - rewrite app_nil_r. eexists. eexists. split; [reflexivity|congruence].
  - destruct (episodio_fixo_existe duplo fuel m Hamb Hac Hfuel Htab)
      as (m1 & He & Htab1).
    rewrite He. simpl.
    assert (Hmel : exists rs,
              melhor anterior i PInf (rotas m1) = Some (PInf, rs)).
    { unfold melhor. destruct (decide (i = O)) as [->|Hi].
      - simpl. eauto.
      - destruct Hant as [->|(rs & ->)]; [congruence|]. simpl. eauto. }
    destruct Hmel as (rs & Hmel). rewrite Hmel.
    destruct (IH (S i) m1 (Some (PInf, rs)) (resultados ++ [PInf]) Htab1)
      as (b & m' & Hex & Hb); [right; eauto|].
    exists b, m'. rewrite <- app_assoc in Hex. split; [exact Hex|].
    intros _. destruct epocas as [|epocas]; [|apply Hb; discriminate].
    simpl in Hex. inversion Hex; subst. eauto.
Qed.

(** C4, as the code has it.  In an environment of the data model whose
    capacity is below the demand of every customer, each of the two
    fixed-fleet variants runs all its episodes (an episode needs one turn
    of the loop for each customer) and records [+inf] for every one of
    them. *)
Theorem frota_fixa_abaixo_da_demanda (fuel epocas : nat) :
  ambiente_apertado ambiente -> acaso_valido acaso ->
  (length (Estados ambiente) - 1 <= fuel)%nat ->
  epocas <> O ->
  (exists menorRotas,
     Q_Learning_VeiculosFixos sqrt ambiente par acaso fuel epocas
       = Ok (PInf, menorRotas, replicate epocas PInf)) /\
  (exists menorRotas,
     DoubleQ_Learning_VeiculosFixos sqrt ambiente par acaso fuel epocas
       = Ok (PInf, menorRotas, replicate epocas PInf)).
Proof.
  intros Hamb Hac Hfuel Hep.
  assert (Hgeral : forall duplo, exists menorRotas,
            algoritmo sqrt ambiente par acaso duplo true fuel epocas
              = Ok (PInf, menorRotas, replicate epocas PInf)).
  { intros duplo. unfold algoritmo.
    set (m := Build_Memoria _ _ _ _ _ _ _ _ _ _).
    assert (Htab : tabelas_formadas (length (Estados ambiente)) duplo m).
    { unfold tabelas_formadas, m. simpl.
      split; [apply quadrada_CriaMatriz|].
      split; [intros ->; apply quadrada_CriaMatriz|].
      split; apply quadrada_CriaMatriz. }
    destruct (execucao_fixo_existe duplo fuel epocas O m None [] Hamb Hac
                Hfuel Htab)
      as (b & m' & Hex & Hb); [left; reflexivity|].
    destruct (Hb Hep) as (rs & ->).
    rewrite Hex. simpl. eauto. }
  split; apply Hgeral.
Qed.

(** * Further properties *)

(** ** [MaxQ], [TaxaAprendizagem], [CriaMatriz], [EscolheRota] *)

(** X1. [MaxQ] raises [ValueError] on an empty vector; on any other it
    returns the position of the first of the greatest entries. *)
Theorem MaxQ_primeiro_maximo (acoes : list val) :
  match acoes with
  | [] => MaxQ acoes = Err ValueError
  | _ :: _ => exists j, MaxQ acoes = Ok j /\ primeiro_maximo acoes j
  end.
Proof.
  destruct acoes as [|x acoes]; [reflexivity|].
  destruct (MaxQ_existe (x :: acoes)) as [j Hj]; [discriminate|].
  exists j. split; [exact Hj|]. apply MaxQ_Ok. exact Hj.
Qed.

(** X2. On visit counts that are not negative the learning rate is defined,
    lies in [(0, 1]] and goes down when the count goes up. *)
Theorem TaxaAprendizagem_decrescente (n m : Q) :
  (0 <= n)%Q -> (n < m)%Q ->
  exists a b,
    TaxaAprendizagem n = Ok a /\ TaxaAprendizagem m = Ok b /\
    (b < a)%Q /\ (0 < b)%Q /\ (a <= 1)%Q.
Proof.
  intros Hn Hm. unfold TaxaAprendizagem.
  destruct (Qeq_bool (1 + n) 0) eqn:En; [apply Qeq_bool_iff in En; lra|].
  destruct (Qeq_bool (1 + m) 0) eqn:Em; [apply Qeq_bool_iff in Em; lra|].
  eexists. eexists. split; [reflexivity|]. split; [reflexivity|].
  unfold Qdiv. rewrite !Qmult_1_l. split; [|split].
  - apply (proj1 (Qinv_lt_contravar (1 + n) (1 + m) ltac:(lra) ltac:(lra))).
    lra.
  - apply Qinv_lt_0_compat. lra.
  - apply Qle_shift_inv_r; lra.
Qed.

Lemma minimo_corrente_menor (l : list Z) (y : Z) :
  let r := fold_left (fun m x => if x <? m then x else m) l y in
  r <= y /\ forall x, x ∈ l -> r <= x.
Proof.
  revert y. induction l as [|x l IH]; intros y; simpl.
  - split; [lia|]. intros x Hx. inversion Hx.
  - destruct (x <? y) eqn:E.
    + apply Z.ltb_lt in E. destruct (IH x) as [H1 H2]. split; [lia|].
      intros z Hz. inversion Hz; subst; auto.
    + apply Z.ltb_ge in E. destruct (IH y) as [H1 H2]. split; [lia|].
      intros z Hz. inversion Hz; subst; [lia|auto].
Qed.

Lemma index_Z_Ok (x : Z) (l : list Z) (i : nat) :
  index_Z x l = Ok i ->
  l !! i = Some x /\ forall k y, (k < i)%nat -> l !! k = Some y -> y <> x.
Proof.
  revert i. induction l as [|z l IH]; intros i H; simpl in H; [discriminate|].
  destruct (z =? x) eqn:E.
  - inversion H; subst. apply Z.eqb_eq in E. subst. split; [reflexivity|].
    intros k y Hk. lia.
  - desfaz H. inversion H; subst.
    match goal with E0 : index_Z _ _ = Ok ?i0 |- _ =>
      destruct (IH _ E0) as [Hi Hmin] end.
    split; [exact Hi|]. apply Z.eqb_neq in E.
    intros [|k] y Hk Hy; simpl in Hy.
    + inversion Hy; subst. exact E.
    + apply (Hmin k); [lia|exact Hy].
Qed.

(** X4. [EscolheRota] raises [ValueError] when there is no route; else it
    returns the first of the routes with the least demand. *)
Theorem EscolheRota_menos_carregada (rs : list Rota.t) :
  match rs with
  | [] => EscolheRota rs = Err ValueError
  | _ :: _ =>
      exists v r,
        EscolheRota rs = Ok v /\ rs !! v = Some r /\
        (forall k r', rs !! k = Some r' ->
           Rota.Demanda r <= Rota.Demanda r') /\
        (forall k r', (k < v)%nat -> rs !! k = Some r' ->
           Rota.Demanda r < Rota.Demanda r')
  end.
Proof.
  destruct rs as [|r0 rs]; [reflexivity|].
  set (l := r0 :: rs).
  destruct (EscolheRota_existe l) as (v & Hv & Hvl); [discriminate|].
  destruct (lookup_lt_is_Some_2 l v Hvl) as [r Hr].
  exists v, r. split; [exact Hv|]. split; [exact Hr|].
  unfold EscolheRota in Hv. desfaz Hv.
  match goal with E : min_Z _ = Ok ?m |- _ => rename m into mn, E into Hmin end.
  apply index_Z_Ok in Hv as [Hi Hprim].
  rewrite list_lookup_fmap, Hr in Hi. simpl in Hi. inversion Hi as [Hd].
  assert (Hle : forall y, y ∈ map Rota.Demanda l -> Rota.Demanda r <= y).
  { unfold l in *. simpl in Hmin. inversion Hmin as [Hm].
    destruct (minimo_corrente_menor (map Rota.Demanda rs) (Rota.Demanda r0))
      as [H1 H2].
    intros y Hy. rewrite Hd, <- Hm. simpl in Hy.
    inversion Hy; subst; [exact H1|apply H2; assumption]. }
  assert (Hin : forall k r', l !! k = Some r' ->
            Rota.Demanda r' ∈ map Rota.Demanda l).
  { intros k r' Hk. apply (list_elem_of_lookup_2 _ k).
    rewrite list_lookup_fmap, Hk. reflexivity. }
  split.
  - intros k r' Hk. apply Hle. eapply Hin. exact Hk.
  - intros k r' Hkv Hk.
    assert (Rota.Demanda r' <> mn).
    { apply (Hprim k); [exact Hkv|]. rewrite list_lookup_fmap, Hk. reflexivity. }
    specialize (Hle _ (Hin _ _ Hk)). lia.
Qed.

(** ** [AtualizaRota] *)

(** X5. [AtualizaRota] raises [IndexError] unless the state and the action
    are nodes of the environment; when they are, the leg it measures is as
    long from the action to the state as from the state to the action, and
    the route it is given does not matter to the length. *)
Theorem AtualizaRota_simetrica (rota rota2 : Rota.t) (s a : nat) :
  if decide (s < length (Estados ambiente)
             /\ a < length (Estados ambiente))%nat
  then exists rota' rota2' d,
         AtualizaRota' rota s a = Ok (rota', d) /\
         AtualizaRota' rota2 a s = Ok (rota2', d)
  else AtualizaRota' rota s a = Err IndexError.
Proof.
  unfold AtualizaRota. destruct (decide _) as [[Hs Ha]|Hn].
  - destruct (get_menor _ _ Hs) as (e & He & _).
    destruct (get_menor _ _ Ha) as (e' & He' & _).
    rewrite He, He'. simpl.
    eexists. eexists. eexists. split; [reflexivity|].
    do 2 f_equal. f_equal.
    f_equal; f_equal; lia.
  - unfold get. destruct (decide (s < length (Estados ambiente))%nat) as [Hs|Hs].
    + destruct (lookup_lt_is_Some_2 _ _ Hs) as [e He]. rewrite He. simpl.
      assert (Hna : Estados ambiente !! a = None)
        by (apply lookup_ge_None; lia).
      rewrite Hna. reflexivity.
    + assert (Hns : Estados ambiente !! s = None)
        by (apply lookup_ge_None; lia).
      rewrite Hns. reflexivity.
Qed.

(** ** [ValidaAcoes] and [Politica] *)

Lemma ValidaAcoes_de_erros (i : nat) (ap : list val) (vis : list bool)
    (dem : Z) (amb : Ambiente) (dyn : bool) :
  match ValidaAcoes_de i ap vis dem amb dyn with
  | Ok _ =>
      forall k, (k < length ap)%nat ->
        acao_invalida vis dem amb dyn (i + k) <> None
  | Err e =>
      e = IndexError /\
      exists k, (k < length ap)%nat /\
        acao_invalida vis dem amb dyn (i + k) = None
  | Timeout => False
  end.
Proof.
  revert i. induction ap as [|x ap IH]; intros i; simpl.
  - intros k Hk. lia.
  - specialize (IH (S i)). unfold get, acao_invalida in *.
    assert (Hcaso : forall b,
      acao_invalida vis dem amb dyn i = Some b ->
      match
        (let* (acoes, permissao) := ValidaAcoes_de (S i) ap vis dem amb dyn in
         Ok (if b then (NInf :: acoes, 0 :: permissao)
             else (x :: acoes, 1 :: permissao)))
      with
      | Ok _ =>
          forall k, (k < S (length ap))%nat ->
            acao_invalida vis dem amb dyn (i + k) <> None
      | Err e =>
          e = IndexError /\
          exists k, (k < S (length ap))%nat /\
            acao_invalida vis dem amb dyn (i + k) = None
      | Timeout => False
      end).
    { intros b Hb. unfold acao_invalida in *.
      destruct (ValidaAcoes_de (S i) ap vis dem amb dyn) as [[a p]|e|]; simpl.
      - intros [|k] Hk.
        + rewrite Nat.add_0_r, Hb. discriminate.
        + replace (i + S k)%nat with (S i + k)%nat by lia. apply IH. lia.
      - destruct IH as [-> (k & Hk & Hnone)]. split; [reflexivity|].
        exists (S k). split; [lia|].
        replace (i + S k)%nat with (S i + k)%nat by lia. exact Hnone.
      - exact IH. }
    unfold acao_invalida in Hcaso.
    destruct (vis !! i) as [[|]|] eqn:Hv; simpl.
    + apply (Hcaso true). reflexivity.
    + destruct (Estados amb !! i) as [e|] eqn:He; simpl.
      * apply (Hcaso ((Capacidade amb <? dem + Estado.Demanda e) && dyn)).
        reflexivity.
      * split; [reflexivity|]. exists O. split; [lia|].
        rewrite Nat.add_0_r, Hv, He. reflexivity.
    + split; [reflexivity|]. exists O. split; [lia|].
      rewrite Nat.add_0_r, Hv. reflexivity.
Qed.

(** X6. [ValidaAcoes] raises nothing but [IndexError], and raises it when
    and only when some position of the vector of values has no visited mark,
    or is not visited and has no node.  The kind of fleet makes no
    difference: the demand of the node is read before [VeiculosDinamicos]
    is looked at, and the node of a visited position is never read. *)
Theorem ValidaAcoes_erros (acoesPossiveis : list val)
    (listEstadosVisitados : list bool) (demandaRotaAcumulada : Z)
    (ambiente0 : Ambiente) (VeiculosDinamicos : bool) :
  match
    ValidaAcoes acoesPossiveis listEstadosVisitados demandaRotaAcumulada
      ambiente0 VeiculosDinamicos
  with
  | Ok _ =>
      forall k, (k < length acoesPossiveis)%nat ->
        acao_invalida listEstadosVisitados demandaRotaAcumulada ambiente0
          VeiculosDinamicos k <> None
  | Err e =>
      e = IndexError /\
      exists k, (k < length acoesPossiveis)%nat /\
        acao_invalida listEstadosVisitados demandaRotaAcumulada ambiente0
          VeiculosDinamicos k = None
  | Timeout => False
  end.
Proof.
  exact (ValidaAcoes_de_erros O acoesPossiveis listEstadosVisitados
           demandaRotaAcumulada ambiente0 VeiculosDinamicos).
Qed.

(** X7. On the output of [ValidaAcoes] for a row of the table, when some
    action is legal [Politica] returns a legal one: a node that is not
    visited and, with a dynamic fleet, whose demand the route can take. *)
Theorem Politica_so_legais (u r eps : Q) (linha : list Q) (vis : list bool)
    (dem : Z) (amb : Ambiente) (dyn : bool) (acoes : list val)
    (perm : list Z) (k a : nat) :
  ValidaAcoes (Fin <$> linha) vis dem amb dyn = Ok (acoes, perm) ->
  perm !! k = Some 1 ->
  (0 <= r)%Q ->
  Politica u r eps acoes perm = Ok a ->
  perm !! a = Some 1 /\ vis !! a = Some false /\
  exists e, Estados amb !! a = Some e /\
    (dyn = true -> dem + Estado.Demanda e <= Capacidade amb).
Proof.
  intros Hval Hk Hr Hpol.
  pose proof (ValidaAcoes_mascarada _ _ _ _ _ _ _ Hval) as Hm.
  assert (Hpa : perm !! a = Some 1 /\ exists q, acoes !! a = Some (Fin q)).
  { destruct (Politica_escolha _ _ _ _ _ _ Hm Hr Hpol)
      as [Hp|(_ & Hall & _)]; [exact Hp|].
    destruct (mascarada_um acoes perm k 1 Hm Hk) as [_ (q & Hq)]; [lia|].
    eapply Forall_lookup_1 in Hall; [|exact Hq]. discriminate. }
  destruct Hpa as [Hpa (q & Hq)]. split; [exact Hpa|].
  apply ValidaAcoes_de_Ok in Hval as (Hl1 & _ & Hidx).
  destruct (lookup_lt_is_Some_2 (Fin <$> linha) a) as [y Hy].
  { rewrite <- Hl1. eapply lookup_lt_Some. exact Hq. }
  destruct (Hidx a y Hy) as (b & Hb & _ & Hpb). simpl in Hb.
  rewrite Hpa in Hpb. destruct b; [discriminate|].
  unfold acao_invalida in Hb.
  destruct (vis !! a) as [[|]|]; try discriminate.
  split; [reflexivity|].
  destruct (Estados amb !! a) as [e|]; [|discriminate].
  exists e. split; [reflexivity|]. intros ->.
  inversion Hb as [Hb']. rewrite andb_true_r in Hb'.
  apply Z.ltb_ge in Hb'. exact Hb'.
Qed.

Lemma val_eqb_trans (x y z : val) :
  val_eqb x y = true -> val_eqb y z = true -> val_eqb x z = true.
Proof.
  destruct x, y, z; simpl; try congruence. apply Qeq_bool_trans.
Qed.

(** X8. Whatever the draws, [Politica] never returns a position whose value
    is also the value of an earlier position: of the actions with the same
    value, only the first can be chosen. *)
Theorem Politica_nunca_o_segundo (u r eps : Q) (acoes : list val)
    (perm : list Z) (i j : nat) (x y : val) :
  (i < j)%nat -> acoes !! i = Some x -> acoes !! j = Some y ->
  val_eqb x y = true ->
  Politica u r eps acoes perm <> Ok j.
Proof.
  intros Hij Hi Hj Hxy Hpol.
  assert (Hidx : exists v, index v acoes = Ok j).
  { unfold Politica in Hpol. destruct (Qlt_bool eps u); abre Hpol; eauto. }
  destruct Hidx as [v Hv].
  apply index_Ok in Hv as [(y' & Hy' & Hyv) Hmin].
  rewrite Hj in Hy'. inversion Hy'; subst y'.
  specialize (Hmin i x Hij Hi).
  rewrite (val_eqb_trans _ _ _ Hxy Hyv) in Hmin. discriminate.
Qed.

(** ** The best result of a run *)

Lemma execucao_menor (duplo fixo : bool) (fuel epocas i : nat) (m m' : Memoria)
    (anterior b : option (val * list Rota.t)) (resultados res : list val) :
  execucao' duplo fixo fuel epocas i m anterior resultados = Ok (b, res, m') ->
  i = length resultados ->
  (resultados = [] \/
   exists d rs, anterior = Some (d, rs) /\ d ∈ resultados /\
     forall x, x ∈ resultados -> val_ltb x d = false) ->
  length res = (length resultados + epocas)%nat /\
  (res = [] \/
   exists d rs, b = Some (d, rs) /\ d ∈ res /\
     forall x, x ∈ res -> val_ltb x d = false).
Proof.
  revert i m anterior resultados.
  induction epocas as [|epocas IH]; intros i m anterior resultados H Hi Hinv;
    simpl in H.
  - inversion H; subst. split; [lia|exact Hinv].
  - abre H.
    match goal with E : episodio' _ _ _ _ = Ok (?m1, ?T) |- _ =>
      rename m1 into m1_, T into T_ end.
    destruct (melhor anterior i T_ (rotas m1_)) as [[d rs]|] eqn:Hmel;
      [|discriminate].
    apply IH in H.
    + destruct H as [Hlen Hres]. rewrite length_app in Hlen. simpl in Hlen.
      split; [lia|exact Hres].
    + rewrite length_app. simpl. lia.
    + right. exists d, rs. split; [reflexivity|].
      unfold melhor in Hmel.
      destruct (decide (i = O)) as [Hz|Hz].
      * rewrite val_ltb_irrefl in Hmel. inversion Hmel; subst d rs.
        assert (resultados = []) by (destruct resultados; [reflexivity|simpl in Hi; lia]).
        subst resultados. simpl. split; [left|].
        intros x Hx. apply list_elem_of_singleton in Hx. subst.
        apply val_ltb_irrefl.
      * destruct Hinv as [->|(d0 & rs0 & -> & Hd0 & Hmin)];
          [simpl in Hi; lia|].
        destruct (val_ltb T_ d0) eqn:Hlt; inversion Hmel; subst d rs.
        -- split; [apply elem_of_app; right; left|].
           intros x Hx. apply elem_of_app in Hx as [Hx|Hx].
           ++ eapply val_nao_menor_trans; [|apply Hmin; exact Hx].
              apply val_ltb_nao_menor. exact Hlt.
           ++ apply list_elem_of_singleton in Hx. subst. apply val_ltb_irrefl.
        -- split; [apply elem_of_app; left; exact Hd0|].
           intros x Hx. apply elem_of_app in Hx as [Hx|Hx]; [auto|].
           apply list_elem_of_singleton in Hx. subst. exact Hlt.
Qed.

(** X9. When a run of any of the four variants returns, it made at least
    one episode, its list of results has one distance for each episode,
    and the distance it reports as the best is one of them, with none below
    it. *)
Theorem menor_distancia_minima (duplo fixo : bool) (fuel epocas : nat)
    (menorDistancia : val) (menorRotas : list Rota.t)
    (resultados : list val) :
  algoritmo sqrt ambiente par acaso duplo fixo fuel epocas
    = Ok (menorDistancia, menorRotas, resultados) ->
  epocas <> O /\ length resultados = epocas /\
  menorDistancia ∈ resultados /\
  forall x, x ∈ resultados -> val_ltb x menorDistancia = false.
Proof.
  unfold algoritmo. intros H. abre H.
  match goal with E : execucao' _ _ _ _ _ _ _ _ = Ok (?b, ?res, _) |- _ =>
    destruct (execucao_menor _ _ _ _ _ _ _ _ _ _ _ E eq_refl
                (or_introl eq_refl)) as [Hlen Hres];
    rename b into b_, E into Hexe
  end.
  destruct b_ as [[d rs]|]; [|discriminate]. inversion H; subst.
  simpl in Hlen. destruct Hres as [->|(d' & rs' & Heq & Hin & Hmin)].
  - simpl in Hlen. subst epocas. simpl in Hexe. discriminate.
  - inversion Heq; subst d' rs'.
    split; [|split; [exact Hlen|split; assumption]].
    intros ->. destruct resultados; [inversion Hin|discriminate].
Qed.

(** ** The route ledger *)

(** What a turn of the loop leaves in the variables of the run. *)
Lemma passo_detalhe (duplo fixo : bool) (m m' : Memoria) :
  passo' duplo fixo m = Ok m' ->
  exists v s rota rota' a dist,
    rotas m !! v = Some rota /\
    (if fixo then last (Rota.Consumidores rota) = Some s
     else v = veiculo m /\ s = estado m) /\
    AtualizaRota' rota s a = Ok (rota', dist) /\
    (a < length (listEstadosVisitados m))%nat /\
    incrementa (QVisitas m) s a = Ok (QVisitas m') /\
    acao m' = a /\
    estado m' = (if fixo then s else a) /\
    let novo :=
      negb fixo && bool_decide (a = O)
      && negb (bool_decide
                 (count_False (<[a := true]> (listEstadosVisitados m)) = O)) in
    veiculo m' = (if novo then S v else v) /\
    rotas m' =
      (if novo then <[v := rota']> (rotas m) ++ [rota_nova]
       else <[v := rota']> (rotas m)) /\
    listEstadosVisitados m' =
      (if negb fixo && negb (bool_decide (a = O))
       then <[O := false]> (<[a := true]> (listEstadosVisitados m))
       else <[a := true]> (listEstadosVisitados m)).
Proof.
  intros H. unfold passo in H. abre H. nomes_passo.
  apply get_Ok in Hrota_.
  apply set_Ok in Hsr_ as [Hv ->]. apply set_Ok in Hsv_ as [Ha ->].
  exists v_, s_, rota_, rota'_, a_, dist_.
  split; [exact Hrota_|]. split.
  { destruct fixo.
    - abre Hs_. apply ultimo_Ok in Hs_.
      match goal with E : get (rotas m) v_ = Ok ?r |- _ =>
        apply get_Ok in E; rewrite Hrota_ in E; inversion E; subst r end.
      exact Hs_.
    - inversion Hv_. inversion Hs_. auto. }
  split; [exact Hatu_|]. split; [exact Ha|].
  destruct fixo; simpl.
  - inversion H; subst; simpl. auto 10.
  - destruct (decide (a_ <> O)) as [Hne|Heq].
    + abre H.
      match goal with E : set _ O false = Ok _ |- _ =>
        apply set_Ok in E as [_ ->] end.
      inversion H; subst; simpl.
      rewrite bool_decide_eq_false_2 by exact Hne. simpl. auto 10.
    + assert (a_ = O) by (destruct a_; [reflexivity|exfalso; apply Heq; lia]).
      subst a_. rewrite bool_decide_eq_true_2 by reflexivity. simpl.
      destruct (decide (count_False _ <> O)) as [Hc0|Hc0].
      * inversion H; subst; simpl.
        rewrite bool_decide_eq_false_2 by exact Hc0. simpl. auto 10.
      * inversion H; subst; simpl.
        rewrite bool_decide_eq_true_2; [simpl; auto 10|].
        destruct (count_False _); [reflexivity|exfalso; apply Hc0; lia].
Qed.

Lemma fecha_detalhe (duplo : bool) (v : nat) (m m' : Memoria) (T T' : val) :
  fecha' duplo v m T = Ok (m', T') ->
  exists s rota rota' dist,
    rotas m !! v = Some rota /\
    last (Rota.Consumidores rota) = Some s /\
    AtualizaRota' rota s O = Ok (rota', dist) /\
    incrementa (QVisitas m) s O = Ok (QVisitas m') /\
    estado m' = s /\
    rotas m' = <[v := rota']> (rotas m).
Proof.
  unfold fecha. intros H. abre H.
  match goal with
  | Er : get (rotas m) v = Ok ?rota, Eu : ultimo _ = Ok ?s,
    Ea : AtualizaRota' _ _ _ = Ok (?rota', ?d),
    Es : set (rotas m) v _ = Ok _,
    Ei : incrementa (QVisitas m) _ _ = Ok _ |- _ =>
      apply get_Ok in Er; apply ultimo_Ok in Eu;
      apply set_Ok in Es as [_ ->];
      exists s, rota, rota', d
  end.
  inversion H; subst; simpl. auto 10.
Qed.

Lemma demanda_servida_app (l : list nat) (a : nat) :
  demanda_servida ambiente (l ++ [a])
  = demanda_servida ambiente l + demanda_no ambiente a.
Proof.
  unfold demanda_servida. induction l as [|c l IH]; simpl; [lia|].
  rewrite IH. lia.
Qed.

Lemma pernas_app (l : list nat) (s a : nat) :
  last l = Some s ->
  zip (l ++ [a]) (tail (l ++ [a])) = zip l (tail l) ++ [(s, a)].
Proof.
  induction l as [|x l IH]; intros H; [discriminate|].
  destruct l as [|y l].
  - inversion H; subst. reflexivity.
  - change (last (x :: y :: l)) with (last (y :: l)) in H.
    specialize (IH H). simpl in *. f_equal. exact IH.
Qed.

Lemma rota_coerente_estende (rota rota' : Rota.t) (s a : nat) (d : Q) :
  rota_coerente sqrt ambiente rota ->
  last (Rota.Consumidores rota) = Some s ->
  AtualizaRota' rota s a = Ok (rota', d) ->
  rota_coerente sqrt ambiente rota' /\
  last (Rota.Consumidores rota') = Some a.
Proof.
  intros (Hh & Hd & Hc) Hs Hatu.
  pose proof (AtualizaRota_distancia _ _ _ _ _ Hatu) as Hdist.
  destruct (AtualizaRota_Ok _ _ _ _ _ Hatu) as (e & He & _ & Hd' & Hc' & Hcons).
  destruct (Rota.Consumidores rota) as [|c0 l] eqn:El; [discriminate|].
  split; [split; [|split]|].
  - rewrite Hcons. simpl. exact Hh.
  - rewrite Hcons, Hd', Hd. simpl. rewrite demanda_servida_app.
    unfold demanda_no. rewrite He. reflexivity.
  - rewrite Hc', Hc, Hcons. unfold custo_percurso.
    rewrite (pernas_app (c0 :: l) s a Hs), fold_left_app. simpl.
    rewrite Hdist. reflexivity.
  - rewrite Hcons. apply last_snoc.
Qed.

Lemma rota_nova_coerente : rota_coerente sqrt ambiente rota_nova.
Proof. repeat split. Qed.

Lemma passo_coerente (duplo fixo : bool) (m m' : Memoria) :
  passo' duplo fixo m = Ok m' ->
  Forall (rota_coerente sqrt ambiente) (rotas m) -> em_curso fixo m ->
  Forall (rota_coerente sqrt ambiente) (rotas m') /\ em_curso fixo m'.
Proof.
  intros H Hco Hem.
  destruct (passo_detalhe _ _ _ _ H)
    as (v & s & rota & rota' & a & dist & Hv & Hs & Hatu & Ha & _ & _ & Hest
        & Hvei & Hr & Hvis).
  assert (Hvl : (v < length (rotas m))%nat)
    by (eapply lookup_lt_Some; exact Hv).
  assert (Hlast : last (Rota.Consumidores rota) = Some s).
  { destruct fixo; [exact Hs|]. destruct Hs as [-> ->].
    destruct (Hem eq_refl) as (_ & Hk & _).
    destruct (Hk _ _ Hv) as [_ Hk']. apply Hk'. reflexivity. }
  destruct (rota_coerente_estende rota rota' s a dist) as [Hco' Hlast'];
    [eapply Forall_lookup_1; eassumption|exact Hlast|exact Hatu|].
  assert (Hins : Forall (rota_coerente sqrt ambiente)
                   (<[v := rota']> (rotas m)))
    by (apply Forall_insert; assumption).
  split.
  - rewrite Hr.
    match goal with |- context [if ?b then _ else _] => destruct b end;
      [|exact Hins].
    apply Forall_app. split; [exact Hins|].
    apply Forall_singleton. apply rota_nova_coerente.
  - intros ->. simpl in *. destruct Hs as [-> ->].
    destruct (Hem eq_refl) as (Hsv & Hk & Hdep).
    destruct (decide (a = O)) as [->|Hne].
    + rewrite bool_decide_eq_true_2 in * by reflexivity. simpl in *.
      destruct (bool_decide (count_False _ = O)) eqn:Hcf; simpl in *.
      * rewrite Hvei, Hr, Hest, length_insert.
        split; [exact Hsv|]. split; [|reflexivity].
        intros k r Hkr. destruct (decide (k = veiculo m)) as [->|Hkv].
        -- rewrite list_lookup_insert_eq in Hkr by exact Hvl.
           inversion Hkr; subst r. split; [lia|]. intros _. exact Hlast'.
        -- rewrite list_lookup_insert_ne in Hkr by lia.
           destruct (Hk _ _ Hkr) as [Hk1 _]. split; [|lia].
           intros Hlt. apply Hk1. lia.
      * rewrite Hvei, Hr, Hest, length_app, length_insert. simpl.
        split; [lia|]. split; [|reflexivity].
        intros k r Hkr.
        destruct (decide (k < length (rotas m))%nat) as [Hkl|Hkl].
        -- rewrite lookup_app_l in Hkr by (rewrite length_insert; exact Hkl).
           split; [|lia]. intros _.
           destruct (decide (k = veiculo m)) as [->|Hkv].
           ++ rewrite list_lookup_insert_eq in Hkr by exact Hvl.
              inversion Hkr; subst r. exact Hlast'.
           ++ rewrite list_lookup_insert_ne in Hkr by lia.
              destruct (Hk _ _ Hkr) as [Hk1 _]. apply Hk1. lia.
        -- rewrite lookup_app_r in Hkr by (rewrite length_insert; lia).
           rewrite length_insert in Hkr.
           destruct (k - length (rotas m))%nat eqn:Hd; simpl in Hkr;
             [|discriminate].
           inversion Hkr; subst r. split; reflexivity.
    + rewrite bool_decide_eq_false_2 in * by exact Hne. simpl in *.
      rewrite Hvei, Hr, Hest, Hvis, length_insert.
      split; [exact Hsv|]. split.
      * intros k r Hkr. destruct (decide (k = veiculo m)) as [->|Hkv].
        -- rewrite list_lookup_insert_eq in Hkr by exact Hvl.
           inversion Hkr; subst r. split; [lia|]. intros _. exact Hlast'.
        -- rewrite list_lookup_insert_ne in Hkr by lia.
           destruct (Hk _ _ Hkr) as [Hk1 _]. split; [|lia].
           intros Hlt. apply Hk1. lia.
      * intros Hdep'. exfalso.
        rewrite list_lookup_insert_eq in Hdep'
          by (rewrite length_insert; lia).
        discriminate.
Qed.

Lemma laco_coerente (duplo fixo : bool) (fuel : nat) (m m' : Memoria) :
  laco' duplo fixo fuel m = Ok m' ->
  Forall (rota_coerente sqrt ambiente) (rotas m) -> em_curso fixo m ->
  Forall (rota_coerente sqrt ambiente) (rotas m') /\ em_curso fixo m' /\
  count_False (listEstadosVisitados m') = O /\
  length (listEstadosVisitados m') = length (listEstadosVisitados m) /\
  (fixo = true -> length (rotas m') = length (rotas m)).
Proof.
  revert m. induction fuel as [|fuel IH]; intros m H Hco Hem; simpl in H;
    destruct (decide (count_False _ = O)) as [Hz|Hz];
    try discriminate; try (inversion H; subst; auto 6; fail).
  desfaz H.
  match goal with E : passo' _ _ _ = Ok ?x |- _ =>
    destruct (passo_coerente _ _ _ _ E Hco Hem) as [Hco' Hem'];
    destruct (IH x H Hco' Hem') as (H1 & H2 & H3 & H4 & H5);
    destruct (passo_detalhe _ _ _ _ E)
      as (v & s & rota & rota' & a & dist & _ & _ & _ & _ & _ & _ & _ & _
          & Hr & Hvis)
  end.
  split; [exact H1|]. split; [exact H2|]. split; [exact H3|]. split.
  - rewrite H4, Hvis.
    match goal with |- context [if ?b then _ else _] => destruct b end;
      rewrite ?length_insert; reflexivity.
  - intros ->. rewrite (H5 eq_refl), Hr. simpl. apply length_insert.
Qed.

Lemma retorno_coerente (duplo : bool) (n v : nat) (m m' : Memoria)
    (T T' : val) :
  retorno' duplo n v m T = Ok (m', T') ->
  Forall (rota_coerente sqrt ambiente) (rotas m) ->
  Forall (rota_coerente sqrt ambiente) (rotas m') /\
  forall k r, (v <= k < v + n)%nat -> rotas m' !! k = Some r ->
    last (Rota.Consumidores r) = Some O.
Proof.
  revert v m T. induction n as [|n IH]; intros v m T H Hco; simpl in H.
  - inversion H; subst. split; [exact Hco|]. intros k r Hk. lia.
  - abre H.
    match goal with E : fecha' _ _ _ _ = Ok (?m1, ?T1) |- _ =>
      destruct (fecha_detalhe _ _ _ _ _ _ E)
        as (s & rota & rota' & dist & Hv & Hs & Hatu & _ & _ & Hr);
      rename m1 into m1_
    end.
    destruct (rota_coerente_estende rota rota' s O dist) as [Hco' Hlast'];
      [eapply Forall_lookup_1; eassumption|exact Hs|exact Hatu|].
    assert (Hvl : (v < length (rotas m))%nat)
      by (eapply lookup_lt_Some; exact Hv).
    assert (Hco1 : Forall (rota_coerente sqrt ambiente) (rotas m1_))
      by (rewrite Hr; apply Forall_insert; assumption).
    destruct (IH _ _ _ H Hco1) as [Hfim Hult].
    split; [exact Hfim|].
    intros k r Hk Hkr. destruct (decide (k = v)) as [->|Hne].
    + destruct (retorno_penalidade _ _ _ _ _ _ _ H) as (_ & Hantes & _).
      rewrite Hantes in Hkr by lia.
      rewrite Hr, list_lookup_insert_eq in Hkr by exact Hvl.
      inversion Hkr; subst r. exact Hlast'.
    + apply (Hult k r); [lia|exact Hkr].
Qed.

(** The routes of an episode that ended: all of them coherent and back at
    the depot. *)
Lemma episodio_coerente (duplo fixo : bool) (fuel : nat) (m m' : Memoria)
    (T : val) :
  episodio' duplo fixo fuel m = Ok (m', T) ->
  Forall
    (fun r => rota_coerente sqrt ambiente r /\
              last (Rota.Consumidores r) = Some O)
    (rotas m') /\
  (fixo = true -> length (rotas m') = Z.to_nat (Veiculos ambiente)).
Proof.
  intros H. unfold episodio in H. abre H.
  match goal with
  | Ei : inicio _ _ _ = Ok ?m0, El : laco' _ _ _ _ = Ok ?m1 |- _ =>
      rename m0 into m0_, m1 into m1_, Ei into Hini, El into Hlaco
  end.
  unfold inicio in Hini. abre Hini.
  match goal with E : set _ O true = Ok _ |- _ =>
    apply set_Ok in E as [HN ->] end.
  rewrite length_replicate in HN.
  inversion Hini; subst m0_; clear Hini.
  destruct (laco_coerente _ _ _ _ _ Hlaco) as (Hco & Hem & Hcf & Hlv & Hlr).
  { simpl. destruct fixo; [|apply Forall_singleton; apply rota_nova_coerente].
    unfold CriaRotas. apply Forall_replicate. apply rota_nova_coerente. }
  { intros ->. simpl. split; [reflexivity|]. split; [|reflexivity].
    intros [|k] r Hk; simpl in Hk; [|discriminate].
    inversion Hk; subst. split; [lia|reflexivity]. }
  destruct fixo.
  - destruct (retorno_coerente _ _ _ _ _ _ _ H Hco) as [Hfim Hult].
    destruct (retorno_penalidade _ _ _ _ _ _ _ H) as (Hlen & _).
    split.
    + apply Forall_lookup. intros k r Hk. split.
      * eapply Forall_lookup_1; eassumption.
      * apply (Hult k r); [|exact Hk]. apply lookup_lt_Some in Hk. lia.
    + intros _. rewrite Hlen, (Hlr eq_refl). simpl. unfold CriaRotas.
      apply length_replicate.
  - split; [|discriminate].
    inversion H; subst. destruct (Hem eq_refl) as (Hsv & Hk & Hdep).
    assert (Hest : estado m' = O).
    { apply Hdep. apply count_False_zero; [exact Hcf|].
      rewrite Hlv. simpl. rewrite length_insert, length_replicate.
      exact HN. }
    apply Forall_lookup. intros k r Hkr. split.
    + eapply Forall_lookup_1; eassumption.
    + destruct (Hk _ _ Hkr) as [Hk1 Hk2].
      destruct (decide (k = veiculo m')) as [->|Hne].
      * rewrite Hk2 by reflexivity. rewrite Hest. reflexivity.
      * apply Hk1. apply lookup_lt_Some in Hkr. lia.
Qed.

(** X10. When an episode of any of the four algorithms ends, every route
    starts at the depot and ends at the depot. *)
Theorem rotas_saem_e_voltam_ao_deposito (duplo fixo : bool) (fuel : nat)
    (m m' : Memoria) (T : val) :
  episodio' duplo fixo fuel m = Ok (m', T) ->
  forall r, r ∈ rotas m' ->
    head (Rota.Consumidores r) = Some O /\
    last (Rota.Consumidores r) = Some O.
Proof.
  intros H r Hr.
  destruct (episodio_coerente _ _ _ _ _ _ H) as [Hf _].
  rewrite Forall_forall in Hf. destruct (Hf r Hr) as [(Hh & _) Hl]. auto.
Qed.

(** X11. When an episode ends, the ledger of every route agrees with its
    node sequence: [Demanda] is the sum of the demands of the nodes after
    the first, and [Custo] is the sum of the lengths of its legs, added in
    the order of travel. *)
Theorem livro_das_rotas (duplo fixo : bool) (fuel : nat) (m m' : Memoria)
    (T : val) :
  episodio' duplo fixo fuel m = Ok (m', T) ->
  forall r, r ∈ rotas m' ->
    Rota.Demanda r = demanda_servida ambiente (tail (Rota.Consumidores r)) /\
    Rota.Custo r = custo_percurso sqrt ambiente (Rota.Consumidores r).
Proof.
  intros H r Hr.
  destruct (episodio_coerente _ _ _ _ _ _ H) as [Hf _].
  rewrite Forall_forall in Hf. destruct (Hf r Hr) as [(_ & Hd & Hc) _]. auto.
Qed.

Lemma soma_finita (rs : list Rota.t) (x : Q) :
  fold_left (fun T r => val_mais T (Rota.Custo r)) rs (Fin x)
  = Fin (fold_left (fun acc r => (acc + Rota.Custo r)%Q) rs x).
Proof.
  revert x. induction rs as [|r rs IH]; intros x; simpl; [reflexivity|].
  apply IH.
Qed.

Lemma soma_dinamica_sem_penalidade (todas resto : list Rota.t) (T : val) :
  Z.of_nat (length todas) <= Veiculos ambiente ->
  soma_dinamica ambiente todas resto T
  = fold_left (fun T r => val_mais T (Rota.Custo r)) resto T.
Proof.
  intros HK. revert T. induction resto as [|r resto IH]; intros T; simpl;
    [reflexivity|].
  destruct (Z.ltb_spec (Veiculos ambiente) (Z.of_nat (length todas)));
    [lia|]. apply IH.
Qed.

Lemma retorno_soma (duplo : bool) (n v : nat) (m m' : Memoria) (T T' : val) :
  retorno' duplo n v m T = Ok (m', T') ->
  (v + n = length (rotas m))%nat ->
  (forall k r, (v <= k)%nat -> rotas m' !! k = Some r ->
     Rota.Demanda r <= Capacidade ambiente) ->
  T' = fold_left (fun T r => val_mais T (Rota.Custo r))
         (drop v (rotas m')) T.
Proof.
  revert v m T. induction n as [|n IH]; intros v m T H Hlen Hcap;
    simpl in H.
  - inversion H; subst. rewrite drop_ge by lia. reflexivity.
  - abre H.
    match goal with E : fecha' _ _ _ _ = Ok (?m1, ?T1) |- _ =>
      destruct (fecha_rotas _ _ _ _ _ _ E)
        as (rota & rota' & e & Hv & _ & _ & _ & Hr & _ & HT);
      rename m1 into m1_, T1 into T1_
    end.
    destruct (retorno_penalidade _ _ _ _ _ _ _ H) as (_ & Hantes & _).
    assert (Hvl : (v < length (rotas m))%nat)
      by (eapply lookup_lt_Some; exact Hv).
    assert (Hv' : rotas m' !! v = Some rota').
    { rewrite Hantes by lia. rewrite Hr.
      apply list_lookup_insert_eq. exact Hvl. }
    assert (HT' := IH (S v) m1_ T1_ H).
    rewrite HT'.
    + rewrite (drop_S _ _ _ Hv'). simpl. f_equal. rewrite HT.
      destruct (Z.ltb_spec (Capacidade ambiente) (Rota.Demanda rota'));
        [|reflexivity].
      specialize (Hcap v rota' ltac:(lia) Hv'). lia.
    + rewrite Hr, length_insert. lia.
    + intros k r Hk. apply Hcap. lia.
Qed.

(** X12. When an episode ends without a violation (fixed fleet: no route
    over the capacity; dynamic fleet: no more routes than vehicles), its
    [distanciaTotal] is finite and is the sum of the costs of its routes,
    added from 0 in the order of the list. *)
Theorem distanciaTotal_soma_dos_custos (duplo fixo : bool) (fuel : nat)
    (m m' : Memoria) (T : val) :
  episodio' duplo fixo fuel m = Ok (m', T) ->
  (if fixo
   then Forall (fun r => Rota.Demanda r <= Capacidade ambiente) (rotas m')
   else Z.of_nat (length (rotas m')) <= Veiculos ambiente) ->
  T = Fin (custo_total (rotas m')).
Proof.
  intros H Hsem. unfold custo_total. rewrite <- soma_finita.
  unfold episodio in H. abre H. destruct fixo.
  - rewrite (retorno_soma _ _ _ _ _ _ _ H); [reflexivity|lia|].
    intros k r _ Hk. eapply Forall_lookup_1 in Hsem; [exact Hsem|exact Hk].
  - inversion H; subst. apply soma_dinamica_sem_penalidade. exact Hsem.
Qed.

(** X13. A fixed-fleet episode that ends leaves exactly as many routes as
    the environment has vehicles, whatever the customers. *)
Theorem frota_fixa_numero_de_rotas (duplo : bool) (fuel : nat)
    (m m' : Memoria) (T : val) :
  episodio' duplo true fuel m = Ok (m', T) ->
  length (rotas m') = Z.to_nat (Veiculos ambiente).
Proof.
  intros H. destruct (episodio_coerente _ _ _ _ _ _ H) as [_ Hn].
  apply Hn. reflexivity.
Qed.

(** ** The dynamic fleet below the demands *)

Lemma passo_bloqueada (duplo : bool) (m m' : Memoria) :
  ambiente_apertado ambiente -> acaso_valido acaso ->
  passo' duplo false m = Ok m' -> bloqueada m -> bloqueada m'.
Proof.
  intros (HN & (e0 & He0 & Hd0) & Hcap & HK & Hap) Hac H
    (Hsv & (r0 & Hr0 & Hdem) & Hdep & Hcf).
  destruct (passo_rotas _ _ _ _ Hac H)
    as (v & rota & rota' & a & e & Hv & He & Hvv & Ha & Hleg & Hd' & _
        & Hacao & Hr & Hvis).
  destruct (passo_detalhe _ _ _ _ H)
    as (v2 & s2 & rota2 & rota2' & a2 & dist & _ & Hs2 & _ & _ & _ & Hacao2
        & _ & Hvei & _ & _).
  simpl in Hs2, Hvei, Hr, Hvis. destruct Hs2 as [-> _].
  rewrite Hacao in Hacao2. subst a2. clear Hacao.
  specialize (Hvv eq_refl). subst v.
  rewrite Hr0 in Hv. inversion Hv; subst rota.
  assert (Ha0 : a = O).
  { destruct Hleg as [[Hf Hc]|Hz]; [|exact Hz].
    destruct (decide (a = O)) as [Hz|Hnz]; [exact Hz|exfalso].
    specialize (Hap a e Hnz He). specialize (Hc eq_refl). lia. }
  subst a. rewrite He0 in He. inversion He; subst e.
  rewrite bool_decide_eq_true_2 in Hvis, Hr, Hvei by reflexivity.
  simpl in Hvis, Hr, Hvei.
  rewrite (list_insert_id _ _ _ Hdep) in Hvis, Hr, Hvei.
  rewrite bool_decide_eq_false_2 in Hr, Hvei by exact Hcf.
  simpl in Hr, Hvei.
  assert (Hvl : (veiculo m < length (rotas m))%nat) by lia.
  unfold bloqueada. rewrite Hvei, Hr, Hvis, length_app, length_insert.
  split; [simpl; lia|]. split; [|split; assumption].
  exists rota_nova. split; [|reflexivity].
  rewrite lookup_app_r by (rewrite length_insert; lia).
  rewrite length_insert.
  replace (S (veiculo m) - length (rotas m))%nat with O by lia.
  reflexivity.
Qed.

Lemma laco_bloqueada (duplo : bool) (fuel : nat) (m m' : Memoria) :
  ambiente_apertado ambiente -> acaso_valido acaso ->
  bloqueada m -> laco' duplo false fuel m <> Ok m'.
Proof.
  intros Hap Hac. revert m. induction fuel as [|fuel IH]; intros m Hb H;
    simpl in H; pose proof Hb as (_ & _ & _ & Hcf);
    destruct (decide (count_False _ = O)) as [Hz|Hz];
    try contradiction; try discriminate.
  desfaz H.
  match goal with E : passo' _ _ _ = Ok ?x |- _ =>
    apply (IH x (passo_bloqueada _ _ _ Hap Hac E Hb) H) end.
Qed.

Lemma episodio_bloqueado (duplo : bool) (fuel : nat) (m : Memoria)
    (r : Memoria * val) :
  ambiente_apertado ambiente -> acaso_valido acaso ->
  episodio' duplo false fuel m <> Ok r.
Proof.
  intros Hap Hac H. unfold episodio in H. abre H.
  match goal with
  | Ei : inicio _ _ _ = Ok ?m0, El : laco' _ _ _ _ = Ok ?m1 |- _ =>
      rename Ei into Hini, El into Hlaco
  end.
  unfold inicio in Hini. abre Hini.
  match goal with E : set _ O true = Ok _ |- _ =>
    apply set_Ok in E as [HN ->] end.
  inversion Hini; subst; clear Hini.
  apply (laco_bloqueada _ _ _ _ Hap Hac) in Hlaco; [exact Hlaco|].
  destruct Hap as (HN2 & _).
  unfold bloqueada; simpl. split; [reflexivity|].
  split; [exists rota_nova; split; reflexivity|].
  destruct (length (Estados ambiente)) as [|[|n]] eqn:En; [lia|lia|].
  split; [reflexivity|].
  change (<[O := true]> (replicate (S (S n)) false))
    with (true :: false :: replicate n false).
  unfold count_False. rewrite filter_cons_False by discriminate.
  rewrite filter_cons_True by reflexivity. discriminate.
Qed.

(** X14. In an environment whose capacity is below the demand of every
    customer, the two dynamic-fleet algorithms never return a result,
    whatever the number of episodes and of turns: no customer is ever
    legal, so a turn that succeeds goes from the depot to the depot and
    opens a new, empty route, and the loop of the first episode does not
    end. *)
Theorem frota_dinamica_abaixo_da_demanda_nao_termina (duplo : bool)
    (fuel epocas : nat) (resultado : val * list Rota.t * list val) :
  ambiente_apertado ambiente -> acaso_valido acaso ->
  algoritmo sqrt ambiente par acaso duplo false fuel epocas
    <> Ok resultado.
Proof.
  intros Hap Hac H. unfold algoritmo in H. abre H.
  match goal with E : execucao' _ _ _ _ _ _ _ _ = Ok _ |- _ =>
    rename E into Hexe end.
  destruct epocas as [|epocas]; simpl in Hexe.
  - inversion Hexe; subst. discriminate.
  - abre Hexe.
    match goal with E : episodio' _ _ _ _ = Ok _ |- _ =>
      exact (episodio_bloqueado _ _ _ _ Hap Hac E) end.
Qed.

(** ** The visit counts *)

(** X15. A turn of the loop counts one visit: it adds 1 to the entry of
    [QVisitas] at the state the move leaves from and the action taken, and
    changes no other entry. *)
Theorem passo_conta_uma_visita (duplo fixo : bool) (m m' : Memoria) :
  passo' duplo fixo m = Ok m' ->
  exists s x,
    (fixo = false -> s = estado m) /\
    (fixo = true -> s = estado m') /\
    entrada (QVisitas m) s (acao m') = Some x /\
    forall i j,
      entrada (QVisitas m') i j
      = if decide ((i, j) = (s, acao m')) then Some (x + 1)%Q
        else entrada (QVisitas m) i j.
Proof.
  intros H.
  destruct (passo_detalhe _ _ _ _ H)
    as (v & s & rota & rota' & a & dist & _ & Hs & _ & _ & Hinc & Hacao
        & Hest & _).
  unfold incrementa in Hinc. desfaz Hinc.
  match goal with E : get2 _ _ _ = Ok ?y |- _ =>
    apply get2_Ok in E; rename E into Hx; rename y into x_ end.
  apply set2_Ok in Hinc as (linha & Hl & Hj & HM).
  exists s, x_. rewrite Hacao.
  split; [intros ->; destruct Hs as [_ ->]; reflexivity|].
  split; [intros ->; exact (eq_sym Hest)|].
  split; [exact Hx|].
  intros i j. rewrite HM. destruct (decide ((i, j) = (s, a))) as [E|E].
  - inversion E; subst i j. apply entrada_insert_eq; assumption.
  - apply entrada_insert_ne; assumption.
Qed.

(** ** The entries a step learns on *)

Lemma percorre_fora (ps : list (nat * nat)) (alvo visitas eleg : matriz)
    (s a : nat) (dist fut : Q) (alvo' eleg' : matriz) :
  percorre ambiente par ps alvo visitas eleg s a dist fut
    = Ok (alvo', eleg') ->
  forall i j, (i, j) ∉ ps ->
    entrada alvo' i j = entrada alvo i j /\
    entrada eleg' i j = entrada eleg i j.
Proof.
  revert alvo eleg. induction ps as [|[u v] ps IH];
    intros alvo eleg H i j Hn; simpl in H.
  - inversion H; subst. auto.
  - abre H. rewrite elem_of_cons in Hn.
    match goal with
    | E1 : set2 alvo u v _ = Ok ?A, E2 : set2 eleg u v _ = Ok ?E |- _ =>
        apply set2_Ok in E1 as (l1 & Hl1 & Hj1 & ->);
        apply set2_Ok in E2 as (l2 & Hl2 & Hj2 & ->)
    end.
    destruct (IH _ _ H i j) as [HA HE]; [intros Hin; apply Hn; right; exact Hin|].
    rewrite HA, HE.
    split; apply entrada_insert_ne; try assumption;
      intros Hij; apply Hn; left; exact Hij.
Qed.

Lemma AtualizaQ_fora (alvo visitas eleg : matriz) (rota : Rota.t)
    (s a : nat) (dist fut : Q) (alvo' eleg' : matriz) :
  AtualizaQ ambiente par alvo visitas eleg rota s a dist fut
    = Ok (alvo', eleg') ->
  forall i j, (i, j) <> (s, a) ->
    (i, j) ∉ zip (Rota.Consumidores rota) (tail (Rota.Consumidores rota)) ->
    entrada alvo' i j = entrada alvo i j /\
    entrada eleg' i j = entrada eleg i j.
Proof.
  unfold AtualizaQ. intros H i j Hsa Hn.
  destruct (Qeq_bool (lambd par) 0).
  - abre H.
    match goal with E : set2 alvo s a _ = Ok ?A |- _ =>
      apply set2_Ok in E as (l & Hl & Hj & ->) end.
    inversion H; subst.
    split; [apply entrada_insert_ne; assumption|reflexivity].
  - apply (percorre_fora _ _ _ _ _ _ _ _ _ _ H).
    unfold pares. rewrite elem_of_reverse. exact Hn.
Qed.

Lemma credito_fora (duplo : bool) (m : Memoria) (rota : Rota.t)
    (s a : nat) (dist : Q) (fv : matriz -> res Q) (q1 q2 eleg' : matriz) :
  credito' duplo m rota s a dist fv = Ok (q1, q2, eleg') ->
  forall i j, (i, j) <> (s, a) ->
    (i, j) ∉ zip (Rota.Consumidores rota) (tail (Rota.Consumidores rota)) ->
    entrada q1 i j = entrada (Q1 m) i j /\
    entrada q2 i j = entrada (Q2 m) i j /\
    entrada eleg' i j = entrada (QElegibilidade m) i j.
Proof.
  unfold credito. intros H i j Hsa Hn.
  destruct duplo; simpl in H; [destruct (moeda acaso (relogio m))|];
    abre H;
    match goal with E : AtualizaQ _ _ _ _ _ _ _ _ _ _ = Ok _ |- _ =>
      destruct (AtualizaQ_fora _ _ _ _ _ _ _ _ _ _ E i j Hsa Hn) as [HA HE]
    end;
    inversion H; subst; auto.
Qed.

(** X18. Whatever [lambd], a turn of the loop learns along the route it
    extends and nowhere else: an entry that is neither the pair of the
    state and the action of the turn nor a leg of that route keeps its
    value in [Q1], in [Q2] and in the eligibility table. *)
Theorem aprendizagem_so_na_rota (duplo fixo : bool) (m m' : Memoria) :
  passo' duplo fixo m = Ok m' ->
  exists v rota' s,
    rotas m' !! v = Some rota' /\
    (fixo = false -> v = veiculo m /\ s = estado m) /\
    (fixo = true -> v = veiculo m' /\ s = estado m') /\
    forall i j, (i, j) <> (s, acao m') ->
      (i, j) ∉ zip (Rota.Consumidores rota') (tail (Rota.Consumidores rota')) ->
      entrada (Q1 m') i j = entrada (Q1 m) i j /\
      entrada (Q2 m') i j = entrada (Q2 m) i j /\
      entrada (QElegibilidade m') i j = entrada (QElegibilidade m) i j.
Proof.
  intros H. unfold passo in H. abre H. nomes_passo.
  apply set_Ok in Hsr_ as [Hv ->].
  assert (Hel : forall i j, (i, j) <> (s_, a_) ->
            entrada eleg_ i j = entrada (QElegibilidade m) i j).
  { intros i j Hne. unfold incrementa in Hie_. desfaz Hie_.
    apply set2_Ok in Hie_ as (l & Hl & Hj & ->).
    apply entrada_insert_ne; assumption. }
  assert (Hfora : forall i j, (i, j) <> (s_, a_) ->
            (i, j) ∉ zip (Rota.Consumidores rota'_)
                      (tail (Rota.Consumidores rota'_)) ->
            entrada q1_ i j = entrada (Q1 m) i j /\
            entrada q2_ i j = entrada (Q2 m) i j /\
            entrada eleg'_ i j = entrada (QElegibilidade m) i j).
  { intros i j Hne Hn.
    destruct (credito_fora _ _ _ _ _ _ _ _ _ _ Hcred_ i j Hne Hn)
      as (H1 & H2 & H3).
    simpl in H1, H2, H3. rewrite H3, (Hel i j Hne). auto. }
  assert (Hlook : <[v_ := rota'_]> (rotas m) !! v_ = Some rota'_)
    by (apply list_lookup_insert_eq; exact Hv).
  exists v_, rota'_, s_.
  destruct fixo.
  - inversion H; subst; simpl.
    split; [exact Hlook|]. split; [discriminate|]. split; [auto|exact Hfora].
  - inversion Hv_; subst v_. inversion Hs_; subst s_.
    destruct (decide (a_ <> O)); [abre H|destruct (decide (_ <> O))];
      inversion H; subst; simpl;
      (split; [try exact Hlook|
               split; [auto|split; [discriminate|exact Hfora]]]).
    rewrite lookup_app_l by (rewrite length_insert; exact Hv). exact Hlook.
Qed.

(** ** A customer that fills a vehicle *)

Lemma Recompensa_Ok (dist : Q) (d c : Z) (r : Q) :
  Recompensa dist d c = Ok r -> d <> c.
Proof.
  unfold Recompensa. destruct (Z.eqb_spec (c - d) 0); [discriminate|].
  intros _. lia.
Qed.

Lemma AtualizaQ_recompensa (alvo visitas eleg : matriz) (rota : Rota.t)
    (s a : nat) (dist fut : Q) (alvo' eleg' : matriz) :
  AtualizaQ ambiente par alvo visitas eleg rota s a dist fut
    = Ok (alvo', eleg') ->
  (2 <= length (Rota.Consumidores rota))%nat ->
  exists e, Estados ambiente !! a = Some e /\
    Estado.Demanda e <> Capacidade ambiente.
Proof.
  unfold AtualizaQ. intros H Hlen.
  assert (Htd : forall A d,
            passo_td ambiente A visitas s a dist fut = Ok d ->
            exists e, Estados ambiente !! a = Some e /\
              Estado.Demanda e <> Capacidade ambiente).
  { intros A d Hd.
    destruct (passo_td_Ok _ _ _ _ _ _ _ Hd)
      as (n & taxa & e & r & q & _ & _ & He & Hr & _).
    exists e. split; [exact He|]. eapply Recompensa_Ok. exact Hr. }
  destruct (Qeq_bool (lambd par) 0).
  - abre H.
    match goal with E : passo_td _ _ _ _ _ _ _ = Ok _ |- _ =>
      exact (Htd _ _ E) end.
  - destruct (pares (Rota.Consumidores rota)) as [|[u v] ps] eqn:Ep.
    + exfalso. apply (f_equal length) in Ep. unfold pares in Ep.
      rewrite length_reverse, length_zip in Ep.
      destruct (Rota.Consumidores rota) as [|x [|y l]]; simpl in *; lia.
    + simpl in H. abre H.
      match goal with E : passo_td _ _ _ _ _ _ _ = Ok _ |- _ =>
        exact (Htd _ _ E) end.
Qed.

Lemma passo_recompensa (duplo fixo : bool) (m m' : Memoria) :
  passo' duplo fixo m = Ok m' ->
  Forall (rota_coerente sqrt ambiente) (rotas m) ->
  exists e, Estados ambiente !! acao m' = Some e /\
    Estado.Demanda e <> Capacidade ambiente.
Proof.
  intros H Hco. unfold passo in H. abre H. nomes_passo.
  apply get_Ok in Hrota_.
  destruct (AtualizaRota_Ok _ _ _ _ _ Hatu_) as (e0 & _ & _ & _ & _ & Hc).
  assert (Hlen : (2 <= length (Rota.Consumidores rota'_))%nat).
  { rewrite Hc, length_app. simpl.
    eapply Forall_lookup_1 in Hco; [|exact Hrota_].
    destruct Hco as (Hh & _).
    destruct (Rota.Consumidores rota_); [discriminate|simpl; lia]. }
  assert (Hrec : exists e, Estados ambiente !! a_ = Some e /\
            Estado.Demanda e <> Capacidade ambiente).
  { unfold credito in Hcred_.
    destruct duplo; simpl in Hcred_;
      [destruct (moeda acaso (relogio m))|];
      abre Hcred_;
      match goal with E : AtualizaQ _ _ _ _ _ _ _ _ _ _ = Ok _ |- _ =>
        exact (AtualizaQ_recompensa _ _ _ _ _ _ _ _ _ _ E Hlen) end. }
  destruct fixo.
  - inversion H; subst; simpl. exact Hrec.
  - destruct (decide (a_ <> O)); [abre H|destruct (decide (_ <> O))];
      inversion H; subst; simpl; exact Hrec.
Qed.

Lemma laco_recompensa (duplo fixo : bool) (fuel : nat) (m m' : Memoria) :
  laco' duplo fixo fuel m = Ok m' ->
  Forall (rota_coerente sqrt ambiente) (rotas m) -> em_curso fixo m ->
  (forall c, c <> O -> listEstadosVisitados m !! c = Some true ->
     exists e, Estados ambiente !! c = Some e /\
       Estado.Demanda e <> Capacidade ambiente) ->
  forall c, c <> O -> listEstadosVisitados m' !! c = Some true ->
    exists e, Estados ambiente !! c = Some e /\
      Estado.Demanda e <> Capacidade ambiente.
Proof.
  revert m. induction fuel as [|fuel IH]; intros m H Hco Hem Hinv;
    simpl in H; destruct (decide (count_False _ = O)) as [Hz|Hz];
    try discriminate; try (inversion H; subst; exact Hinv).
  desfaz H.
  match goal with E : passo' _ _ _ = Ok ?x |- _ =>
    destruct (passo_coerente _ _ _ _ E Hco Hem) as [Hco' Hem'];
    destruct (passo_recompensa _ _ _ _ E Hco) as (e & He & Hd);
    destruct (passo_detalhe _ _ _ _ E)
      as (v & s & rota & rota' & a & dist & _ & _ & _ & Ha & _ & Hacao & _
          & _ & _ & Hvis);
    apply (IH x H Hco' Hem')
  end.
  intros c Hc Hv. rewrite Hvis in Hv.
  assert (Hv' : <[a := true]> (listEstadosVisitados m) !! c = Some true).
  { destruct (negb fixo && negb (bool_decide (a = O))); [|exact Hv].
    rewrite list_lookup_insert_ne in Hv by auto. exact Hv. }
  destruct (decide (c = a)) as [->|Hne].
  - exists e. rewrite <- Hacao. auto.
  - rewrite list_lookup_insert_ne in Hv' by auto. apply Hinv; assumption.
Qed.

Lemma episodio_recompensa (duplo fixo : bool) (fuel : nat) (m m' : Memoria)
    (T : val) (c : nat) (e : Estado.t) :
  episodio' duplo fixo fuel m = Ok (m', T) ->
  c <> O -> Estados ambiente !! c = Some e ->
  Estado.Demanda e <> Capacidade ambiente.
Proof.
  intros H Hc He. unfold episodio in H. abre H.
  match goal with
  | Ei : inicio _ _ _ = Ok ?m0, El : laco' _ _ _ _ = Ok ?m1 |- _ =>
      rename m0 into m0_, m1 into m1_, Ei into Hini, El into Hlaco
  end.
  clear H. unfold inicio in Hini. abre Hini.
  match goal with E : set _ O true = Ok _ |- _ =>
    apply set_Ok in E as [HN ->] end.
  rewrite length_replicate in HN.
  inversion Hini; subst m0_; clear Hini.
  destruct (laco_coerente _ _ _ _ _ Hlaco) as (_ & _ & Hcf & Hlv & _).
  { simpl. destruct fixo; [|apply Forall_singleton; apply rota_nova_coerente].
    unfold CriaRotas. apply Forall_replicate. apply rota_nova_coerente. }
  { intros ->. simpl. split; [reflexivity|]. split; [|reflexivity].
    intros [|k] r Hk; simpl in Hk; [|discriminate].
    inversion Hk; subst. split; [lia|reflexivity]. }
  simpl in Hlv. rewrite length_insert, length_replicate in Hlv.
  destruct (laco_recompensa _ _ _ _ _ Hlaco) with (c := c) as (e' & He' & Hd).
  - simpl. destruct fixo; [|apply Forall_singleton; apply rota_nova_coerente].
    unfold CriaRotas. apply Forall_replicate. apply rota_nova_coerente.
  - intros ->. simpl. split; [reflexivity|]. split; [|reflexivity].
    intros [|k] r Hk; simpl in Hk; [|discriminate].
    inversion Hk; subst. split; [lia|reflexivity].
  - simpl. intros k Hk Hv. exfalso.
    rewrite list_lookup_insert_ne in Hv by auto.
    apply lookup_replicate in Hv as [Hv _]. discriminate.
  - exact Hc.
  - apply count_False_zero; [exact Hcf|]. rewrite Hlv.
    eapply lookup_lt_Some. exact He.
  - congruence.
Qed.

(** X19. When the demand of some customer equals the capacity, none of the
    four algorithms returns a result: the turn that reaches that customer
    computes its reward by dividing by the capacity less the demand. *)
Theorem demanda_igual_a_capacidade_sem_resultado (duplo fixo : bool)
    (fuel epocas : nat) (c : nat) (e : Estado.t)
    (resultado : val * list Rota.t * list val) :
  c <> O -> Estados ambiente !! c = Some e ->
  Estado.Demanda e = Capacidade ambiente ->
  algoritmo sqrt ambiente par acaso duplo fixo fuel epocas <> Ok resultado.
Proof.
  intros Hc He Hd H. unfold algoritmo in H. abre H.
  match goal with E : execucao' _ _ _ _ _ _ _ _ = Ok _ |- _ =>
    rename E into Hexe end.
  destruct epocas as [|epocas]; simpl in Hexe.
  - inversion Hexe; subst. discriminate.
  - abre Hexe.
    match goal with E : episodio' _ _ _ _ = Ok _ |- _ =>
      exact (episodio_recompensa _ _ _ _ _ _ _ _ E Hc He Hd) end.
Qed.

(** ** Degenerate environments *)

(** X16. On an environment with no node at all, the four algorithms raise
    [IndexError] in the first episode, when it marks the depot. *)
Theorem sem_estados_IndexError (duplo fixo : bool) (fuel epocas : nat) :
  Estados ambiente = [] -> epocas <> O ->
  algoritmo sqrt ambiente par acaso duplo fixo fuel epocas = Err IndexError.
Proof.
  intros HE Hep. destruct epocas as [|epocas]; [congruence|].
  unfold algoritmo. simpl. unfold episodio, inicio. rewrite HE. reflexivity.
Qed.

(** X17. With no vehicle and at least one customer, the two fixed-fleet
    algorithms raise [ValueError] in the first turn of the first episode:
    [EscolheRota] takes the minimum of an empty list. *)
Theorem sem_veiculos_ValueError (duplo : bool) (fuel epocas : nat) :
  Veiculos ambiente <= 0 -> (2 <= length (Estados ambiente))%nat ->
  fuel <> O -> epocas <> O ->
  algoritmo sqrt ambiente par acaso duplo true fuel epocas = Err ValueError.
Proof.
  intros HK HN Hfuel Hep.
  destruct epocas as [|epocas]; [congruence|].
  destruct fuel as [|fuel]; [congruence|].
  unfold algoritmo. simpl. unfold episodio, inicio.
  destruct (length (Estados ambiente)) as [|[|n]] eqn:En; [lia|lia|].
  change (set (replicate (S (S n)) false) O true)
    with (Ok (A := list bool) (true :: false :: replicate n false)).
  cbn [bind]. unfold CriaRotas.
  replace (Z.to_nat (Veiculos ambiente)) with O by lia.
  cbn [replicate laco listEstadosVisitados].
  destruct (decide (count_False (true :: false :: replicate n false) = O))
    as [Hz|Hz].
  - exfalso. unfold count_False in Hz.
    rewrite filter_cons_False in Hz by discriminate.
    rewrite filter_cons_True in Hz by reflexivity. discriminate.
  - reflexivity.
Qed.

End Propriedades.

(** * The properties at work *)

Lemma meio_valido : acaso_valido meio.
Proof. intros t. simpl. split; [discriminate|reflexivity]. Qed.

Lemma triangulo_apertado_apertado : ambiente_apertado triangulo_apertado.
Proof.
  unfold ambiente_apertado. simpl. split; [lia|].
  split; [eexists; split; reflexivity|]. split; [lia|]. split; [lia|].
  intros [|[|[|k]]] e Hk He; simpl in He; inversion He; subst; simpl;
    try lia; congruence.
Qed.

Lemma ValidaAcoes_correta_witness :
  (length [Fin 0; Fin 1; Fin 2] <= length [true; false; false])%nat /\
  (length [Fin 0; Fin 1; Fin 2] <= length (Estados triangulo))%nat /\
  exists acoes permissao,
    ValidaAcoes [Fin 0; Fin 1; Fin 2] [true; false; false] 4 triangulo true
      = Ok (acoes, permissao) /\
    length acoes = 3%nat /\ length permissao = 3%nat.
Proof.
  assert (H1 : (length [Fin 0; Fin 1; Fin 2]
                <= length [true; false; false])%nat) by (simpl; lia).
  assert (H2 : (length [Fin 0; Fin 1; Fin 2]
                <= length (Estados triangulo))%nat) by (simpl; lia).
  split; [exact H1|]. split; [exact H2|].
  destruct (ValidaAcoes_correta [Fin 0; Fin 1; Fin 2] [true; false; false] 4
              triangulo true H1 H2)
    as (acoes & permissao & H & Hl1 & Hl2 & _).
  exists acoes, permissao. auto.
Defined.

Lemma Recompensa_correta_witness :
  1 <> 5 /\ Recompensa 12 1 5 = Ok (- 12 / inject_Z (5 - 1))%Q /\
  5 = 5 /\ Recompensa 12 5 5 = Err ZeroDivisionError.
Proof.
  assert (H1 : 1 <> 5) by lia.
  split; [exact H1|]. split.
  - destruct (Recompensa_correta 12 1 5) as [H _]. apply (H H1).
  - split; [reflexivity|].
    destruct (Recompensa_correta 12 5 5) as [_ H]. apply (H eq_refl).
Defined.

Lemma Politica_sem_acao_valida_witness :
  Forall (fun p => p = 0) [0; 0] /\
  (0 < 1 # 2)%Q /\
  Politica (1 # 2) 0 0 [NInf; NInf] [0; 0] = Err ZeroDivisionError /\
  (1 # 2 <= 1)%Q /\
  Politica (1 # 2) 0 1 [NInf; NInf] [0; 0] = Ok O.
Proof.
  assert (Hz : Forall (fun p => p = 0) [0; 0]) by (repeat constructor).
  assert (H1 : (0 < 1 # 2)%Q) by reflexivity.
  assert (H2 : (1 # 2 <= 1)%Q) by discriminate.
  split; [exact Hz|]. split; [exact H1|]. split.
  - destruct (Politica_sem_acao_valida (1 # 2) 0 0 [NInf; NInf] [0; 0] Hz)
      as [H _]. apply (H H1).
  - split; [exact H2|].
    destruct (Politica_sem_acao_valida (1 # 2) 0 1 [NInf; NInf] [0; 0] Hz)
      as [_ H]. destruct (H H2) as (_ & _ & _ & H3).
    apply H3; [discriminate|repeat constructor].
Defined.

(** C10 as stated fails: exploiting with no legal action returns the
    position 0. *)
Lemma Politica_sem_acao_valida_contraexemplo :
  Politica (1 # 2) 0 1 [NInf; NInf] [0; 0] = Ok O.
Proof. reflexivity. Qed.

Lemma Politica_empate_witness :
  (0 <= 3 # 4)%Q /\ (3 # 4 < 1)%Q /\
  Politica (1 # 2) (3 # 4) 0 [NInf; Fin 0; Fin 0] [0; 1; 1] = Ok 1%nat.
Proof.
  assert (H0 : (0 <= 3 # 4)%Q) by discriminate.
  assert (H1 : (3 # 4 < 1)%Q) by reflexivity.
  split; [exact H0|]. split; [exact H1|].
  apply (Politica_empate_explora_o_primeiro (3 # 4) H0 H1).
Defined.

Lemma cobertura_dos_clientes_witness :
  acaso_valido meio /\
  exists m' distanciaTotal,
    episodio raiz triangulo guloso meio false false 10 memoria3
      = Ok (m', distanciaTotal) /\
    clientes (rotas m') ≡ₚ seq 1 (length (Estados triangulo) - 1).
Proof.
  split; [exact meio_valido|].
  destruct (episodio raiz triangulo guloso meio false false 10 memoria3)
    as [[m' T]| |] eqn:E;
    [|vm_compute in E; discriminate E|vm_compute in E; discriminate E].
  exists m', T. split; [reflexivity|].
  exact (cobertura_dos_clientes raiz triangulo guloso meio false false 10
           memoria3 m' T meio_valido E).
Defined.

Lemma capacidade_respeitada_witness :
  acaso_valido meio /\
  (forall e, Estados triangulo !! O = Some e -> Estado.Demanda e = 0) /\
  (forall e, e ∈ Estados triangulo -> 0 <= Estado.Demanda e) /\
  0 <= Capacidade triangulo /\
  inicio triangulo false memoria3 = Ok memoria3_inicio /\
  exists m' distanciaTotal,
    episodio raiz triangulo guloso meio false false 10 memoria3
      = Ok (m', distanciaTotal) /\
    Forall (fun r => Rota.Demanda r <= Capacidade triangulo) (rotas m').
Proof.
  assert (H1 : forall e, Estados triangulo !! O = Some e ->
                         Estado.Demanda e = 0).
  { intros e He. inversion He. reflexivity. }
  assert (H2 : forall e, e ∈ Estados triangulo -> 0 <= Estado.Demanda e).
  { intros e He. simpl in He.
    repeat (apply elem_of_cons in He as [->|He]; [simpl; lia|]).
    inversion He. }
  assert (H3 : 0 <= Capacidade triangulo) by (simpl; lia).
  assert (H4 : inicio triangulo false memoria3 = Ok memoria3_inicio)
    by reflexivity.
  split; [exact meio_valido|]. split; [exact H1|]. split; [exact H2|].
  split; [exact H3|]. split; [exact H4|].
  destruct (episodio raiz triangulo guloso meio false false 10 memoria3)
    as [[m' T]| |] eqn:E;
    [|vm_compute in E; discriminate E|vm_compute in E; discriminate E].
  exists m', T. split; [reflexivity|].
  destruct (capacidade_respeitada raiz triangulo guloso meio false memoria3
              memoria3_inicio meio_valido H1 H2 H3 H4) as [_ H].
  exact (H 10%nat m' T E).
Defined.

Lemma penalidade_domina_witness :
  (exists m',
     episodio raiz triangulo guloso meio false false 10 memoria3
       = Ok (m', PInf) /\
     Veiculos triangulo < Z.of_nat (length (rotas m'))) /\
  (exists m',
     episodio raiz triangulo_apertado guloso meio false true 10 memoria3
       = Ok (m', PInf) /\
     Exists (fun r => Capacidade triangulo_apertado < Rota.Demanda r)
       (rotas m')).
Proof.
  split.
  - destruct (episodio raiz triangulo guloso meio false false 10 memoria3)
      as [[m' T]| |] eqn:E;
      [|vm_compute in E; discriminate E|vm_compute in E; discriminate E].
    assert (Hv : Veiculos triangulo < Z.of_nat (length (rotas m'))).
    { vm_compute in E. inversion E. reflexivity. }
    exists m'. split; [|exact Hv]. f_equal. f_equal.
    exact (penalidade_domina raiz triangulo guloso meio false false 10
             memoria3 m' T E Hv).
  - destruct (episodio raiz triangulo_apertado guloso meio false true 10
                memoria3)
      as [[m' T]| |] eqn:E;
      [|vm_compute in E; discriminate E|vm_compute in E; discriminate E].
    assert (Hv : Exists
                   (fun r => Capacidade triangulo_apertado < Rota.Demanda r)
                   (rotas m')).
    { vm_compute in E. inversion E. apply Exists_cons_hd. reflexivity. }
    exists m'. split; [|exact Hv]. f_equal. f_equal.
    exact (penalidade_domina raiz triangulo_apertado guloso meio false true
             10 memoria3 m' T E Hv).
Defined.

Lemma atualizacao_de_uma_entrada_witness :
  (lambd guloso == 0)%Q /\
  exists m2 m3 v s rota linha acoes permissao x,
    memoria4_segundo = Ok m2 /\
    passo raiz quadrilatero guloso meio false true m2 = Ok m3 /\
    rotas m2 !! v = Some rota /\
    (EscolheRota (rotas m2) = Ok v /\
     last (Rota.Consumidores rota) = Some s) /\
    valores false m2 s = Ok (Fin <$> linha) /\
    ValidaAcoes (Fin <$> linha) (listEstadosVisitados m2) (Rota.Demanda rota)
      quadrilatero false = Ok (acoes, permissao) /\
    ValorAcaoFutura true (Q1 m2) (<[acao m3 := NInf]> acoes) (acao m3)
      = Ok x /\
    Q2 m3 = Q2 m2 /\
    atualiza_um quadrilatero (Q1 m2) (Q1 m3) (QVisitas m3) s (acao m3)
      (distancia raiz quadrilatero s (acao m3)) (taxaDesconto guloso * x).
Proof.
  assert (Hl : (lambd guloso == 0)%Q) by reflexivity.
  split; [exact Hl|].
  destruct memoria4_segundo as [m2| |] eqn:E2;
    [|vm_compute in E2; discriminate E2|vm_compute in E2; discriminate E2].
  destruct (passo raiz quadrilatero guloso meio false true m2)
    as [m3| |] eqn:E3;
    [|exfalso; vm_compute in E2; injection E2 as <-; vm_compute in E3;
      discriminate E3
     |exfalso; vm_compute in E2; injection E2 as <-; vm_compute in E3;
      discriminate E3].
  destruct (atualizacao_de_uma_entrada raiz quadrilatero guloso meio Hl)
    as [H _].
  destruct (H false true m2 m3 E3)
    as (v & s & rota & linha & acoes & permissao & x & H').
  exists m2, m3, v, s, rota, linha, acoes, permissao, x.
  split; [reflexivity|]. split; [exact E3|]. exact H'.
Defined.



Lemma frota_fixa_abaixo_da_demanda_witness :
  ambiente_apertado triangulo_apertado /\
  acaso_valido meio /\
  (length (Estados triangulo_apertado) - 1 <= 2)%nat /\
  2%nat <> O /\
  (exists menorRotas,
     Q_Learning_VeiculosFixos raiz triangulo_apertado explorador meio 2 2
       = Ok (PInf, menorRotas, [PInf; PInf])) /\
  (exists menorRotas,
     DoubleQ_Learning_VeiculosFixos raiz triangulo_apertado explorador meio
       2 2
       = Ok (PInf, menorRotas, [PInf; PInf])).
Proof.
  assert (H1 : (length (Estados triangulo_apertado) - 1 <= 2)%nat)
    by (simpl; lia).
  assert (H2 : 2%nat <> O) by discriminate.
  split; [exact triangulo_apertado_apertado|]. split; [exact meio_valido|].
  split; [exact H1|]. split; [exact H2|].
  exact (frota_fixa_abaixo_da_demanda raiz triangulo_apertado explorador meio
           2 2 triangulo_apertado_apertado meio_valido H1 H2).
Defined.

(** C4 as stated fails.  With a dynamic fleet no customer is legal from the
    depot, and the first call of the policy, which explores, divides by the
    sum of the marks, which is 0: the episode records nothing. *)
Lemma frota_dinamica_abaixo_da_demanda_contraexemplo :
  Q_Learning_VeiculosDinamicos raiz triangulo_apertado explorador meio 10 1
    = Err ZeroDivisionError /\
  DoubleQ_Learning_VeiculosDinamicos raiz triangulo_apertado explorador meio
    10 1
    = Err ZeroDivisionError.
Proof. split; reflexivity. Qed.

(** ** The further properties at work *)

Lemma TaxaAprendizagem_decrescente_witness :
  (0 <= 0)%Q /\ (0 < 1)%Q /\
  exists a b,
    TaxaAprendizagem 0 = Ok a /\ TaxaAprendizagem 1 = Ok b /\
    (b < a)%Q /\ (0 < b)%Q /\ (a <= 1)%Q.
Proof.
  assert (H1 : (0 <= 0)%Q) by (unfold Qle; simpl; lia).
  assert (H2 : (0 < 1)%Q) by reflexivity.
  split; [exact H1|]. split; [exact H2|].
  exact (TaxaAprendizagem_decrescente 0 1 H1 H2).
Defined.

Lemma Politica_so_legais_witness :
  ValidaAcoes (Fin <$> [0; 0; 0]%Q) [true; false; false] 0 triangulo true
    = Ok ([NInf; Fin 0; Fin 0], [0; 1; 1]) /\
  [0; 1; 1] !! 1%nat = Some 1 /\
  (0 <= 1 # 2)%Q /\
  Politica (1 # 2) (1 # 2) 1 [NInf; Fin 0; Fin 0] [0; 1; 1] = Ok 1%nat /\
  [0; 1; 1] !! 1%nat = Some 1 /\
  [true; false; false] !! 1%nat = Some false /\
  exists e, Estados triangulo !! 1%nat = Some e /\
    (true = true -> 0 + Estado.Demanda e <= Capacidade triangulo).
Proof.
  assert (H1 : ValidaAcoes (Fin <$> [0; 0; 0]%Q) [true; false; false] 0
                 triangulo true
               = Ok ([NInf; Fin 0; Fin 0], [0; 1; 1])) by reflexivity.
  assert (H2 : [0; 1; 1] !! 1%nat = Some 1) by reflexivity.
  assert (H3 : (0 <= 1 # 2)%Q) by (unfold Qle; simpl; lia).
  assert (H4 : Politica (1 # 2) (1 # 2) 1 [NInf; Fin 0; Fin 0] [0; 1; 1]
               = Ok 1%nat) by reflexivity.
  split; [exact H1|]. split; [exact H2|]. split; [exact H3|].
  split; [exact H4|].
  exact (Politica_so_legais (1 # 2) (1 # 2) 1 [0; 0; 0]%Q
           [true; false; false] 0 triangulo true [NInf; Fin 0; Fin 0]
           [0; 1; 1] 1 1 H1 H2 H3 H4).
Defined.

Lemma Politica_nunca_o_segundo_witness :
  (1 < 2)%nat /\
  [NInf; Fin 0; Fin 0] !! 1%nat = Some (Fin 0) /\
  [NInf; Fin 0; Fin 0] !! 2%nat = Some (Fin 0) /\
  val_eqb (Fin 0) (Fin 0) = true /\
  Politica (1 # 2) (1 # 2) 0 [NInf; Fin 0; Fin 0] [0; 1; 1] <> Ok 2%nat.
Proof.
  assert (H1 : (1 < 2)%nat) by lia.
  assert (H2 : [NInf; Fin 0; Fin 0] !! 1%nat = Some (Fin 0)) by reflexivity.
  assert (H3 : [NInf; Fin 0; Fin 0] !! 2%nat = Some (Fin 0)) by reflexivity.
  assert (H4 : val_eqb (Fin 0) (Fin 0) = true) by reflexivity.
  split; [exact H1|]. split; [exact H2|]. split; [exact H3|].
  split; [exact H4|].
  exact (Politica_nunca_o_segundo (1 # 2) (1 # 2) 0 [NInf; Fin 0; Fin 0]
           [0; 1; 1] 1 2 (Fin 0) (Fin 0) H1 H2 H3 H4).
Defined.

Lemma menor_distancia_minima_witness :
  exists menorDistancia menorRotas resultados,
    algoritmo raiz triangulo guloso meio false false 10 2
      = Ok (menorDistancia, menorRotas, resultados) /\
    2%nat <> O /\ length resultados = 2%nat /\
    menorDistancia ∈ resultados /\
    forall x, x ∈ resultados -> val_ltb x menorDistancia = false.
Proof.
  destruct (algoritmo raiz triangulo guloso meio false false 10 2)
    as [[[d rs] res]| |] eqn:E;
    [|vm_compute in E; discriminate E|vm_compute in E; discriminate E].
  exists d, rs, res. split; [reflexivity|].
  exact (menor_distancia_minima raiz triangulo guloso meio false false 10 2
           d rs res E).
Defined.

Lemma rotas_saem_e_voltam_ao_deposito_witness :
  exists m' T,
    episodio raiz triangulo guloso meio false false 10 memoria3
      = Ok (m', T) /\
    forall r, r ∈ rotas m' ->
      head (Rota.Consumidores r) = Some O /\
      last (Rota.Consumidores r) = Some O.
Proof.
  destruct (episodio raiz triangulo guloso meio false false 10 memoria3)
    as [[m' T]| |] eqn:E;
    [|vm_compute in E; discriminate E|vm_compute in E; discriminate E].
  exists m', T. split; [reflexivity|].
  exact (rotas_saem_e_voltam_ao_deposito raiz triangulo guloso meio false
           false 10 memoria3 m' T E).
Defined.

Lemma livro_das_rotas_witness :
  exists m' T,
    episodio raiz triangulo guloso meio true true 10 memoria3
      = Ok (m', T) /\
    forall r, r ∈ rotas m' ->
      Rota.Demanda r
        = demanda_servida triangulo (tail (Rota.Consumidores r)) /\
      Rota.Custo r = custo_percurso raiz triangulo (Rota.Consumidores r).
Proof.
  destruct (episodio raiz triangulo guloso meio true true 10 memoria3)
    as [[m' T]| |] eqn:E;
    [|vm_compute in E; discriminate E|vm_compute in E; discriminate E].
  exists m', T. split; [reflexivity|].
  exact (livro_das_rotas raiz triangulo guloso meio true true 10 memoria3
           m' T E).
Defined.

Lemma distanciaTotal_soma_dos_custos_witness :
  exists m' T,
    episodio raiz triangulo guloso meio false true 10 memoria3
      = Ok (m', T) /\
    Forall (fun r => Rota.Demanda r <= Capacidade triangulo) (rotas m') /\
    T = Fin (custo_total (rotas m')).
Proof.
  destruct (episodio raiz triangulo guloso meio false true 10 memoria3)
    as [[m' T]| |] eqn:E;
    [|vm_compute in E; discriminate E|vm_compute in E; discriminate E].
  assert (Hcap : Forall (fun r => Rota.Demanda r <= Capacidade triangulo)
                   (rotas m')).
  { pose proof E as E'. vm_compute in E'. injection E' as <- _.
    simpl. repeat constructor. simpl. lia. }
  exists m', T. split; [reflexivity|]. split; [exact Hcap|].
  exact (distanciaTotal_soma_dos_custos raiz triangulo guloso meio false
           true 10 memoria3 m' T E Hcap).
Defined.

Lemma frota_fixa_numero_de_rotas_witness :
  exists m' T,
    episodio raiz triangulo guloso meio false true 10 memoria3
      = Ok (m', T) /\
    length (rotas m') = Z.to_nat (Veiculos triangulo).
Proof.
  destruct (episodio raiz triangulo guloso meio false true 10 memoria3)
    as [[m' T]| |] eqn:E;
    [|vm_compute in E; discriminate E|vm_compute in E; discriminate E].
  exists m', T. split; [reflexivity|].
  exact (frota_fixa_numero_de_rotas raiz triangulo guloso meio false
           10 memoria3 m' T E).
Defined.

Lemma frota_dinamica_abaixo_da_demanda_nao_termina_witness :
  ambiente_apertado triangulo_apertado /\ acaso_valido meio /\
  algoritmo raiz triangulo_apertado guloso meio false false 10 1
    <> Ok (PInf, [], [PInf]).
Proof.
  split; [exact triangulo_apertado_apertado|]. split; [exact meio_valido|].
  exact (frota_dinamica_abaixo_da_demanda_nao_termina raiz
           triangulo_apertado guloso meio false 10 1 (PInf, [], [PInf])
           triangulo_apertado_apertado meio_valido).
Defined.

Lemma passo_conta_uma_visita_witness :
  exists m' s x,
    passo raiz triangulo guloso meio false false memoria3_inicio = Ok m' /\
    (false = false -> s = estado memoria3_inicio) /\
    (false = true -> s = estado m') /\
    entrada (QVisitas memoria3_inicio) s (acao m') = Some x /\
    forall i j,
      entrada (QVisitas m') i j
      = if decide ((i, j) = (s, acao m')) then Some (x + 1)%Q
        else entrada (QVisitas memoria3_inicio) i j.
Proof.
  destruct (passo raiz triangulo guloso meio false false memoria3_inicio)
    as [m'| |] eqn:E;
    [|vm_compute in E; discriminate E|vm_compute in E; discriminate E].
  destruct (passo_conta_uma_visita raiz triangulo guloso meio false false
              memoria3_inicio m' E) as (s & x & H).
  exists m', s, x. split; [reflexivity|exact H].
Defined.

Lemma sem_estados_IndexError_witness :
  Estados ambiente_vazio = [] /\ 1%nat <> O /\
  algoritmo raiz ambiente_vazio guloso meio true true 10 1 = Err IndexError.
Proof.
  assert (H1 : Estados ambiente_vazio = []) by reflexivity.
  assert (H2 : 1%nat <> O) by discriminate.
  split; [exact H1|]. split; [exact H2|].
  exact (sem_estados_IndexError raiz ambiente_vazio guloso meio true true
           10 1 H1 H2).
Defined.

Lemma sem_veiculos_ValueError_witness :
  Veiculos triangulo_sem_frota <= 0 /\
  (2 <= length (Estados triangulo_sem_frota))%nat /\
  10%nat <> O /\ 1%nat <> O /\
  algoritmo raiz triangulo_sem_frota guloso meio false true 10 1
    = Err ValueError.
Proof.
  assert (H1 : Veiculos triangulo_sem_frota <= 0) by (simpl; lia).
  assert (H2 : (2 <= length (Estados triangulo_sem_frota))%nat)
    by (simpl; lia).
  assert (H3 : 10%nat <> O) by discriminate.
  assert (H4 : 1%nat <> O) by discriminate.
  split; [exact H1|]. split; [exact H2|]. split; [exact H3|].
  split; [exact H4|].
  exact (sem_veiculos_ValueError raiz triangulo_sem_frota guloso meio false
           10 1 H1 H2 H3 H4).
Defined.

Lemma aprendizagem_so_na_rota_witness :
  exists m' v rota' s,
    passo raiz triangulo explorador meio true false memoria3_inicio
      = Ok m' /\
    rotas m' !! v = Some rota' /\
    (false = false ->
     v = veiculo memoria3_inicio /\ s = estado memoria3_inicio) /\
    (false = true -> v = veiculo m' /\ s = estado m') /\
    forall i j, (i, j) <> (s, acao m') ->
      (i, j) ∉ zip (Rota.Consumidores rota')
                 (tail (Rota.Consumidores rota')) ->
      entrada (Q1 m') i j = entrada (Q1 memoria3_inicio) i j /\
      entrada (Q2 m') i j = entrada (Q2 memoria3_inicio) i j /\
      entrada (QElegibilidade m') i j
        = entrada (QElegibilidade memoria3_inicio) i j.
Proof.
  destruct (passo raiz triangulo explorador meio true false memoria3_inicio)
    as [m'| |] eqn:E;
    [|vm_compute in E; discriminate E|vm_compute in E; discriminate E].
  destruct (aprendizagem_so_na_rota raiz triangulo explorador meio true
              false memoria3_inicio m' E) as (v & rota' & s & H).
  exists m', v, rota', s. split; [reflexivity|exact H].
Defined.

Lemma demanda_igual_a_capacidade_sem_resultado_witness :
  1%nat <> O /\
  Estados triangulo_justo !! 1%nat = Some (Estado.Build 3 0 1) /\
  Estado.Demanda (Estado.Build 3 0 1) = Capacidade triangulo_justo /\
  algoritmo raiz triangulo_justo guloso meio false true 10 1
    <> Ok (PInf, [], [PInf]).
Proof.
  assert (H1 : 1%nat <> O) by discriminate.
  assert (H2 : Estados triangulo_justo !! 1%nat = Some (Estado.Build 3 0 1))
    by reflexivity.
  assert (H3 : Estado.Demanda (Estado.Build 3 0 1)
               = Capacidade triangulo_justo) by reflexivity.
  split; [exact H1|]. split; [exact H2|]. split; [exact H3|].
  exact (demanda_igual_a_capacidade_sem_resultado raiz triangulo_justo
           guloso meio false true 10 1 1 (Estado.Build 3 0 1)
           (PInf, [], [PInf]) H1 H2 H3).
Defined.
